(** * RevitClientConnection: the framed request/response transport

    A shallow embedding of [RevitClientConnection] (the TypeScript class that
    talks to the Revit host over one TCP socket) and the properties of its
    receive-side framer ([processData]), its response registry
    ([handleResponse], the callback and the timer that [sendCommand]
    installs) and its sender.

    Conventions of the embedding.
    - A [Buffer] is a [list byte]; a JavaScript number that holds a length or
      an offset is a [Z]; a JavaScript string is a [string].
    - The object's mutable fields are the record [conn]; every method takes
      the record and returns the new one.
    - What a method does to the outside world (a call of
      [this.handleResponse], [console.error], [resolve], [reject],
      [socket.write], [setTimeout]) is returned as a list of [event]s, in
      program order.
    - What the code takes from the JavaScript runtime ([JSON.parse],
      [JSON.stringify], the UTF-8 codec of [Buffer], the wording of runtime
      exceptions) is the class [Runtime]; nothing is assumed about it beyond
      its types. *)

From Stdlib Require Import ZArith Lia List String Ascii Strings.Byte.
From Stdlib Require Import DecimalString Floats.PrimFloat.
From Stdlib Require Floats.SpecFloat Floats.FloatOps Uint63.
From stdpp Require Import gmap strings list.
Import ListNotations.

Local Open Scope Z_scope.
#[local] Set Warnings "-register-all".

(** ** JavaScript values *)

(** The values [JSON.parse] can return.  An object is the list of its own
    properties (a key occurs once: the parser has already let the last
    duplicate win). *)
Inductive json : Type :=
| JNull
| JBool (b : bool)
| JNum (x : float)
| JStr (s : string)
| JArr (items : list json)
| JObj (fields : list (string * json)).

(** A JavaScript value that may be [undefined]: [None] is [undefined]. *)
Definition jsval : Type := option json.

(** Exceptions of the runtime, with the [message] the code reads. *)
Inductive js_exn : Type :=
| SyntaxError (message : string)
| TypeError (message : string)
| RangeError (message : string).

Definition exn_message (e : js_exn) : string :=
  match e with
  | SyntaxError m | TypeError m | RangeError m => m
  end.

(** A computation that returns or throws. *)
Inductive result (A : Type) : Type :=
| Ok (a : A)
| Throw (e : js_exn).
Arguments Ok {A} a.
Arguments Throw {A} e.

Definition bind {A B : Type} (r : result A) (k : A -> result B) : result B :=
  match r with
  | Ok a => k a
  | Throw e => Throw e
  end.

Notation "'do' x <- r 'in' k" := (bind r (fun x => k))
  (at level 10, x name, r at level 100, k at level 200, only parsing).

(** What [sendCommand] serialises and writes. *)
Record commandObj : Type := mkCommandObj {
  jsonrpc : string;
  method : string;
  params : json;
  id_ : string
}.

(** The runtime services the class calls. *)
Class Runtime : Type := {
  (** [Buffer.from(s, 'utf8')] *)
  utf8_encode : string -> list byte;
  (** [buffer.toString('utf8')] *)
  utf8_decode : list byte -> string;
  (** [JSON.parse(s)]: a value, or a [SyntaxError] *)
  JSON_parse : string -> result json;
  (** [JSON.stringify(commandObj)] *)
  JSON_stringify : commandObj -> result string;
  (** the [TypeError] raised by reading property [k] of [null] or of
      [undefined] *)
  nullish_read_error : jsval -> string -> js_exn;
  (** the [RangeError] raised by [writeInt32BE] on a value outside int32 *)
  int32_range_error : Z -> js_exn;
  (** what [socket.connect(port, host)] throws, if it throws (Node does
      for a port outside 0..65535) *)
  socket_connect_error : Z -> string -> option js_exn
}.

(** JavaScript truthiness ([ToBoolean]). *)
Definition truthy (v : jsval) : bool :=
  match v with
  | None => false
  | Some JNull => false
  | Some (JBool b) => b
  | Some (JNum x) => negb (PrimFloat.is_zero x || PrimFloat.is_nan x)
  | Some (JStr s) => negb (String.eqb s EmptyString)
  | Some (JArr _) => true
  | Some (JObj _) => true
  end.

(** [a || b] on values, [b] being defined. *)
Definition js_or (a : jsval) (b : json) : json :=
  match a with
  | Some v => if truthy a then v else b
  | None => b
  end.

Fixpoint own_property (k : string) (fields : list (string * json)) : jsval :=
  match fields with
  | [] => None
  | (k', v) :: rest => if String.eqb k k' then Some v else own_property k rest
  end.

(** [v.k] for the property names the class reads ([id], [error], [message],
    [result]), none of which a prototype defines: an object gives its own
    property or [undefined], [null] and [undefined] throw, every other
    value gives [undefined]. *)
Definition get_prop `{Runtime} (v : jsval) (k : string) : result jsval :=
  match v with
  | None | Some JNull => Throw (nullish_read_error v k)
  | Some (JObj fields) => Ok (own_property k fields)
  | Some _ => Ok None
  end.

(** [n.toString()] and [`${n}`] for an integer [n]. *)
Definition Z_to_string (n : Z) : string :=
  NilZero.string_of_int (Z.to_int n).

(** ** Buffers *)

Definition Z_of_byte (b : byte) : Z := Z.of_N (Byte.to_N b).

Definition byte_of_Z (z : Z) : byte :=
  match Byte.of_N (Z.to_N (z mod 256)) with
  | Some b => b
  | None => x00
  end.

(** [buf.readInt32BE(0)] on the four bytes [b0 b1 b2 b3]: big-endian,
    two's complement. *)
Definition readInt32BE (b0 b1 b2 b3 : byte) : Z :=
  let u := Z_of_byte b0 * 2 ^ 24 + Z_of_byte b1 * 2 ^ 16
           + Z_of_byte b2 * 2 ^ 8 + Z_of_byte b3 in
  if 2 ^ 31 <=? u then u - 2 ^ 32 else u.

(** The four bytes [writeInt32BE] stores for [value]. *)
Definition int32_bytes (value : Z) : list byte :=
  [byte_of_Z (value / 2 ^ 24); byte_of_Z (value / 2 ^ 16);
   byte_of_Z (value / 2 ^ 8); byte_of_Z value].

(** [Buffer.alloc(4)] followed by [writeInt32BE(value, 0)]. *)
Definition writeInt32BE `{Runtime} (value : Z) : result (list byte) :=
  if (value <? - 2 ^ 31) || (2 ^ 31 - 1 <? value)
  then Throw (int32_range_error value)
  else Ok (int32_bytes value).

(** An index of [slice] brought into [0 .. len]: a negative index counts
    from the end. *)
Definition clamp_index (len i : Z) : Z :=
  if i <? 0 then Z.max (len + i) 0 else Z.min i len.

(** [data.slice(start, stop)]. *)
Definition buffer_slice (data : list byte) (start stop : Z) : list byte :=
  let len := Z.of_nat (length data) in
  let s := clamp_index len start in
  let e := clamp_index len stop in
  take (Z.to_nat (e - s)) (drop (Z.to_nat s) data).

Definition buffer_length (b : list byte) : Z := Z.of_nat (length b).

(** ** Promises, callbacks, timers and events *)

(** The promise a call of [sendCommand] returns, by identity. *)
Definition promise : Type := nat.

(** What [reject] is called with. *)
Inductive rejection : Type :=
| NewError (message : json)   (* new Error(m): the message is m as a string *)
| Rethrown (e : js_exn).      (* reject(error) of a caught exception *)

(** A value of [responseCallbacks]: the closure [sendCommand] registers,
    which holds the [resolve] and [reject] of its promise. *)
Inductive callback : Type :=
| ResponseCallback (p : promise).

(** The closure [sendCommand] hands to [setTimeout]: it holds [requestId],
    [command] and the promise's [reject]. *)
Record timer : Type := mkTimer {
  timer_requestId : string;
  timer_command : string;
  timer_promise : promise
}.

Inductive log_arg : Type :=
| LogStr (s : string)
| LogExn (e : js_exn).

Inductive event : Type :=
| Emit (jsonStr : string)                 (* this.handleResponse(jsonStr) is called *)
| ConsoleError (args : list log_arg)      (* console.error(...args) *)
| Resolve (p : promise) (value : jsval)   (* resolve(value) *)
| Reject (p : promise) (reason : rejection) (* reject(reason) *)
| SocketConnect (port : Z) (host : string) (* socket.connect(port, host) *)
| SocketWrite (bytes : list byte)         (* socket.write(bytes) *)
| SetTimeout (t : timer) (ms : Z).        (* setTimeout(t, ms) *)

(** ** The connection object *)

Record conn : Type := mkConn {
  host : string;
  port : Z;
  isConnected : bool;
  responseCallbacks : gmap string callback;
  lengthBuffer : list byte;
  messageBuffer : list byte;
  expectedLength : option Z
}.

Definition set_responseCallbacks (m : gmap string callback) (c : conn) : conn :=
  mkConn (host c) (port c) (isConnected c) m
         (lengthBuffer c) (messageBuffer c) (expectedLength c).

Definition set_lengthBuffer (b : list byte) (c : conn) : conn :=
  mkConn (host c) (port c) (isConnected c) (responseCallbacks c)
         b (messageBuffer c) (expectedLength c).

Definition set_messageBuffer (b : list byte) (c : conn) : conn :=
  mkConn (host c) (port c) (isConnected c) (responseCallbacks c)
         (lengthBuffer c) b (expectedLength c).

Definition set_isConnected (b : bool) (c : conn) : conn :=
  mkConn (host c) (port c) b (responseCallbacks c)
         (lengthBuffer c) (messageBuffer c) (expectedLength c).

Definition set_expectedLength (n : option Z) (c : conn) : conn :=
  mkConn (host c) (port c) (isConnected c) (responseCallbacks c)
         (lengthBuffer c) (messageBuffer c) n.

(** [new RevitClientConnection(host, port)]. *)
Definition new_connection (h : string) (p : Z) : conn :=
  mkConn h p false ∅ [] [] None.

Definition resetBuffers (c : conn) : conn :=
  set_expectedLength None (set_messageBuffer [] (set_lengthBuffer [] c)).

Definition MAX_MESSAGE_LENGTH : Z := 10 * 1024 * 1024.

(** ** A runtime for the examples

    [sample_runtime] stands for the JavaScript runtime in the closed
    examples at the end of the file: its UTF-8 codec is the identity on
    the bytes of a [string], [JSON.parse] is tabulated on the payloads
    the examples use (every other text is a [SyntaxError], with a message
    that stands for the runtime's: the examples give it no other text that
    is JSON), and
    [socket.connect] throws for a port outside 0..65535, as Node's
    does. *)

Definition dq : string := String (ascii_of_nat 34) EmptyString.

Definition quoted (s : string) : string := dq +:+ s +:+ dq.

(** The identifier [generateRequestId] makes at time 1700000000000 from
    the random text "0.123456789". *)
Definition sample_id : string := "1700000000000123456".

(** [{"id":"1700000000000123456","result":{"pong":true}}] *)
Definition pong_payload : string :=
  "{" +:+ quoted "id" +:+ ":" +:+ quoted sample_id +:+ ","
  +:+ quoted "result" +:+ ":{" +:+ quoted "pong" +:+ ":true}}".

(** [{"id":"1700000000000123456","error":{"message":"boom"}}] *)
Definition boom_payload : string :=
  "{" +:+ quoted "id" +:+ ":" +:+ quoted sample_id +:+ ","
  +:+ quoted "error" +:+ ":{" +:+ quoted "message" +:+ ":" +:+ quoted "boom"
  +:+ "}}".

(** [{"id":"1700000000000123456","error":{"message":""}}] *)
Definition empty_message_payload : string :=
  "{" +:+ quoted "id" +:+ ":" +:+ quoted sample_id +:+ ","
  +:+ quoted "error" +:+ ":{" +:+ quoted "message" +:+ ":" +:+ quoted ""
  +:+ "}}".

(** [{"id":"42","result":null}] *)
Definition stray_payload : string :=
  "{" +:+ quoted "id" +:+ ":" +:+ quoted "42" +:+ ","
  +:+ quoted "result" +:+ ":null}".


(** [{"result":true}] *)
Definition anonymous_payload : string :=
  "{" +:+ quoted "result" +:+ ":true}".

Definition sample_parse (s : string) : result json :=
  if String.eqb s pong_payload then
    Ok (JObj [("id", JStr sample_id); ("result", JObj [("pong", JBool true)])])
  else if String.eqb s boom_payload then
    Ok (JObj [("id", JStr sample_id);
              ("error", JObj [("message", JStr "boom")])])
  else if String.eqb s empty_message_payload then
    Ok (JObj [("id", JStr sample_id);
              ("error", JObj [("message", JStr "")])])
  else if String.eqb s stray_payload then
    Ok (JObj [("id", JStr "42"); ("result", JNull)])
  else if String.eqb s anonymous_payload then
    Ok (JObj [("result", JBool true)])
  else if String.eqb s "null" then Ok JNull
  else Throw (SyntaxError "Unexpected token").

(** The text of a number that is an integer of at most 2^53 in
    magnitude. *)
Definition integer_text (x : float) : option string :=
  match FloatOps.Prim2SF x with
  | SpecFloat.S754_zero _ => Some "0"
  | SpecFloat.S754_finite negative m e =>
    let magnitude :=
      if 0 <=? e then Some (Z.pos m * 2 ^ e)
      else if Z.pos m mod 2 ^ (- e) =? 0 then Some (Z.pos m / 2 ^ (- e))
      else None in
    match magnitude with
    | Some z =>
      if z <=? 2 ^ 53
      then Some ((if negative then "-" else "") +:+ Z_to_string z)
      else None
    | None => None
    end
  | _ => None
  end.

Definition hex_digit (n : nat) : ascii :=
  nth n (list_ascii_of_string "0123456789abcdef") "0"%char.

(** A character inside a JSON string. *)
Definition json_escape (a : ascii) : string :=
  let n := nat_of_ascii a in
  if (n =? 34)%nat then "\" +:+ dq
  else if (n =? 92)%nat then "\\"
  else if (n =? 8)%nat then "\b"
  else if (n =? 9)%nat then "\t"
  else if (n =? 10)%nat then "\n"
  else if (n =? 12)%nat then "\f"
  else if (n =? 13)%nat then "\r"
  else if (n <? 32)%nat then
    "\u00" +:+ String (hex_digit (n / 16)) (String (hex_digit (n mod 16)) "")
  else String a "".

Definition json_quote (s : string) : string :=
  dq +:+ String.concat "" (map json_escape (list_ascii_of_string s)) +:+ dq.

(** [JSON.stringify] of a value: [NaN] and the infinities are written
    [null], as is, in this runtime, a number that is not an integer of at
    most 2^53 in magnitude (the examples use none). *)
Fixpoint sample_json_text (v : json) {struct v} : string :=
  match v with
  | JNull => "null"
  | JBool true => "true"
  | JBool false => "false"
  | JNum x => match integer_text x with Some s => s | None => "null" end
  | JStr s => json_quote s
  | JArr items =>
    "["
    +:+ (fix elements (l : list json) : string :=
           match l with
           | [] => ""
           | e :: rest =>
             sample_json_text e
             +:+ match rest with
                 | [] => ""
                 | _ :: _ => "," +:+ elements rest
                 end
           end) items
    +:+ "]"
  | JObj fields =>
    "{"
    +:+ (fix members (l : list (string * json)) : string :=
           match l with
           | [] => ""
           | (k, e) :: rest =>
             json_quote k +:+ ":" +:+ sample_json_text e
             +:+ match rest with
                 | [] => ""
                 | _ :: _ => "," +:+ members rest
                 end
           end) fields
    +:+ "}"
  end.

(** [JSON.stringify(commandObj)]. *)
Definition sample_stringify (o : commandObj) : result string :=
  Ok ("{" +:+ quoted "jsonrpc" +:+ ":" +:+ json_quote (jsonrpc o) +:+ ","
      +:+ quoted "method" +:+ ":" +:+ json_quote (method o) +:+ ","
      +:+ quoted "params" +:+ ":" +:+ sample_json_text (params o) +:+ ","
      +:+ quoted "id" +:+ ":" +:+ json_quote (id_ o) +:+ "}").

Definition sample_runtime : Runtime := {|
  utf8_encode := list_byte_of_string;
  utf8_decode := string_of_list_byte;
  JSON_parse := sample_parse;
  JSON_stringify := sample_stringify;
  nullish_read_error := fun _ k =>
    TypeError ("Cannot read properties of null (reading '" +:+ k +:+ "')");
  int32_range_error := fun _ => RangeError "value is out of range";
  socket_connect_error := fun port _ =>
    if (0 <=? port) && (port <=? 65535) then None
    else Some (RangeError ("Port should be >= 0 and < 65536. Received type number ("
                           +:+ Z_to_string port +:+ ")."))
|}.

(** ** The methods *)

Section Methods.
Context `{rt : Runtime}.

(** The body of the closure registered by [sendCommand]
    ([(responseData) => { try { ... } catch (error) { ... } }]): both
    [SyntaxError] and [TypeError] are instances of [Error], so the [catch]
    always takes its first branch. *)
Definition run_callback (cb : callback) (responseData : string) : list event :=
  match cb with
  | ResponseCallback p =>
    let attempt : result event :=
      do response <- JSON_parse responseData in
      do error <- get_prop (Some response) "error" in
      if truthy error then
        do message <- get_prop error "message" in
        Ok (Reject p (NewError (js_or message (JStr "Unknown error from Revit"))))
      else
        do value <- get_prop (Some response) "result" in
        Ok (Resolve p value)
    in
    match attempt with
    | Ok ev => [ev]
    | Throw e =>
      [Reject p (NewError (JStr ("Failed to parse response: " +:+ exn_message e)))]
    end
  end.

(** [this.responseCallbacks.get(requestId)]: the keys are strings, and a
    value that is not a string equals none of them. *)
Definition callbacks_get (m : gmap string callback) (requestId : json) : option callback :=
  match requestId with
  | JStr k => m !! k
  | _ => None
  end.

(** [this.responseCallbacks.delete(requestId)]. *)
Definition callbacks_delete (requestId : json) (m : gmap string callback) : gmap string callback :=
  match requestId with
  | JStr k => delete k m
  | _ => m
  end.

(** [const response = JSON.parse(responseData);
     const requestId = response.id || "default";] *)
Definition requestId_of (responseData : string) : result json :=
  do response <- JSON_parse responseData in
  do id <- get_prop (Some response) "id" in
  Ok (js_or id (JStr "default")).

Definition handleResponse (responseData : string) (c : conn) : conn * list event :=
  match requestId_of responseData with
  | Ok requestId =>
    match callbacks_get (responseCallbacks c) requestId with
    | Some cb =>
      (set_responseCallbacks (callbacks_delete requestId (responseCallbacks c)) c,
       run_callback cb responseData)
    | None => (c, [])
    end
  | Throw error =>
    (c, [ConsoleError [LogStr "Error parsing response:"; LogExn error];
         ConsoleError [LogStr "Response data:"; LogStr responseData]])
  end.

(** How one stage of the loop of [processData] ends: the loop goes on from
    [offset], or the method returns. *)
Inductive flow : Type :=
| Continue (offset : Z) (c : conn) (evs : list event)
| Return (c : conn) (evs : list event).

(** First stage of the loop body: the length prefix. *)
Definition read_prefix (data : list byte) (offset : Z) (c : conn) : flow :=
  match expectedLength c with
  | None =>
    let needed := 4 - buffer_length (lengthBuffer c) in
    let available := buffer_length data - offset in
    let toCopy := Z.min needed available in
    let c1 := set_lengthBuffer
                (lengthBuffer c ++ buffer_slice data offset (offset + toCopy)) c in
    let offset1 := offset + toCopy in
    match lengthBuffer c1 with
    | [b0; b1; b2; b3] =>
      let n := readInt32BE b0 b1 b2 b3 in
      let c2 := set_lengthBuffer [] (set_expectedLength (Some n) c1) in
      if (n <=? 0) || (MAX_MESSAGE_LENGTH <? n) then
        Return (resetBuffers c2)
               [ConsoleError [LogStr ("Invalid message length: " +:+ Z_to_string n)]]
      else Continue offset1 c2 []
    | _ => Continue offset1 c1 []
    end
  | Some _ => Continue offset c []
  end.

(** Second stage of the loop body: the message content. *)
Definition read_message (data : list byte) (offset : Z) (c : conn) : flow :=
  match expectedLength c with
  | Some expected =>
    let needed := expected - buffer_length (messageBuffer c) in
    let available := buffer_length data - offset in
    let toCopy := Z.min needed available in
    let c1 := set_messageBuffer
                (messageBuffer c ++ buffer_slice data offset (offset + toCopy)) c in
    let offset1 := offset + toCopy in
    if buffer_length (messageBuffer c1) =? expected then
      let jsonStr := utf8_decode (messageBuffer c1) in
      let '(c2, evs) := handleResponse jsonStr c1 in
      Continue offset1 (resetBuffers c2) (Emit jsonStr :: evs)
    else Continue offset1 c1 []
  | None => Continue offset c []
  end.

(** One pass through the body of [while (offset < data.length)]. *)
Definition loop_body (data : list byte) (offset : Z) (c : conn) : flow :=
  match read_prefix data offset c with
  | Continue offset1 c1 evs1 =>
    match read_message data offset1 c1 with
    | Continue offset2 c2 evs2 => Continue offset2 c2 (evs1 ++ evs2)
    | Return c2 evs2 => Return c2 (evs1 ++ evs2)
    end
  | Return c1 evs1 => Return c1 evs1
  end.

(** The loop of [processData], at most [fuel] passes: [None] when the
    passes run out before the loop condition fails. *)
Fixpoint processData_loop (fuel : nat) (data : list byte) (offset : Z) (c : conn)
  : option (conn * list event) :=
  if offset <? buffer_length data then
    match fuel with
    | O => None
    | S fuel' =>
      match loop_body data offset c with
      | Continue offset' c' evs =>
        match processData_loop fuel' data offset' c' with
        | Some (c'', evs') => Some (c'', evs ++ evs')
        | None => None
        end
      | Return c' evs => Some (c', evs)
      end
    end
  else Some (c, []).

(** [processData(data)], with one pass of the loop allowed per byte of
    [data] (a pass that starts between two calls consumes at least one
    byte, see [processData_inv]). *)
Definition processData (data : list byte) (c : conn) : option (conn * list event) :=
  processData_loop (length data) data 0 c.

(** The socket's ["data"] event firing once per chunk. *)
Fixpoint feed (chunks : list (list byte)) (c : conn) : option (conn * list event) :=
  match chunks with
  | [] => Some (c, [])
  | data :: rest =>
    match processData data c with
    | Some (c', evs) =>
      match feed rest c' with
      | Some (c'', evs') => Some (c'', evs ++ evs')
      | None => None
      end
    | None => None
    end
  end.

(** The payloads handed to [handleResponse], in order. *)
Fixpoint emitted (evs : list event) : list string :=
  match evs with
  | [] => []
  | Emit s :: rest => s :: emitted rest
  | _ :: rest => emitted rest
  end.

(** [connect()]: nothing when connected already, else
    [this.socket.connect(this.port, this.host)]; when that call throws, the
    exception is caught and logged.  Only the socket's ["connect"] event
    sets [isConnected]. *)
Definition connect (c : conn) : list event :=
  if isConnected c then []
  else
    match socket_connect_error (port c) (host c) with
    | None => [SocketConnect (port c) (host c)]
    | Some error =>
      [SocketConnect (port c) (host c);
       ConsoleError [LogStr "Failed to connect:"; LogExn error]]
    end.

(** [Date.now().toString() + Math.random().toString().substring(2, 8)],
    [now] being [Date.now()] and [random] the text
    [Math.random().toString()]. *)
Definition generateRequestId (now : Z) (random : string) : string :=
  Z_to_string now +:+ substring 2 6 random.

(** The bytes [sendCommand] writes for [commandString]: the 4-byte length
    prefix, then the message body. *)
Definition frame_of_string (commandString : string) : result (list byte) :=
  let messageBody := utf8_encode commandString in
  do lengthPrefix <- writeInt32BE (buffer_length messageBody) in
  Ok (lengthPrefix ++ messageBody).

Definition request_timer (requestId command : string) (p : promise) : timer :=
  mkTimer requestId command p.

(** [sendCommand(command, params)], [p] being the promise it returns, [now]
    and [random] what [generateRequestId] reads.  [params] undefined takes
    the default [{}].  An exception inside the executor's [try] rejects the
    promise with it. *)
Definition sendCommand (now : Z) (random : string) (p : promise)
    (command : string) (params : jsval) (c : conn) : conn * list event :=
  let params := match params with Some v => v | None => JObj [] end in
  let connecting := if isConnected c then [] else connect c in
  let requestId := generateRequestId now random in
  let commandObj := mkCommandObj "2.0" command params requestId in
  let c1 := set_responseCallbacks
              (<[requestId := ResponseCallback p]> (responseCallbacks c)) c in
  let sent : result (list byte) :=
    do commandString <- JSON_stringify commandObj in
    frame_of_string commandString in
  match sent with
  | Ok bytes =>
    (c1, connecting ++ [SocketWrite bytes;
                        SetTimeout (request_timer requestId command p) 120000])
  | Throw error => (c1, connecting ++ [Reject p (Rethrown error)])
  end.

(** The closure given to [setTimeout], when it fires. *)
Definition fire_timeout (t : timer) (c : conn) : conn * list event :=
  match responseCallbacks c !! timer_requestId t with
  | Some _ =>
    (set_responseCallbacks (delete (timer_requestId t) (responseCallbacks c)) c,
     [Reject (timer_promise t)
        (NewError (JStr ("Command timed out after 2 minutes: " +:+ timer_command t)))])
  | None => (c, [])
  end.

(** ** Vocabulary of the statements *)

(** A frame on the wire: the length of the payload as four big-endian
    bytes, then the payload. *)
Definition frame (payload : list byte) : list byte :=
  int32_bytes (buffer_length payload) ++ payload.

Definition frames (payloads : list (list byte)) : list byte :=
  concat (map frame payloads).

(** The rest of the chunk from [offset] on. *)
Definition rest_from (data : list byte) (offset : Z) : list byte :=
  drop (Z.to_nat offset) data.

(** A length the framer accepts. *)
Definition valid_length (n : Z) : Prop := 0 < n <= MAX_MESSAGE_LENGTH.

(** The three fields of the framer. *)
Definition framer_state (c : conn) : list byte * list byte * option Z :=
  (lengthBuffer c, messageBuffer c, expectedLength c).

(** The framer's fields once it has consumed the bytes [q] of a frame that
    is not complete yet. *)
Definition framer_after (q : list byte) : list byte * list byte * option Z :=
  match q with
  | b0 :: b1 :: b2 :: b3 :: m => ([], m, Some (readInt32BE b0 b1 b2 b3))
  | _ => (q, [], None)
  end.

(** [q] is the beginning of a frame of valid length, short of its end. *)
Definition in_frame (q : list byte) : Prop :=
  match q with
  | b0 :: b1 :: b2 :: b3 :: m =>
    valid_length (readInt32BE b0 b1 b2 b3)
    /\ buffer_length m < readInt32BE b0 b1 b2 b3
  | _ => True
  end.

(** The two-stage accumulator between two calls of [processData]: either
    no length is known, the length accumulator holds at most 3 bytes and
    the payload accumulator is empty; or a length is known, the length
    accumulator is empty and the payload accumulator is short of it. *)
Definition framer_inv (c : conn) : Prop :=
  match expectedLength c with
  | None => (length (lengthBuffer c) <= 3)%nat /\ messageBuffer c = []
  | Some expected =>
    lengthBuffer c = [] /\ buffer_length (messageBuffer c) < expected
  end.

(** Both accumulators empty and no length known. *)
Definition framer_idle (c : conn) : Prop :=
  framer_state c = ([], [], None).

Definition flow_conn (f : flow) : conn :=
  match f with
  | Continue _ c _ | Return c _ => c
  end.

Definition flow_events (f : flow) : list event :=
  match f with
  | Continue _ _ evs | Return _ evs => evs
  end.

(** The states of a connection object between two turns of the event
    loop: the constructor's, and what the socket's events (["connect"],
    ["close"] and ["error"] set [isConnected], as [disconnect()] does;
    ["data"] runs [processData]), [sendCommand] and the timers make of
    them. *)
Inductive reachable : conn -> Prop :=
| reach_new (h : string) (p : Z) : reachable (new_connection h p)
| reach_isConnected (b : bool) (c : conn) :
    reachable c -> reachable (set_isConnected b c)
| reach_data (data : list byte) (c c' : conn) (evs : list event) :
    reachable c -> processData data c = Some (c', evs) -> reachable c'
| reach_sendCommand (now : Z) (random : string) (p : promise)
    (command : string) (params : jsval) (c : conn) :
    reachable c -> reachable (fst (sendCommand now random p command params c))
| reach_timeout (t : timer) (c : conn) :
    reachable c -> reachable (fst (fire_timeout t c)).

(** Every registered identifier was made by [generateRequestId]. *)
Definition registry_generated (c : conn) : Prop :=
  forall (X : string) (cb : callback),
    responseCallbacks c !! X = Some cb ->
    exists now random, X = generateRequestId now random.

(** [payload] parses to a response that carries the identifier [X]. *)
Definition payload_for (X : string) (payload : string) : Prop :=
  exists response,
    JSON_parse payload = Ok response
    /\ get_prop (Some response) "id" = Ok (Some (JStr X)).

(** The calls of [resolve] and [reject] on promise [p] among [evs]. *)
Fixpoint settlements (p : promise) (evs : list event) : list event :=
  match evs with
  | [] => []
  | Resolve p' v :: rest =>
    if Nat.eqb p p' then Resolve p' v :: settlements p rest else settlements p rest
  | Reject p' r :: rest =>
    if Nat.eqb p p' then Reject p' r :: settlements p rest else settlements p rest
  | _ :: rest => settlements p rest
  end.

(** The calls of [resolve] and [reject] on any promise among [evs]. *)
Fixpoint all_settlements (evs : list event) : list event :=
  match evs with
  | [] => []
  | Resolve p v :: rest => Resolve p v :: all_settlements rest
  | Reject p r :: rest => Reject p r :: all_settlements rest
  | _ :: rest => all_settlements rest
  end.

(** The timers set, with their delays, among [evs]. *)
Fixpoint timers_set (evs : list event) : list (timer * Z) :=
  match evs with
  | [] => []
  | SetTimeout t ms :: rest => (t, ms) :: timers_set rest
  | _ :: rest => timers_set rest
  end.

(** [sendCommand(command, params)] made at [now] with [random] throws
    [error] inside its [try]: [JSON.stringify] throws it, or
    [writeInt32BE] does because the message is too long for a 32-bit
    length. *)
Definition send_throws (now : Z) (random command : string) (params : jsval)
    (error : js_exn) : Prop :=
  let obj := mkCommandObj "2.0" command
               (match params with Some v => v | None => JObj [] end)
               (generateRequestId now random) in
  JSON_stringify obj = Throw error
  \/ (exists commandString,
        JSON_stringify obj = Ok commandString
        /\ 2 ^ 31 - 1 < buffer_length (utf8_encode commandString)
        /\ error = int32_range_error (buffer_length (utf8_encode commandString))).

(** ** The socket's listeners and [disconnect] *)

(** What [disconnect] asks of the socket. *)
Inductive socket_call : Type :=
| SocketEnd.                               (* socket.end() *)

(** The listener of ["connect"]. *)
Definition on_connect (c : conn) : conn := set_isConnected true c.

(** The listener of ["data"]. *)
Definition on_data (data : list byte) (c : conn) : option (conn * list event) :=
  processData data c.

(** The listener of ["close"]. *)
Definition on_close (c : conn) : conn := set_isConnected false c.

(** The listener of ["error"], [error] being the value the socket passes. *)
Definition on_error (error : log_arg) (c : conn) : conn * list event :=
  (set_isConnected false c,
   [ConsoleError [LogStr "RevitClientConnection error:"; error]]).

(** [disconnect()]. *)
Definition disconnect (c : conn) : conn * list socket_call :=
  (set_isConnected false c, [SocketEnd]).

(** ** Vocabulary of the further statements *)

(** What [handleResponse] does, payload after payload: the reference the
    framer is compared with. *)
Fixpoint deliver (payloads : list string) (c : conn) : conn * list event :=
  match payloads with
  | [] => (c, [])
  | jsonStr :: rest =>
    let '(c1, evs1) := handleResponse jsonStr c in
    let '(c2, evs2) := deliver rest c1 in
    (c2, Emit jsonStr :: evs1 ++ evs2)
  end.

(** [c] with the three fields of the framer replaced. *)
Definition set_framer (f : list byte * list byte * option Z) (c : conn) : conn :=
  let '(lb, mb, expected) := f in
  mkConn (host c) (port c) (isConnected c) (responseCallbacks c) lb mb expected.

(** The fields the framer does not own. *)
Definition outside_framer (c : conn) : string * Z * bool * gmap string callback :=
  (host c, port c, isConnected c, responseCallbacks c).

(** The three ways a pass of the loop can end, whatever the state: it
    consumes bytes and calls nothing; it completes a payload, hands it to
    [handleResponse] and resets the buffers; or it logs an invalid length,
    resets the buffers and returns.  Nothing outside the framer changes
    but through [handleResponse]. *)
Inductive pass_shape (c : conn) : flow -> Prop :=
| pass_quiet (o' : Z) (c' : conn) :
    outside_framer c' = outside_framer c ->
    pass_shape c (Continue o' c' [])
| pass_delivers (o' : Z) (c1 : conn) (jsonStr : string) :
    outside_framer c1 = outside_framer c ->
    pass_shape c (Continue o' (resetBuffers (fst (handleResponse jsonStr c1)))
                           (Emit jsonStr :: snd (handleResponse jsonStr c1)))
| pass_rejects (c1 : conn) (n : Z) :
    outside_framer c1 = outside_framer c ->
    n <= 0 \/ MAX_MESSAGE_LENGTH < n ->
    pass_shape c (Return (resetBuffers c1)
                    [ConsoleError [LogStr ("Invalid message length: "
                                           +:+ Z_to_string n)]]).

End Methods.

(** * The tool registry ([registerTools])

    [registerTools] lists the directory of the tools, keeps the [.ts] and
    [.js] files other than [index] and [register], imports each one and
    calls the first function it exports whose name starts with
    [register].  The directory listing and the outcome of each dynamic
    [import] are inputs of the model; each [console.error] line is recorded
    by its kind and the values it shows. *)

(** [s.endsWith(suffix)] and [s.startsWith(prefix)]. *)
Definition endsWith (s suffix : string) : bool :=
  bool_decide (list_ascii_of_string suffix `suffix_of` list_ascii_of_string s).

Definition startsWith (s pre : string) : bool :=
  bool_decide (list_ascii_of_string pre `prefix_of` list_ascii_of_string s).

(** [file.replace(/\.(ts|js)$/, ".js")]. *)
Definition replace_extension (file : string) : string :=
  if endsWith file ".ts" || endsWith file ".js" then
    string_of_list_ascii
      (take (length (list_ascii_of_string file) - 3) (list_ascii_of_string file))
    +:+ ".js"
  else file.

(** The predicate given to [files.filter]. *)
Definition is_tool_file (file : string) : bool :=
  (endsWith file ".ts" || endsWith file ".js")
  && negb (String.eqb file "index.ts")
  && negb (String.eqb file "index.js")
  && negb (String.eqb file "register.ts")
  && negb (String.eqb file "register.js").

Definition toolFiles (files : list string) : list string :=
  List.filter is_tool_file files.

Definition importPath (file : string) : string :=
  "./" +:+ replace_extension file.

(** An export of a tool module: a function, with the text of the error it
    throws when it is called with the server if it throws, or another
    value. *)
Inductive export_value : Type :=
| ExportFunction (throws : option string)
| ExportValue (v : jsval).

(** A module namespace: its exports in the order of [Object.keys]. *)
Definition tool_module : Type := list (string * export_value).

Fixpoint module_get (key : string) (m : tool_module) : option export_value :=
  match m with
  | [] => None
  | (k, v) :: rest => if String.eqb key k then Some v else module_get key rest
  end.

(** The outcome of [await import(path)]: the module, or the text
    [error instanceof Error ? error.message : String(error)] of what it
    threw. *)
Inductive import_outcome : Type :=
| Imported (m : tool_module)
| ImportThrows (text : string).

Inductive register_event : Type :=
| LogRule                                   (* the line of = signs *)
| LogTitle                                  (* the title line *)
| Import (path : string)                    (* import(path) *)
| LogSkipped (file : string)                (* SKIP_REGISTER *)
| CallRegister (file name : string)         (* module[name](server) *)
| LogRegistered (file : string)
| LogWarning (file : string)                (* no register function *)
| LogError (file text : string)
| LogSummary (registered skipped : nat).

(** How the loop body ends for one file. *)
Inductive file_outcome : Type :=
| FileRegistered
| FileSkipped
| FileWarned
| FileFailed.

(** [Object.keys(module).find(key => key.startsWith("register") &&
    typeof module[key] === "function")]. *)
Fixpoint find_register (m : tool_module) : option (string * option string) :=
  match m with
  | [] => None
  | (key, ExportFunction throws) :: rest =>
    if startsWith key "register" then Some (key, throws) else find_register rest
  | (_, ExportValue _) :: rest => find_register rest
  end.

(** The body of the loop for [file]. *)
Definition register_file (import : string -> import_outcome) (file : string)
  : list register_event * file_outcome :=
  let path := importPath file in
  match import path with
  | ImportThrows text => ([Import path; LogError file text], FileFailed)
  | Imported m =>
    match module_get "SKIP_REGISTER" m with
    | Some (ExportValue (Some (JBool true))) =>
      ([Import path; LogSkipped file], FileSkipped)
    | _ =>
      match find_register m with
      | Some (name, None) =>
        ([Import path; CallRegister file name; LogRegistered file], FileRegistered)
      | Some (name, Some text) =>
        ([Import path; CallRegister file name; LogError file text], FileFailed)
      | None => ([Import path; LogWarning file], FileWarned)
      end
    end
  end.

(** The loop over the tool files.  [import i path] is how the [i]-th pass
    goes: what [await import(path)] gives there, and whether the register
    function throws when it is called there (a path imported twice gives
    the same module, whose register function may well throw the second
    time). *)
Fixpoint register_loop (import : nat -> string -> import_outcome) (i : nat)
    (files : list string) (registeredCount skippedCount : nat)
  : list register_event * nat * nat :=
  match files with
  | [] => ([], registeredCount, skippedCount)
  | file :: rest =>
    let '(evs, outcome) := register_file (import i) file in
    let registeredCount' :=
      match outcome with FileRegistered => S registeredCount | _ => registeredCount end in
    let skippedCount' :=
      match outcome with FileSkipped => S skippedCount | _ => skippedCount end in
    let '(evs', r, k) :=
      register_loop import (S i) rest registeredCount' skippedCount' in
    (evs ++ evs', r, k)
  end.

(** [registerTools(server)], [files] being [fs.readdirSync(__dirname)]:
    the events, then the two counters as the summary shows them. *)
Definition registerTools (files : list string)
    (import : nat -> string -> import_outcome)
  : list register_event * nat * nat :=
  let '(evs, r, k) := register_loop import 0 (toolFiles files) 0 0 in
  ([LogRule; LogTitle; LogRule] ++ evs ++ [LogRule; LogSummary r k; LogRule], r, k).

(** The paths imported, in order. *)
Fixpoint imports_of (evs : list register_event) : list string :=
  match evs with
  | [] => []
  | Import path :: rest => path :: imports_of rest
  | _ :: rest => imports_of rest
  end.

Definition outcome_eqb (a b : file_outcome) : bool :=
  match a, b with
  | FileRegistered, FileRegistered
  | FileSkipped, FileSkipped
  | FileWarned, FileWarned
  | FileFailed, FileFailed => true
  | _, _ => false
  end.

(** How the passes of the loop end for [files], the first being the
    [i]-th. *)
Fixpoint outcomes (import : nat -> string -> import_outcome) (i : nat)
    (files : list string) : list file_outcome :=
  match files with
  | [] => []
  | file :: rest =>
    snd (register_file (import i) file) :: outcomes import (S i) rest
  end.

(** How many of [l] are the outcome [o]. *)
Definition count_outcome (o : file_outcome) (l : list file_outcome) : nat :=
  length (List.filter (outcome_eqb o) l).

(** * The routing tools ([normalizeTask], [normalizeConduitTask] and their
      handlers)

    A task is any JavaScript value the MCP client sent ([z.any()]), that
    is a [jsval].  [Number(v)] and [String(v)] follow ECMAScript's
    [ToNumber] and [ToString].  An object or an array is first made a
    primitive ([ToPrimitive]): [valueOf] of [Object.prototype] gives the
    object back, so that it is [toString] that decides.  An object that
    came from JSON has [Object.prototype.toString], which gives
    ["[object Object]"], unless it has a property [toString] of its own:
    that one is not a function, and the conversion throws a [TypeError].
    An array has [Array.prototype.toString], which joins the strings of
    its elements.  The parts that parse and print numbers, and the
    [TypeError], are the class [Coercions]. *)

Class Coercions : Type := {
  (** [Number(s)] for a string [s] *)
  StringToNumber : string -> float;
  (** [String(x)] for a number [x] *)
  NumberToString : float -> string;
  (** the [TypeError] of [ToPrimitive] on an object none of whose
      [valueOf] and [toString] gives a primitive *)
  primitive_error : js_exn
}.

(** What a tool function throws: an [Error] it made itself, or an
    exception of the runtime. *)
Inductive thrown : Type :=
| ErrorThrown (message : string)
| ExnThrown (e : js_exn).

(** [error instanceof Error ? error.message : String(error)]: both kinds
    are instances of [Error]. *)
Definition thrown_message (t : thrown) : string :=
  match t with
  | ErrorThrown m => m
  | ExnThrown e => exn_message e
  end.

Inductive attempt (A : Type) : Type :=
| Done (a : A)
| Raise (t : thrown).
Arguments Done {A} a.
Arguments Raise {A} t.

Definition attempt_bind {A B : Type} (a : attempt A) (k : A -> attempt B)
  : attempt B :=
  match a with
  | Done x => k x
  | Raise t => Raise t
  end.

Notation "'run' x <- a 'in' k" := (attempt_bind a (fun x => k))
  (at level 10, x name, a at level 100, k at level 200, only parsing).

Definition lift_result {A : Type} (r : result A) : attempt A :=
  match r with
  | Ok a => Done a
  | Throw e => Raise (ExnThrown e)
  end.

(** [typeof v]. *)
Definition typeof (v : jsval) : string :=
  match v with
  | None => "undefined"
  | Some JNull => "object"
  | Some (JBool _) => "boolean"
  | Some (JNum _) => "number"
  | Some (JStr _) => "string"
  | Some (JArr _) => "object"
  | Some (JObj _) => "object"
  end.

(** [v == null]: [null] or [undefined]. *)
Definition nullish (v : jsval) : bool :=
  match v with
  | None | Some JNull => true
  | _ => false
  end.

(** [String(v)] for a value [v] of JSON.  In an array, [join] writes
    [null] as the empty string. *)
Fixpoint ToString_json `{Coercions} (v : json) {struct v} : result string :=
  match v with
  | JNull => Ok "null"
  | JBool true => Ok "true"
  | JBool false => Ok "false"
  | JNum x => Ok (NumberToString x)
  | JStr s => Ok s
  | JArr items =>
    (fix join (l : list json) : result string :=
       match l with
       | [] => Ok ""
       | e :: rest =>
         do s <- match e with
                 | JNull => Ok ""
                 | _ => ToString_json e
                 end in
         match rest with
         | [] => Ok s
         | _ :: _ => do r <- join rest in Ok (s +:+ "," +:+ r)
         end
       end) items
  | JObj fields =>
    match own_property "toString" fields with
    | Some _ => Throw primitive_error
    | None => Ok "[object Object]"
    end
  end.

Definition ToString `{Coercions} (v : jsval) : result string :=
  match v with
  | None => Ok "undefined"
  | Some w => ToString_json w
  end.

(** [Number(v)]: an array or an object is converted through its
    string. *)
Definition ToNumber `{Coercions} (v : jsval) : result float :=
  match v with
  | None => Ok PrimFloat.nan
  | Some JNull => Ok PrimFloat.zero
  | Some (JBool true) => Ok PrimFloat.one
  | Some (JBool false) => Ok PrimFloat.zero
  | Some (JNum x) => Ok x
  | Some (JStr s) => Ok (StringToNumber s)
  | Some (JArr items) =>
    do s <- ToString_json (JArr items) in Ok (StringToNumber s)
  | Some (JObj fields) =>
    do s <- ToString_json (JObj fields) in Ok (StringToNumber s)
  end.

Section Tasks.
Context `{rt : Runtime} `{co : Coercions}.

(** [v.k1 ?? v.k2 ?? ... ?? v.kn]: the first property that is neither
    [null] nor [undefined], else the last one read. *)
Fixpoint coalesce_props (v : jsval) (keys : list string) : attempt jsval :=
  match keys with
  | [] => Done None
  | [k] => lift_result (get_prop v k)
  | k :: rest =>
    run x <- lift_result (get_prop v k) in
    if nullish x then coalesce_props v rest else Done x
  end.

(** [v != null ? { key: Number(v) } : {}], as the properties it adds. *)
Definition number_entry (key : string) (v : jsval)
  : attempt (list (string * json)) :=
  if nullish v then Done []
  else run n <- lift_result (ToNumber v) in Done [(key, JNum n)].

Definition string_entry (key : string) (v : jsval)
  : attempt (list (string * json)) :=
  if nullish v then Done []
  else run s <- lift_result (ToString v) in Done [(key, JStr s)].

Fixpoint map_attempt {A B : Type} (f : A -> attempt B) (l : list A)
  : attempt (list B) :=
  match l with
  | [] => Done []
  | a :: rest =>
    run b <- f a in
    run bs <- map_attempt f rest in
    Done (b :: bs)
  end.

(** The waypoint [{ x: Number(p.x ?? p.X), y: ..., z: ... }] of
    [normalizeTask], with the keys [kx], [ky], [kz] of the result. *)
Definition waypoint_of (kx ky kz : string) (p : json) : attempt json :=
  run x <- coalesce_props (Some p) ["x"; "X"] in
  run nx <- lift_result (ToNumber x) in
  run y <- coalesce_props (Some p) ["y"; "Y"] in
  run ny <- lift_result (ToNumber y) in
  run z <- coalesce_props (Some p) ["z"; "Z"] in
  run nz <- lift_result (ToNumber z) in
  Done (JObj [(kx, JNum nx); (ky, JNum ny); (kz, JNum nz)]).

(** [Array.isArray(rawWps) ? rawWps.map(...) : []]. *)
Definition waypoints_of (kx ky kz : string) (rawWps : jsval)
  : attempt (list json) :=
  match rawWps with
  | Some (JArr items) => map_attempt (waypoint_of kx ky kz) items
  | _ => Done []
  end.

(** [a ?? b] with [b] defined. *)
Definition js_coalesce (a : jsval) (b : json) : jsval :=
  if nullish a then Some b else a.

(** [normalizeTask(input)] of the pipe routing tool. *)
Definition normalizeTask (input : jsval) : attempt json :=
  if negb (truthy input) || negb (String.eqb (typeof input) "object") then
    Raise (ErrorThrown "Invalid task payload.")
  else
    run startElementId <-
      coalesce_props input ["startElementId"; "StartElementId"; "start_element_id"] in
    run endElementId <-
      coalesce_props input ["endElementId"; "EndElementId"; "end_element_id"] in
    match startElementId, endElementId with
    | Some (JNum startId), Some (JNum endId) =>
      run rawWps <-
        coalesce_props input ["waypoints"; "Waypoints"; "way_points"; "WAYPOINTS"] in
      run waypoints <- waypoints_of "x" "y" "z" (js_coalesce rawWps (JArr [])) in
      run systemTypeId <- coalesce_props input ["systemTypeId"; "SystemTypeId"] in
      run pipeTypeId <- coalesce_props input ["pipeTypeId"; "PipeTypeId"] in
      run levelId <- coalesce_props input ["levelId"; "LevelId"] in
      run diameter_mm <-
        coalesce_props input ["diameter_mm"; "Diameter_mm"; "DiameterMM"] in
      run minSegmentLength_mm <-
        coalesce_props input
          ["minSegmentLength_mm"; "MinSegmentLength_mm"; "MinSegmentLengthMM"] in
      run tolerance_mm <-
        coalesce_props input ["tolerance_mm"; "Tolerance_mm"; "ToleranceMM"] in
      run angleTolerance_deg <-
        coalesce_props input
          ["angleTolerance_deg"; "AngleTolerance_deg"; "AngleToleranceDEG"] in
      run routingPreference <-
        coalesce_props input
          ["routingPreference"; "RoutingPreference"; "routing_preference"] in
      run e1 <- number_entry "systemTypeId" systemTypeId in
      run e2 <- number_entry "pipeTypeId" pipeTypeId in
      run e3 <- number_entry "levelId" levelId in
      run e4 <- number_entry "diameter_mm" diameter_mm in
      run e5 <- number_entry "minSegmentLength_mm" minSegmentLength_mm in
      run e6 <- number_entry "tolerance_mm" tolerance_mm in
      run e7 <- number_entry "angleTolerance_deg" angleTolerance_deg in
      run e8 <- string_entry "routingPreference" routingPreference in
      Done (JObj ([("startElementId", JNum startId);
                   ("endElementId", JNum endId);
                   ("waypoints", JArr waypoints)]
                  ++ e1 ++ e2 ++ e3 ++ e4 ++ e5 ++ e6 ++ e7 ++ e8))
    | _, _ =>
      Raise (ErrorThrown "Task requires startElementId and endElementId (number).")
    end.

(** The [Override] block of [normalizeConduitTask]: the object [o] when
    it has a key, else nothing. *)
Definition conduit_override (overrideRaw : jsval) : attempt (list (string * json)) :=
  if truthy overrideRaw && String.eqb (typeof overrideRaw) "object" then
    run conduitTypeId <- coalesce_props overrideRaw ["conduitTypeId"; "ConduitTypeId"] in
    run levelId <- coalesce_props overrideRaw ["levelId"; "LevelId"] in
    run oDiameterMm <-
      coalesce_props overrideRaw
        ["diameterMm"; "DiameterMm"; "diameter_mm"; "Diameter_mm"; "DiameterMM"] in
    run o1 <- number_entry "ConduitTypeId" conduitTypeId in
    run o2 <- number_entry "LevelId" levelId in
    run o3 <- number_entry "DiameterMm" oDiameterMm in
    let o := o1 ++ o2 ++ o3 in
    if (0 <? length o)%nat then Done [("Override", JObj o)] else Done []
  else Done [].

(** [normalizeConduitTask(input)] of the conduit routing tool. *)
Definition normalizeConduitTask (input : jsval) : attempt json :=
  if negb (truthy input) || negb (String.eqb (typeof input) "object") then
    Raise (ErrorThrown "Invalid task payload.")
  else
    run startElementId <-
      coalesce_props input ["startElementId"; "StartElementId"; "start_element_id"] in
    run endElementId <-
      coalesce_props input ["endElementId"; "EndElementId"; "end_element_id"] in
    match startElementId, endElementId with
    | Some (JNum startId), Some (JNum endId) =>
      run rawWps <-
        coalesce_props input ["waypoints"; "Waypoints"; "way_points"; "WAYPOINTS"] in
      run waypoints <- waypoints_of "X" "Y" "Z" (js_coalesce rawWps (JArr [])) in
      run minSegmentLengthMm <-
        coalesce_props input
          ["minSegmentLengthMm"; "MinSegmentLengthMm"; "minSegmentLength_mm";
           "MinSegmentLength_mm"; "MinSegmentLengthMM"] in
      run trayOffsetMm <-
        coalesce_props input
          ["trayOffsetMm"; "TrayOffsetMm"; "tray_offset_mm"; "TrayOffset_mm";
           "TrayOffsetMM"] in
      run toleranceMm <-
        coalesce_props input
          ["toleranceMm"; "ToleranceMm"; "tolerance_mm"; "Tolerance_mm";
           "ToleranceMM"] in
      run angleToleranceDeg <-
        coalesce_props input
          ["toleranceDeg"; "ToleranceDeg"; "angleTolerance_deg";
           "AngleTolerance_deg"; "AngleToleranceDEG"] in
      run diameterMm <-
        coalesce_props input
          ["conduitDiameterMm"; "ConduitDiameterMm"; "diameter_mm"; "Diameter_mm";
           "DiameterMM"] in
      run overrideRaw <- coalesce_props input ["override"; "Override"] in
      run override <- conduit_override overrideRaw in
      run nStart <- lift_result (ToNumber (Some (JNum startId))) in
      run nEnd <- lift_result (ToNumber (Some (JNum endId))) in
      run e1 <- number_entry "MinSegmentLengthMm" minSegmentLengthMm in
      run e2 <- number_entry "TrayOffsetMm" trayOffsetMm in
      run e3 <- number_entry "ToleranceMm" toleranceMm in
      run e4 <- number_entry "ToleranceDeg" angleToleranceDeg in
      run e5 <- number_entry "ConduitDiameterMm" diameterMm in
      Done (JObj ([("StartElementId", JNum nStart); ("EndElementId", JNum nEnd)]
                  ++ (if (0 <? length waypoints)%nat
                      then [("Waypoints", JArr waypoints)] else [])
                  ++ e1 ++ e2 ++ e3 ++ e4 ++ e5 ++ override))
    | _, _ =>
      Raise (ErrorThrown "Task requires startElementId and endElementId (number).")
    end.

(** ** The handlers of the two routing tools *)

(** The arguments of a routing tool, as its schema types them:
    [task: z.any().optional()], [tasks: z.array(z.any()).optional()],
    [parallel] and [stopOnError: z.boolean().optional()]. *)
Record batch_args : Type := mkBatchArgs {
  arg_task : jsval;
  arg_tasks : option (list json);
  arg_parallel : option bool;
  arg_stopOnError : option bool
}.

(** An element of [results]: [{ index, ok: true, response }] or
    [{ index, ok: false, error }]. *)
Inductive batch_entry : Type :=
| EntryOk (index : nat) (response : jsval)
| EntryFailed (index : nat) (error : string).

Definition entry_ok (e : batch_entry) : bool :=
  match e with
  | EntryOk _ _ => true
  | EntryFailed _ _ => false
  end.

Definition entry_index (e : batch_entry) : nat :=
  match e with
  | EntryOk i _ | EntryFailed i _ => i
  end.

(** What the handler returns: the report that it serialises as the text
    of its answer ([{ summary: { total, succeeded, failed }, results }]),
    or the text of a failure. *)
Inductive tool_result : Type :=
| Report (total succeeded failed : nat) (results : list batch_entry)
| Failure (text : string).

(** [execOne] is its own input: [exec i task] is how the command for the
    task of index [i] ends, with its response or with the text
    [e instanceof Error ? e.message : String(e)] of its rejection. *)
Definition executor : Type := nat -> json -> jsval + string.

(** A call [execOne(task)], which sends the command of the task of index
    [i] to Revit. *)
Definition exec_call : Type := nat * json.

(** The [for] loop of the sequential branch, from index [i]. *)
Fixpoint run_sequential (exec : executor) (stopOnError : bool) (i : nat)
    (tasks : list json) : list batch_entry :=
  match tasks with
  | [] => []
  | task :: rest =>
    match exec i task with
    | inl resp => EntryOk i resp :: run_sequential exec stopOnError (S i) rest
    | inr msg =>
      EntryFailed i msg
      :: (if stopOnError then [] else run_sequential exec stopOnError (S i) rest)
    end
  end.

(** The calls of [execOne] that loop makes. *)
Fixpoint calls_sequential (exec : executor) (stopOnError : bool) (i : nat)
    (tasks : list json) : list exec_call :=
  match tasks with
  | [] => []
  | task :: rest =>
    (i, task)
    :: match exec i task with
       | inl _ => calls_sequential exec stopOnError (S i) rest
       | inr _ =>
         if stopOnError then [] else calls_sequential exec stopOnError (S i) rest
       end
  end.

(** [Promise.all(tasks.map((t, i) => execOne(t).then(...).catch(...)))],
    from index [i]. *)
Fixpoint run_parallel (exec : executor) (i : nat) (tasks : list json)
  : list batch_entry :=
  match tasks with
  | [] => []
  | task :: rest =>
    match exec i task with
    | inl resp => EntryOk i resp
    | inr msg => EntryFailed i msg
    end :: run_parallel exec (S i) rest
  end.

(** The calls of [execOne] that [tasks.map] makes: one for every task. *)
Fixpoint calls_parallel (i : nat) (tasks : list json) : list exec_call :=
  match tasks with
  | [] => []
  | task :: rest => (i, task) :: calls_parallel (S i) rest
  end.

(** [args?.tasks ?? (args?.task ? [args.task] : [])]. *)
Definition rawTasks_of (args : batch_args) : list json :=
  match arg_tasks args with
  | Some tasks => tasks
  | None =>
    match arg_task args with
    | Some task => if truthy (Some task) then [task] else []
    | None => []
    end
  end.

(** The handler of a routing tool, [normalize] being its normaliser,
    [provide] the message it throws when there is no task and [prefix]
    what it puts before the message of a failure: what it returns, and the
    calls of [execOne] it has made. *)
Definition route_handler_run (normalize : jsval -> attempt json)
    (provide prefix : string) (exec : executor) (args : batch_args)
  : tool_result * list exec_call :=
  let rawTasks := rawTasks_of args in
  let body : attempt (tool_result * list exec_call) :=
    if (length rawTasks =? 0)%nat then Raise (ErrorThrown provide)
    else
      run tasks <- map_attempt (fun task => normalize (Some task)) rawTasks in
      let parallel := match arg_parallel args with Some b => b | None => false end in
      let stopOnError :=
        match arg_stopOnError args with Some b => b | None => false end in
      let results :=
        if parallel then run_parallel exec 0 tasks
        else run_sequential exec stopOnError 0 tasks in
      let calls :=
        if parallel then calls_parallel 0 tasks
        else calls_sequential exec stopOnError 0 tasks in
      Done (Report (length tasks)
                   (length (List.filter entry_ok results))
                   (length (List.filter (fun r => negb (entry_ok r)) results))
                   results,
            calls)
  in
  match body with
  | Done r => r
  | Raise t => (Failure (prefix +:+ thrown_message t), [])
  end.

(** What the handler returns. *)
Definition route_handler (normalize : jsval -> attempt json)
    (provide prefix : string) (exec : executor) (args : batch_args) : tool_result :=
  fst (route_handler_run normalize provide prefix exec args).

(** The handler of [route_pipes_by_waypoints] (single or batch). *)
Definition route_pipes_handler : executor -> batch_args -> tool_result :=
  route_handler normalizeTask
    "Provide either { task: {...} } or { tasks: [{...}, ...] }."
    "Route pipes (single/batch) failed: ".

(** The handler of [route_conduits_by_waypoints]. *)
Definition route_conduits_handler : executor -> batch_args -> tool_result :=
  route_handler normalizeConduitTask
    "Provide either { task } or { tasks }."
    "Route conduits failed: ".

(** ** Vocabulary of the statements about tasks *)

(** [fields.k1 ?? fields.k2 ?? ...] on the own properties of an object. *)
Fixpoint coalesce_own (fields : list (string * json)) (keys : list string)
  : jsval :=
  match keys with
  | [] => None
  | [k] => own_property k fields
  | k :: rest =>
    if nullish (own_property k fields) then coalesce_own fields rest
    else own_property k fields
  end.

(** The own properties of a task: those of an object, none for an
    array. *)
Definition task_fields (input : jsval) : list (string * json) :=
  match input with
  | Some (JObj fields) => fields
  | _ => []
  end.

(** Arrays and objects: the values that pass the first test of a
    normaliser. *)
Definition is_object (input : jsval) : bool :=
  match input with
  | Some (JArr _) | Some (JObj _) => true
  | _ => false
  end.

(** The start and end identifiers of a task, when both are numbers. *)
Definition task_ids (input : jsval) : option (float * float) :=
  match coalesce_own (task_fields input)
          ["startElementId"; "StartElementId"; "start_element_id"],
        coalesce_own (task_fields input)
          ["endElementId"; "EndElementId"; "end_element_id"] with
  | Some (JNum s), Some (JNum e) => Some (s, e)
  | _, _ => None
  end.

(** The elements of the waypoints of a task, when they are an array. *)
Definition task_waypoints (input : jsval) : list json :=
  match coalesce_own (task_fields input)
          ["waypoints"; "Waypoints"; "way_points"; "WAYPOINTS"] with
  | Some (JArr items) => items
  | _ => []
  end.

Definition optional_number (key : string) (x : option float)
  : list (string * json) :=
  match x with
  | Some n => [(key, JNum n)]
  | None => []
  end.

Definition optional_string (key : string) (x : option string)
  : list (string * json) :=
  match x with
  | Some s => [(key, JStr s)]
  | None => []
  end.

Definition point_object (kx ky kz : string) (p : float * float * float) : json :=
  let '(x, y, z) := p in JObj [(kx, JNum x); (ky, JNum y); (kz, JNum z)].

(** A pipe routing task as the Revit command expects it. *)
Record pipe_task : Type := mkPipeTask {
  pt_startElementId : float;
  pt_endElementId : float;
  pt_waypoints : list (float * float * float);
  pt_systemTypeId : option float;
  pt_pipeTypeId : option float;
  pt_levelId : option float;
  pt_diameter_mm : option float;
  pt_minSegmentLength_mm : option float;
  pt_tolerance_mm : option float;
  pt_angleTolerance_deg : option float;
  pt_routingPreference : option string
}.

Definition pipe_task_object (t : pipe_task) : json :=
  JObj ([("startElementId", JNum (pt_startElementId t));
         ("endElementId", JNum (pt_endElementId t));
         ("waypoints", JArr (map (point_object "x" "y" "z") (pt_waypoints t)))]
        ++ optional_number "systemTypeId" (pt_systemTypeId t)
        ++ optional_number "pipeTypeId" (pt_pipeTypeId t)
        ++ optional_number "levelId" (pt_levelId t)
        ++ optional_number "diameter_mm" (pt_diameter_mm t)
        ++ optional_number "minSegmentLength_mm" (pt_minSegmentLength_mm t)
        ++ optional_number "tolerance_mm" (pt_tolerance_mm t)
        ++ optional_number "angleTolerance_deg" (pt_angleTolerance_deg t)
        ++ optional_string "routingPreference" (pt_routingPreference t)).

(** A conduit routing task as the Revit command expects it
    ([ConduitRouteTaskInfo]). *)
Record conduit_task : Type := mkConduitTask {
  ct_StartElementId : float;
  ct_EndElementId : float;
  ct_Waypoints : list (float * float * float);
  ct_MinSegmentLengthMm : option float;
  ct_TrayOffsetMm : option float;
  ct_ToleranceMm : option float;
  ct_ToleranceDeg : option float;
  ct_ConduitDiameterMm : option float;
  ct_OverrideConduitTypeId : option float;
  ct_OverrideLevelId : option float;
  ct_OverrideDiameterMm : option float
}.

(** The properties of the [Override] block of a conduit task. *)
Definition conduit_override_fields (t : conduit_task) : list (string * json) :=
  optional_number "ConduitTypeId" (ct_OverrideConduitTypeId t)
  ++ optional_number "LevelId" (ct_OverrideLevelId t)
  ++ optional_number "DiameterMm" (ct_OverrideDiameterMm t).

Definition conduit_task_object (t : conduit_task) : json :=
  JObj ([("StartElementId", JNum (ct_StartElementId t));
         ("EndElementId", JNum (ct_EndElementId t))]
        ++ match ct_Waypoints t with
           | [] => []
           | _ =>
             [("Waypoints", JArr (map (point_object "X" "Y" "Z") (ct_Waypoints t)))]
           end
        ++ optional_number "MinSegmentLengthMm" (ct_MinSegmentLengthMm t)
        ++ optional_number "TrayOffsetMm" (ct_TrayOffsetMm t)
        ++ optional_number "ToleranceMm" (ct_ToleranceMm t)
        ++ optional_number "ToleranceDeg" (ct_ToleranceDeg t)
        ++ optional_number "ConduitDiameterMm" (ct_ConduitDiameterMm t)
        ++ match conduit_override_fields t with
           | [] => []
           | _ => [("Override", JObj (conduit_override_fields t))]
           end).

(** The values [Number] and [String] convert without throwing: all but
    an object with a property [toString] of its own, and but an array
    that holds, at any depth, such an object. *)
Fixpoint convertible_json (v : json) : bool :=
  match v with
  | JArr items => forallb convertible_json items
  | JObj fields =>
    match own_property "toString" fields with
    | Some _ => false
    | None => true
    end
  | _ => true
  end.

Definition convertible (v : jsval) : bool :=
  match v with
  | None => true
  | Some w => convertible_json w
  end.

(** The number and the string of a convertible value. *)
Definition to_number (v : jsval) : float :=
  match ToNumber v with
  | Ok x => x
  | Throw _ => PrimFloat.nan
  end.

Definition to_string (v : jsval) : string :=
  match ToString v with
  | Ok s => s
  | Throw _ => EmptyString
  end.

(** [v != null ? Number(v) : absent] and its analogue for [String]. *)
Definition number_of (v : jsval) : option float :=
  if nullish v then None else Some (to_number v).

Definition string_of (v : jsval) : option string :=
  if nullish v then None else Some (to_string v).

(** The coordinates read from a waypoint that is not [null]. *)
Definition point_of (p : json) : float * float * float :=
  let fields := task_fields (Some p) in
  (to_number (coalesce_own fields ["x"; "X"]),
   to_number (coalesce_own fields ["y"; "Y"]),
   to_number (coalesce_own fields ["z"; "Z"])).

(** A waypoint the normalisers accept: not [null], its three coordinates
    convertible. *)
Definition waypoint_ok (p : json) : bool :=
  match p with
  | JNull => false
  | _ =>
    let fields := task_fields (Some p) in
    convertible (coalesce_own fields ["x"; "X"])
    && convertible (coalesce_own fields ["y"; "Y"])
    && convertible (coalesce_own fields ["z"; "Z"])
  end.

(** The optional fields [normalizeTask] converts, each by the keys it is
    read under. *)
Definition pipe_optional_keys : list (list string) :=
  [["systemTypeId"; "SystemTypeId"];
   ["pipeTypeId"; "PipeTypeId"];
   ["levelId"; "LevelId"];
   ["diameter_mm"; "Diameter_mm"; "DiameterMM"];
   ["minSegmentLength_mm"; "MinSegmentLength_mm"; "MinSegmentLengthMM"];
   ["tolerance_mm"; "Tolerance_mm"; "ToleranceMM"];
   ["angleTolerance_deg"; "AngleTolerance_deg"; "AngleToleranceDEG"];
   ["routingPreference"; "RoutingPreference"; "routing_preference"]].

(** Those of [normalizeConduitTask], and those of its [override]. *)
Definition conduit_optional_keys : list (list string) :=
  [["minSegmentLengthMm"; "MinSegmentLengthMm"; "minSegmentLength_mm";
    "MinSegmentLength_mm"; "MinSegmentLengthMM"];
   ["trayOffsetMm"; "TrayOffsetMm"; "tray_offset_mm"; "TrayOffset_mm";
    "TrayOffsetMM"];
   ["toleranceMm"; "ToleranceMm"; "tolerance_mm"; "Tolerance_mm"; "ToleranceMM"];
   ["toleranceDeg"; "ToleranceDeg"; "angleTolerance_deg"; "AngleTolerance_deg";
    "AngleToleranceDEG"];
   ["conduitDiameterMm"; "ConduitDiameterMm"; "diameter_mm"; "Diameter_mm";
    "DiameterMM"]].

Definition override_keys : list (list string) :=
  [["conduitTypeId"; "ConduitTypeId"];
   ["levelId"; "LevelId"];
   ["diameterMm"; "DiameterMm"; "diameter_mm"; "Diameter_mm"; "DiameterMM"]].

(** Every field read under one of [keys] is convertible. *)
Definition fields_convertible (fields : list (string * json))
    (keys : list (list string)) : bool :=
  forallb (fun ks => convertible (coalesce_own fields ks)) keys.

(** The conversions of [normalizeTask] on [input] all succeed: no
    waypoint is [null], and the coordinates and the optional fields are
    convertible. *)
Definition pipe_convertible (input : jsval) : bool :=
  forallb waypoint_ok (task_waypoints input)
  && fields_convertible (task_fields input) pipe_optional_keys.

(** The same for [normalizeConduitTask], whose [override] counts only
    when it is an object. *)
Definition conduit_convertible (input : jsval) : bool :=
  forallb waypoint_ok (task_waypoints input)
  && fields_convertible
       (task_fields (coalesce_own (task_fields input) ["override"; "Override"]))
       override_keys
  && fields_convertible (task_fields input) conduit_optional_keys.

(** The pipe task read from a payload whose identifiers are [s] and
    [e]. *)
Definition pipe_task_of (input : jsval) (s e : float) : pipe_task :=
  let fields := task_fields input in
  {| pt_startElementId := s;
     pt_endElementId := e;
     pt_waypoints := map point_of (task_waypoints input);
     pt_systemTypeId :=
       number_of (coalesce_own fields ["systemTypeId"; "SystemTypeId"]);
     pt_pipeTypeId := number_of (coalesce_own fields ["pipeTypeId"; "PipeTypeId"]);
     pt_levelId := number_of (coalesce_own fields ["levelId"; "LevelId"]);
     pt_diameter_mm :=
       number_of (coalesce_own fields ["diameter_mm"; "Diameter_mm"; "DiameterMM"]);
     pt_minSegmentLength_mm :=
       number_of (coalesce_own fields
         ["minSegmentLength_mm"; "MinSegmentLength_mm"; "MinSegmentLengthMM"]);
     pt_tolerance_mm :=
       number_of (coalesce_own fields ["tolerance_mm"; "Tolerance_mm"; "ToleranceMM"]);
     pt_angleTolerance_deg :=
       number_of (coalesce_own fields
         ["angleTolerance_deg"; "AngleTolerance_deg"; "AngleToleranceDEG"]);
     pt_routingPreference :=
       string_of (coalesce_own fields
         ["routingPreference"; "RoutingPreference"; "routing_preference"]) |}.

(** The conduit task read from a payload whose identifiers are [s] and
    [e]. *)
Definition conduit_task_of (input : jsval) (s e : float) : conduit_task :=
  let fields := task_fields input in
  let override := task_fields (coalesce_own fields ["override"; "Override"]) in
  {| ct_StartElementId := s;
     ct_EndElementId := e;
     ct_Waypoints := map point_of (task_waypoints input);
     ct_MinSegmentLengthMm :=
       number_of (coalesce_own fields
         ["minSegmentLengthMm"; "MinSegmentLengthMm"; "minSegmentLength_mm";
          "MinSegmentLength_mm"; "MinSegmentLengthMM"]);
     ct_TrayOffsetMm :=
       number_of (coalesce_own fields
         ["trayOffsetMm"; "TrayOffsetMm"; "tray_offset_mm"; "TrayOffset_mm";
          "TrayOffsetMM"]);
     ct_ToleranceMm :=
       number_of (coalesce_own fields
         ["toleranceMm"; "ToleranceMm"; "tolerance_mm"; "Tolerance_mm";
          "ToleranceMM"]);
     ct_ToleranceDeg :=
       number_of (coalesce_own fields
         ["toleranceDeg"; "ToleranceDeg"; "angleTolerance_deg";
          "AngleTolerance_deg"; "AngleToleranceDEG"]);
     ct_ConduitDiameterMm :=
       number_of (coalesce_own fields
         ["conduitDiameterMm"; "ConduitDiameterMm"; "diameter_mm"; "Diameter_mm";
          "DiameterMM"]);
     ct_OverrideConduitTypeId :=
       number_of (coalesce_own override ["conduitTypeId"; "ConduitTypeId"]);
     ct_OverrideLevelId := number_of (coalesce_own override ["levelId"; "LevelId"]);
     ct_OverrideDiameterMm :=
       number_of (coalesce_own override
         ["diameterMm"; "DiameterMm"; "diameter_mm"; "Diameter_mm"; "DiameterMM"]) |}.

(** The two messages of a normaliser's own errors. *)
Definition invalid_payload : thrown := ErrorThrown "Invalid task payload.".

Definition ids_required : thrown :=
  ErrorThrown "Task requires startElementId and endElementId (number).".

(** What reading [p.x] of a [null] waypoint throws. *)
Definition null_waypoint : thrown :=
  ExnThrown (nullish_read_error (Some JNull) "x").

(** What [Number] and [String] throw on a value that is not
    convertible. *)
Definition conversion_error : thrown := ExnThrown primitive_error.

End Tasks.

(** ** States for the examples *)

(** A connection just constructed. *)
Definition sample_conn : conn := new_connection "localhost" 8080.

(** The same after [sendCommand("ping")] at time 1700000000000 with the
    random text "0.123456789", [0] being the promise returned. *)
Definition sample_pending : conn :=
  fst (@sendCommand sample_runtime 1700000000000 "0.123456789" 0%nat "ping"
         None sample_conn).

(** [Number(s)] for the strings of the examples: a decimal integer of
    at most 15 digits, with or without a minus sign, and the empty string,
    which is 0 (another string gives [NaN] here). *)
Definition sample_number (s : string) : float :=
  if String.eqb s "-" || (15 <? String.length s)%nat then PrimFloat.nan
  else if String.eqb s EmptyString then PrimFloat.zero
  else
    match NilZero.int_of_string s with
    | Some (Decimal.Pos d) => PrimFloat.of_uint63 (Uint63.of_Z (Z.of_uint d))
    | Some (Decimal.Neg d) =>
      PrimFloat.opp (PrimFloat.of_uint63 (Uint63.of_Z (Z.of_uint d)))
    | None => PrimFloat.nan
    end.

(** [String(x)]: an integer of at most 2^53 in magnitude by its digits
    (another number gives "NaN" here). *)
Definition sample_coercions : Coercions := {|
  StringToNumber := sample_number;
  NumberToString := fun x =>
    match integer_text x with Some s => s | None => "NaN" end;
  primitive_error := TypeError "Cannot convert object to primitive value"
|}.

(** A pipe task as a client may send it, in PascalCase, its diameter as a
    string. *)
Definition sample_pipe_payload : json :=
  JObj [("StartElementId", JNum 101); ("EndElementId", JNum 202);
        ("Waypoints", JArr [JObj [("X", JNum 0); ("Y", JNum 1000); ("Z", JNum 3000)]]);
        ("Diameter_mm", JStr "25")].

(** The same task as [normalizeTask] returns it. *)
Definition sample_pipe_task : json :=
  JObj [("startElementId", JNum 101); ("endElementId", JNum 202);
        ("waypoints", JArr [JObj [("x", JNum 0); ("y", JNum 1000); ("z", JNum 3000)]]);
        ("diameter_mm", JNum 25)].

(** A conduit task in camelCase with an override of the diameter. *)
Definition sample_conduit_payload : json :=
  JObj [("startElementId", JNum 101); ("endElementId", JNum 202);
        ("waypoints", JArr [JObj [("x", JNum 0); ("y", JNum 1000); ("z", JNum 3000)]]);
        ("trayOffsetMm", JNum 150);
        ("override", JObj [("diameter_mm", JStr "25")])].

(** The same task as [normalizeConduitTask] returns it. *)
Definition sample_conduit_task : json :=
  JObj [("StartElementId", JNum 101); ("EndElementId", JNum 202);
        ("Waypoints", JArr [JObj [("X", JNum 0); ("Y", JNum 1000); ("Z", JNum 3000)]]);
        ("TrayOffsetMm", JNum 150);
        ("Override", JObj [("DiameterMm", JNum 25)])].

(** A batch of three pipe tasks, and one whose second task has no
    identifiers. *)
Definition sample_batch (parallel stopOnError : option bool) : batch_args :=
  mkBatchArgs None
    (Some [sample_pipe_payload; sample_pipe_payload; sample_pipe_payload])
    parallel stopOnError.

Definition sample_bad_batch : batch_args :=
  mkBatchArgs None (Some [sample_pipe_payload; JObj []; sample_pipe_payload])
    None None.

(** An executor whose command fails for the task of index 1. *)
Definition sample_executor : executor :=
  fun i _ => if (i =? 1)%nat then inr "Command timed out after 2 minutes: route_pipes_by_waypoints"%string
             else inl (Some (JBool true)).

(** The listing of a tools directory, and an import that always fails. *)
Definition sample_files : list string :=
  ["index.ts"; "register.js"; "ping.ts"; "ping.js"; "README.md"].

Definition sample_import : nat -> string -> import_outcome :=
  fun _ _ => ImportThrows "Cannot find module".

(** * Properties *)

Section Properties.
Context `{rt : Runtime}.

(** ** Bytes and the length prefix *)

Lemma Z_of_byte_range (b : byte) : 0 <= Z_of_byte b < 256.
Proof.
  unfold Z_of_byte. pose proof (Byte.to_N_bounded b). lia.
Qed.

Lemma Z_of_byte_of_Z (z : Z) : Z_of_byte (byte_of_Z z) = z mod 256.
Proof.
  unfold Z_of_byte, byte_of_Z.
  assert (Hr : 0 <= z mod 256 < 256) by (apply Z.mod_pos_bound; lia).
  destruct (Byte.of_N (Z.to_N (z mod 256))) as [b|] eqn:E.
  - apply Byte.to_of_N in E. rewrite E. lia.
  - apply Byte.of_N_None_iff in E. lia.
Qed.

Lemma length_int32_bytes (n : Z) : length (int32_bytes n) = 4%nat.
Proof. reflexivity. Qed.

(** Reading back the prefix written for a length that fits 31 bits. *)
Lemma readInt32BE_int32_bytes (n : Z) :
  0 <= n < 2 ^ 31 ->
  match int32_bytes n with
  | [b0; b1; b2; b3] => readInt32BE b0 b1 b2 b3 = n
  | _ => False
  end.
Proof.
  intros Hn. unfold int32_bytes, readInt32BE.
  rewrite !Z_of_byte_of_Z.
  change (2 ^ 24) with 16777216. change (2 ^ 16) with 65536.
  change (2 ^ 8) with 256. change (2 ^ 31) with 2147483648 in *.
  change (2 ^ 32) with 4294967296.
  assert (E : (n / 16777216) mod 256 * 16777216 + (n / 65536) mod 256 * 65536
              + (n / 256) mod 256 * 256 + n mod 256 = n).
  { pose proof (Z.div_mod n 256 ltac:(lia)).
    pose proof (Z.div_mod (n / 256) 256 ltac:(lia)).
    pose proof (Z.div_mod (n / 256 / 256) 256 ltac:(lia)).
    assert (n / 256 / 256 / 256 < 128).
    { apply Z.div_lt_upper_bound; [lia|].
      apply Z.div_lt_upper_bound; [lia|].
      apply Z.div_lt_upper_bound; lia. }
    assert (0 <= n / 256 / 256 / 256) by (repeat apply Z.div_pos; lia).
    rewrite (Z.mod_small (n / 16777216) 256).
    2:{ replace 16777216 with (256 * 256 * 256) by lia.
        rewrite <- !Z.div_div by lia. lia. }
    replace (n / 16777216) with (n / 256 / 256 / 256)
      by (rewrite !Z.div_div by lia; reflexivity).
    replace (n / 65536) with (n / 256 / 256)
      by (rewrite !Z.div_div by lia; reflexivity).
    pose proof (Z.div_mod (n / 256 / 256) 256 ltac:(lia)).
    lia. }
  rewrite E.
  destruct (2147483648 <=? n) eqn:Hc; [apply Z.leb_le in Hc; lia | reflexivity].
Qed.

(** ** [slice] inside the buffer *)

Lemma buffer_slice_inside (data : list byte) (o k : Z) :
  0 <= o -> 0 <= k -> o + k <= buffer_length data ->
  buffer_slice data o (o + k) = take (Z.to_nat k) (drop (Z.to_nat o) data).
Proof.
  intros Ho Hk Hlen. unfold buffer_slice, clamp_index, buffer_length in *.
  destruct (o <? 0) eqn:E1; [apply Z.ltb_lt in E1; lia|].
  destruct (o + k <? 0) eqn:E2; [apply Z.ltb_lt in E2; lia|].
  rewrite !Z.min_l by lia.
  replace (o + k - o) with k by lia. reflexivity.
Qed.

Lemma buffer_length_app (a b : list byte) :
  buffer_length (a ++ b) = buffer_length a + buffer_length b.
Proof. unfold buffer_length. rewrite length_app. lia. Qed.

Lemma buffer_length_nonneg (a : list byte) : 0 <= buffer_length a.
Proof. unfold buffer_length. lia. Qed.

Lemma buffer_length_drop (data : list byte) (o : Z) :
  0 <= o <= buffer_length data ->
  buffer_length (drop (Z.to_nat o) data) = buffer_length data - o.
Proof. unfold buffer_length. intros Ho. rewrite length_drop. lia. Qed.

Lemma rest_from_advance (data : list byte) (o k : Z) :
  0 <= o -> 0 <= k ->
  rest_from data (o + k) = drop (Z.to_nat k) (rest_from data o).
Proof.
  intros Ho Hk. unfold rest_from. rewrite drop_drop. f_equal. lia.
Qed.

(** ** The two stages of the loop body *)

(** Stage one, the chunk ending before the prefix is complete. *)
Lemma read_prefix_short (data : list byte) (o : Z) (c : conn) :
  expectedLength c = None ->
  0 <= o <= buffer_length data ->
  buffer_length (lengthBuffer c) + buffer_length (rest_from data o) < 4 ->
  read_prefix data o c
  = Continue (buffer_length data)
             (set_lengthBuffer (lengthBuffer c ++ rest_from data o) c) [].
Proof.
  intros He Ho Hshort. unfold read_prefix. rewrite He. cbv zeta.
  unfold rest_from in *. rewrite buffer_length_drop in Hshort by lia.
  rewrite Z.min_r by lia.
  rewrite buffer_slice_inside by lia.
  rewrite take_ge by (rewrite length_drop; unfold buffer_length in *; lia).
  replace (o + (buffer_length data - o)) with (buffer_length data) by lia.
  set (lb := lengthBuffer c ++ drop (Z.to_nat o) data).
  assert (Hlb : buffer_length lb < 4).
  { subst lb. rewrite buffer_length_app, buffer_length_drop by lia. lia. }
  simpl lengthBuffer.
  destruct lb as [|? [|? [|? [|? [|? ?]]]]]; try reflexivity.
  unfold buffer_length in Hlb; simpl in Hlb; lia.
Qed.

(** Stage one, the chunk completing the prefix [b0 b1 b2 b3]. *)
Lemma read_prefix_full (data : list byte) (o : Z) (c : conn)
    (b0 b1 b2 b3 : byte) (m : list byte) :
  expectedLength c = None ->
  0 <= o <= buffer_length data ->
  buffer_length (lengthBuffer c) < 4 ->
  lengthBuffer c ++ rest_from data o = b0 :: b1 :: b2 :: b3 :: m ->
  read_prefix data o c
  = let n := readInt32BE b0 b1 b2 b3 in
    let c2 := mkConn (host c) (port c) (isConnected c) (responseCallbacks c)
                     [] (messageBuffer c) (Some n) in
    if (n <=? 0) || (MAX_MESSAGE_LENGTH <? n) then
      Return (resetBuffers c2)
             [ConsoleError [LogStr ("Invalid message length: " +:+ Z_to_string n)]]
    else Continue (o + (4 - buffer_length (lengthBuffer c))) c2 [].
Proof.
  intros He Ho Hlb Hq. unfold read_prefix. rewrite He. cbv zeta.
  assert (Hlen : buffer_length (lengthBuffer c) + buffer_length (rest_from data o)
                 = 4 + buffer_length m).
  { rewrite <- buffer_length_app, Hq. unfold buffer_length. simpl. lia. }
  pose proof (buffer_length_nonneg m) as Hm.
  pose proof (buffer_length_nonneg (lengthBuffer c)) as Hl.
  unfold rest_from in *. rewrite buffer_length_drop in Hlen by lia.
  rewrite Z.min_l by lia.
  rewrite buffer_slice_inside by lia.
  assert (Hfour : lengthBuffer c ++ take (Z.to_nat (4 - buffer_length (lengthBuffer c)))
                                     (drop (Z.to_nat o) data)
                  = [b0; b1; b2; b3]).
  { transitivity (take 4 (lengthBuffer c ++ drop (Z.to_nat o) data)).
    - rewrite take_app.
      rewrite (take_ge (lengthBuffer c)) by (unfold buffer_length in *; lia).
      do 2 f_equal. unfold buffer_length. lia.
    - rewrite Hq. reflexivity. }
  simpl lengthBuffer. rewrite Hfour. reflexivity.
Qed.

(** Stage two, the chunk ending before the payload is complete. *)
Lemma read_message_short (data : list byte) (o expected : Z) (c : conn) :
  expectedLength c = Some expected ->
  0 <= o <= buffer_length data ->
  buffer_length (messageBuffer c) + buffer_length (rest_from data o) < expected ->
  read_message data o c
  = Continue (buffer_length data)
             (set_messageBuffer (messageBuffer c ++ rest_from data o) c) [].
Proof.
  intros He Ho Hshort. unfold read_message. rewrite He. cbv zeta.
  unfold rest_from in *.
  pose proof Hshort as Hs. rewrite buffer_length_drop in Hs by lia.
  rewrite Z.min_r by lia.
  rewrite buffer_slice_inside by lia.
  rewrite take_ge by (rewrite length_drop; unfold buffer_length in *; lia).
  replace (o + (buffer_length data - o)) with (buffer_length data) by lia.
  simpl messageBuffer.
  destruct (buffer_length (messageBuffer c ++ drop (Z.to_nat o) data) =? expected)
    eqn:E; [|reflexivity].
  apply Z.eqb_eq in E. rewrite buffer_length_app in E. lia.
Qed.

(** Stage two, the chunk completing the payload. *)
Lemma read_message_full (data : list byte) (o expected : Z) (c : conn) :
  expectedLength c = Some expected ->
  0 <= o <= buffer_length data ->
  buffer_length (messageBuffer c) <= expected ->
  expected <= buffer_length (messageBuffer c) + buffer_length (rest_from data o) ->
  read_message data o c
  = let body := messageBuffer c
                ++ take (Z.to_nat (expected - buffer_length (messageBuffer c)))
                        (rest_from data o) in
    let jsonStr := utf8_decode body in
    let r := handleResponse jsonStr (set_messageBuffer body c) in
    Continue (o + (expected - buffer_length (messageBuffer c)))
             (resetBuffers (fst r)) (Emit jsonStr :: snd r).
Proof.
  intros He Ho Hmb Hfull. unfold read_message. rewrite He. cbv zeta.
  unfold rest_from in *.
  pose proof Hfull as Hf. rewrite buffer_length_drop in Hf by lia.
  rewrite Z.min_l by lia.
  rewrite buffer_slice_inside by lia.
  simpl messageBuffer.
  set (body := messageBuffer c ++ _).
  assert (Hbody : buffer_length body = expected).
  { subst body. rewrite buffer_length_app. unfold buffer_length in *.
    rewrite length_take, length_drop. lia. }
  rewrite Hbody, Z.eqb_refl.
  destruct (handleResponse (utf8_decode body) (set_messageBuffer body c)); reflexivity.
Qed.

(** ** Progress of the loop and the accumulator invariant *)

Lemma framer_idle_inv (c : conn) : framer_idle c -> framer_inv c.
Proof.
  unfold framer_idle, framer_state, framer_inv. intros E.
  injection E as E1 E2 E3. rewrite E1, E2, E3. simpl. split; [lia | reflexivity].
Qed.

Lemma resetBuffers_idle (c : conn) : framer_idle (resetBuffers c).
Proof. reflexivity. Qed.

(** Stage two from a state whose length is known never returns, never
    moves backwards, and moves forwards when bytes are left. *)
Lemma read_message_progress (data : list byte) (o expected : Z) (c : conn) :
  expectedLength c = Some expected ->
  lengthBuffer c = [] ->
  buffer_length (messageBuffer c) < expected ->
  0 <= o <= buffer_length data ->
  match read_message data o c with
  | Continue o' c' _ =>
    o <= o' <= buffer_length data /\ (o < buffer_length data -> o < o')
    /\ framer_inv c'
  | Return _ _ => False
  end.
Proof.
  intros He Hl Hm Ho.
  pose proof (buffer_length_drop data o Ho) as Hr. fold (rest_from data o) in Hr.
  destruct (Z_lt_le_dec (buffer_length (messageBuffer c)
                         + buffer_length (rest_from data o)) expected) as [Hs|Hf].
  - rewrite (read_message_short _ _ _ _ He Ho Hs).
    split; [lia | split; [lia|]].
    unfold framer_inv. simpl. rewrite He. split; [exact Hl|].
    rewrite buffer_length_app. lia.
  - rewrite (read_message_full data o expected c He Ho ltac:(lia) Hf). cbv zeta.
    split; [lia | split; [lia|]].
    apply framer_idle_inv, resetBuffers_idle.
Qed.

(** One pass of the loop from a state that satisfies the invariant, with
    bytes left: either the method returns with the framer idle, or the
    offset grows, stays inside the chunk, and the invariant holds again. *)
Lemma loop_body_progress (data : list byte) (o : Z) (c : conn) :
  framer_inv c ->
  0 <= o < buffer_length data ->
  match loop_body data o c with
  | Continue o' c' _ => o < o' <= buffer_length data /\ framer_inv c'
  | Return c' _ => framer_idle c'
  end.
Proof.
  intros Hinv Ho. unfold framer_inv in Hinv. unfold loop_body.
  destruct (expectedLength c) as [expected|] eqn:He.
  - destruct Hinv as [Hl Hm].
    assert (Hp : read_prefix data o c = Continue o c []).
    { unfold read_prefix. rewrite He. reflexivity. }
    rewrite Hp.
    pose proof (read_message_progress data o expected c He Hl Hm ltac:(lia)) as H.
    destruct (read_message data o c) as [o' c' evs|]; [|contradiction].
    destruct H as (H1 & H2 & H3). split; [lia | exact H3].
  - destruct Hinv as [Hl Hm].
    pose proof (buffer_length_drop data o ltac:(lia)) as Hr.
    fold (rest_from data o) in Hr.
    assert (Hlb : buffer_length (lengthBuffer c) < 4)
      by (unfold buffer_length; lia).
    pose proof (buffer_length_nonneg (lengthBuffer c)) as Hlb0.
    destruct (Z_lt_le_dec (buffer_length (lengthBuffer c)
                           + buffer_length (rest_from data o)) 4) as [Hs|Hf].
    + rewrite (read_prefix_short data o c He ltac:(lia) Hs).
      unfold read_message. simpl expectedLength. rewrite He.
      split; [lia|]. unfold framer_inv. simpl. rewrite He.
      split; [|exact Hm].
      unfold buffer_length in Hs. rewrite length_app. lia.
    + destruct (lengthBuffer c ++ rest_from data o)
        as [|b0 [|b1 [|b2 [|b3 m]]]] eqn:Hq;
        try (apply (f_equal buffer_length) in Hq;
             rewrite buffer_length_app in Hq;
             unfold buffer_length at 3 in Hq; simpl in Hq; lia).
      rewrite (read_prefix_full data o c b0 b1 b2 b3 m He ltac:(lia) Hlb Hq).
      cbv zeta.
      destruct ((readInt32BE b0 b1 b2 b3 <=? 0)
                || (MAX_MESSAGE_LENGTH <? readInt32BE b0 b1 b2 b3)) eqn:Hv.
      * apply resetBuffers_idle.
      * apply orb_false_iff in Hv. destruct Hv as [Hv1 Hv2].
        apply Z.leb_gt in Hv1.
        set (c2 := mkConn _ _ _ _ _ _ _).
        assert (Hrange : 0 <= o + (4 - buffer_length (lengthBuffer c))
                         <= buffer_length data).
        { lia. }
        pose proof (read_message_progress data
                      (o + (4 - buffer_length (lengthBuffer c)))
                      (readInt32BE b0 b1 b2 b3) c2 eq_refl eq_refl) as H.
        simpl messageBuffer in H. rewrite Hm in H.
        specialize (H Hv1 Hrange).
        destruct (read_message data _ c2) as [o' c' evs|]; [|contradiction].
        destruct H as (H1 & H2 & H3). split; [lia | exact H3].
Qed.

(** The loop ends within one pass per byte left, and the invariant holds
    where it ends. *)
Lemma processData_loop_inv (fuel : nat) :
  forall (data : list byte) (o : Z) (c : conn),
    framer_inv c ->
    0 <= o <= buffer_length data ->
    buffer_length data - o <= Z.of_nat fuel ->
    exists c' evs,
      processData_loop fuel data o c = Some (c', evs) /\ framer_inv c'.
Proof.
  induction fuel as [|fuel IH]; intros data o c Hinv Ho Hfuel.
  - simpl. destruct (o <? buffer_length data) eqn:E.
    + apply Z.ltb_lt in E. lia.
    + eauto.
  - simpl. destruct (o <? buffer_length data) eqn:E; [|eauto].
    apply Z.ltb_lt in E.
    pose proof (loop_body_progress data o c Hinv ltac:(lia)) as H.
    destruct (loop_body data o c) as [o' c' evs|c' evs].
    + destruct H as [Ho' Hinv'].
      destruct (IH data o' c' Hinv' ltac:(lia) ltac:(lia)) as (c'' & evs' & E' & I').
      rewrite E'. eauto.
    + exists c', evs. split; [reflexivity | apply framer_idle_inv, H].
Qed.

(** ** One pass of the loop over a stream of valid frames *)

Lemma framer_after_short (q : list byte) :
  buffer_length q < 4 -> framer_after q = (q, [], None).
Proof.
  intros H. destruct q as [|? [|? [|? [|? ?]]]]; try reflexivity.
  unfold buffer_length in H. simpl in H. lia.
Qed.

Lemma long_buffer_split (q : list byte) :
  4 <= buffer_length q -> exists b0 b1 b2 b3 m, q = b0 :: b1 :: b2 :: b3 :: m.
Proof.
  intros H. destruct q as [|b0 [|b1 [|b2 [|b3 m]]]];
    try (unfold buffer_length in H; simpl in H; lia).
  eauto 6.
Qed.

Lemma emitted_app (a b : list event) : emitted (a ++ b) = emitted a ++ emitted b.
Proof.
  induction a as [|e a IH]; [reflexivity|].
  destruct e; simpl; rewrite IH; reflexivity.
Qed.

Lemma emitted_run_callback (cb : callback) (s : string) :
  emitted (run_callback cb s) = [].
Proof.
  destruct cb as [p]. unfold run_callback.
  match goal with |- context [match ?a with Ok _ => _ | Throw _ => _ end] =>
    destruct a as [ev|e] eqn:E end; [|reflexivity].
  unfold bind in E.
  repeat match type of E with
         | context [match ?x with _ => _ end] => destruct x; try discriminate
         end;
    injection E as <-; reflexivity.
Qed.

Lemma emitted_handleResponse (s : string) (c : conn) :
  emitted (snd (handleResponse s c)) = [].
Proof.
  unfold handleResponse.
  destruct (requestId_of s) as [requestId|e]; [|reflexivity].
  destruct (callbacks_get (responseCallbacks c) requestId); [|reflexivity].
  apply emitted_run_callback.
Qed.

Lemma rest_after_prefix (data lb : list byte) (o : Z) (b0 b1 b2 b3 : byte)
    (m : list byte) :
  0 <= o ->
  buffer_length lb < 4 ->
  lb ++ rest_from data o = b0 :: b1 :: b2 :: b3 :: m ->
  rest_from data (o + (4 - buffer_length lb)) = m.
Proof.
  intros Ho Hlb Hq. rewrite rest_from_advance by lia.
  assert (E : drop 4 (lb ++ rest_from data o) = m) by (rewrite Hq; reflexivity).
  rewrite drop_app in E.
  rewrite drop_ge in E by (unfold buffer_length in Hlb; lia).
  simpl in E. rewrite <- E. f_equal. unfold buffer_length. lia.
Qed.

(** From a position [q] inside a frame whose prefix [b0 b1 b2 b3] is
    complete once the rest of the chunk is added, a pass of the loop comes
    down to stage two run from a state [c2] that knows the length. *)
Lemma loop_body_to_message (data q : list byte) (o : Z) (c : conn)
    (b0 b1 b2 b3 : byte) (m : list byte) :
  in_frame q ->
  framer_state c = framer_after q ->
  0 <= o <= buffer_length data ->
  q ++ rest_from data o = b0 :: b1 :: b2 :: b3 :: m ->
  valid_length (readInt32BE b0 b1 b2 b3) ->
  exists c2 o1,
    expectedLength c2 = Some (readInt32BE b0 b1 b2 b3)
    /\ lengthBuffer c2 = []
    /\ buffer_length (messageBuffer c2) < readInt32BE b0 b1 b2 b3
    /\ o <= o1 <= buffer_length data
    /\ o1 - buffer_length (messageBuffer c2) = o + 4 - buffer_length q
    /\ messageBuffer c2 ++ rest_from data o1 = m
    /\ loop_body data o c
       = match read_message data o1 c2 with
         | Continue o2 c3 evs => Continue o2 c3 evs
         | Return c3 evs => Return c3 evs
         end.
Proof.
  intros Hin Hst Ho Hq Hv. unfold framer_state in Hst.
  destruct (Z_lt_le_dec (buffer_length q) 4) as [Hs|Hl].
  - rewrite (framer_after_short q Hs) in Hst. injection Hst as Hlb Hmb He.
    rewrite <- Hlb in Hq, Hs.
    assert (Hlen : 4 <= buffer_length (lengthBuffer c)
                        + buffer_length (rest_from data o)).
    { rewrite <- buffer_length_app, Hq. unfold buffer_length. simpl. lia. }
    unfold rest_from in Hlen. rewrite buffer_length_drop in Hlen by lia.
    pose proof (buffer_length_nonneg (lengthBuffer c)).
    eexists (mkConn (host c) (port c) (isConnected c) (responseCallbacks c)
                    [] (messageBuffer c) (Some (readInt32BE b0 b1 b2 b3))),
            (o + (4 - buffer_length (lengthBuffer c))).
    simpl. rewrite Hmb. simpl.
    rewrite (rest_after_prefix data (lengthBuffer c) o b0 b1 b2 b3 m
               ltac:(lia) Hs Hq).
    unfold valid_length in Hv. rewrite <- Hlb.
    repeat (split; [first [reflexivity | unfold buffer_length; simpl; lia | lia]|]).
    unfold loop_body.
    rewrite (read_prefix_full data o c b0 b1 b2 b3 m He Ho Hs Hq). cbv zeta.
    destruct (readInt32BE b0 b1 b2 b3 <=? 0) eqn:E1;
      [apply Z.leb_le in E1; lia|].
    destruct (MAX_MESSAGE_LENGTH <? readInt32BE b0 b1 b2 b3) eqn:E2;
      [apply Z.ltb_lt in E2; lia|].
    simpl orb. cbv iota. rewrite Hmb. reflexivity.
  - destruct (long_buffer_split q Hl) as (a0 & a1 & a2 & a3 & m0 & ->).
    simpl in Hq. injection Hq as -> -> -> -> Hm.
    simpl in Hst. injection Hst as Hlb Hmb He.
    simpl in Hin. destruct Hin as [_ Hlt].
    exists c, o. rewrite Hmb.
    repeat (split; [first [assumption | lia
                          | unfold buffer_length; simpl length; lia]|]).
    unfold loop_body, read_prefix. rewrite He.
    destruct (read_message data o c); reflexivity.
Qed.

(** A pass that leaves the frame incomplete consumes the rest of the chunk
    and emits nothing. *)
Lemma loop_body_within (data q : list byte) (o : Z) (c : conn) :
  in_frame q ->
  framer_state c = framer_after q ->
  0 <= o <= buffer_length data ->
  in_frame (q ++ rest_from data o) ->
  exists c',
    loop_body data o c = Continue (buffer_length data) c' []
    /\ framer_state c' = framer_after (q ++ rest_from data o).
Proof.
  intros Hin Hst Ho Hin'.
  destruct (Z_lt_le_dec (buffer_length (q ++ rest_from data o)) 4) as [Hs|Hl].
  - pose proof Hs as Hs'. rewrite buffer_length_app in Hs'.
    pose proof (buffer_length_nonneg (rest_from data o)).
    pose proof (buffer_length_nonneg q).
    rewrite (framer_after_short _ Hs).
    rewrite (framer_after_short q ltac:(lia)) in Hst.
    unfold framer_state in Hst. injection Hst as Hlb Hmb He.
    rewrite <- Hlb in Hs' |- *.
    eexists. split.
    + unfold loop_body. rewrite (read_prefix_short data o c He Ho Hs').
      unfold read_message. simpl expectedLength. rewrite He. reflexivity.
    + unfold framer_state. simpl. rewrite Hmb, He. reflexivity.
  - destruct (long_buffer_split _ Hl) as (b0 & b1 & b2 & b3 & m & Hq).
    rewrite Hq in Hin' |- *. simpl in Hin'. destruct Hin' as [Hv Hm].
    destruct (loop_body_to_message data q o c b0 b1 b2 b3 m Hin Hst Ho Hq Hv)
      as (c2 & o1 & He2 & Hl2 & Hlt2 & Ho1 & Hoff & Hm2 & Hbody).
    rewrite Hbody.
    rewrite (read_message_short data o1 _ c2 He2 ltac:(lia)).
    + eexists. split; [reflexivity|].
      unfold framer_state. simpl. rewrite Hl2, He2, Hm2. reflexivity.
    + rewrite <- buffer_length_app, Hm2. exact Hm.
Qed.

(** A pass that reaches the end of the frame of payload [p] emits [p]
    decoded, once, and leaves the framer idle just after the frame. *)
Lemma loop_body_completes (data q : list byte) (o : Z) (c : conn)
    (p rest : list byte) :
  in_frame q ->
  framer_state c = framer_after q ->
  0 <= o <= buffer_length data ->
  valid_length (buffer_length p) ->
  q ++ rest_from data o = frame p ++ rest ->
  exists c' evs,
    loop_body data o c
    = Continue (o + (buffer_length (frame p) - buffer_length q)) c'
               (Emit (utf8_decode p) :: evs)
    /\ emitted evs = []
    /\ framer_idle c'
    /\ buffer_length q < buffer_length (frame p).
Proof.
  intros Hin Hst Ho Hv Hq.
  assert (Hmax : MAX_MESSAGE_LENGTH < 2 ^ 31) by reflexivity.
  pose proof (readInt32BE_int32_bytes (buffer_length p)
                ltac:(unfold valid_length in Hv; lia)) as Hread.
  assert (Hframe : buffer_length (frame p) = 4 + buffer_length p).
  { unfold frame. rewrite buffer_length_app. reflexivity. }
  unfold frame in Hq.
  destruct (int32_bytes (buffer_length p)) as [|b0 [|b1 [|b2 [|b3 [|]]]]];
    try contradiction.
  simpl in Hq. rewrite <- Hread in Hv.
  destruct (loop_body_to_message data q o c b0 b1 b2 b3 (p ++ rest)
              Hin Hst Ho Hq Hv)
    as (c2 & o1 & He2 & Hl2 & Hlt2 & Ho1 & Hoff & Hm2 & Hbody).
  rewrite Hread in He2, Hlt2.
  assert (Hfull : buffer_length p
                  <= buffer_length (messageBuffer c2)
                     + buffer_length (rest_from data o1)).
  { rewrite <- buffer_length_app, Hm2, buffer_length_app.
    pose proof (buffer_length_nonneg rest). lia. }
  rewrite Hbody.
  rewrite (read_message_full data o1 _ c2 He2 ltac:(lia) ltac:(lia) Hfull).
  cbv zeta.
  assert (Hp : messageBuffer c2
               ++ take (Z.to_nat (buffer_length p - buffer_length (messageBuffer c2)))
                       (rest_from data o1) = p).
  { transitivity (take (length p) (messageBuffer c2 ++ rest_from data o1)).
    - rewrite take_app.
      rewrite (take_ge (messageBuffer c2)) by (unfold buffer_length in *; lia).
      do 2 f_equal. unfold buffer_length. lia.
    - rewrite Hm2. apply take_app_length. }
  rewrite Hp.
  eexists _, _. split; [|split; [|split]].
  - f_equal. lia.
  - apply emitted_handleResponse.
  - apply resetBuffers_idle.
  - pose proof (buffer_length_nonneg (messageBuffer c2)). lia.
Qed.

Lemma processData_loop_done (fuel : nat) (data : list byte) (o : Z) (c : conn) :
  buffer_length data <= o -> processData_loop fuel data o c = Some (c, []).
Proof.
  intros H. destruct fuel; simpl;
    (destruct (o <? buffer_length data) eqn:E;
     [apply Z.ltb_lt in E; lia | reflexivity]).
Qed.

(** ** The loop over a stream of valid frames *)

(** Started at position [q] of a frame, the loop run over bytes that
    continue with the frames of [ps] and the beginning [tail] of one more
    emits the payloads of [ps], in order, and stops at [tail]. *)
Lemma processData_loop_frames (ps : list (list byte)) :
  Forall (fun p => valid_length (buffer_length p)) ps ->
  forall (fuel : nat) (data : list byte) (o : Z) (c : conn) (q tail : list byte),
    in_frame q ->
    framer_state c = framer_after q ->
    0 <= o <= buffer_length data ->
    buffer_length data - o <= Z.of_nat fuel ->
    q ++ rest_from data o = frames ps ++ tail ->
    in_frame tail ->
    exists c' evs,
      processData_loop fuel data o c = Some (c', evs)
      /\ emitted evs = map utf8_decode ps
      /\ framer_state c' = framer_after tail.
Proof.
  induction 1 as [|p ps Hp Hps IH];
    intros fuel data o c q tail Hin Hst Ho Hfuel Hq Htail.
  - simpl in Hq.
    destruct (loop_body_within data q o c Hin Hst Ho
                ltac:(rewrite Hq; exact Htail))
      as (c' & Hbody & Hst').
    destruct (Z_lt_le_dec o (buffer_length data)) as [Hlt|Hge].
    + destruct fuel as [|fuel]; [lia|].
      simpl. apply Z.ltb_lt in Hlt. rewrite Hlt, Hbody.
      rewrite processData_loop_done by lia.
      exists c', []. rewrite <- Hq. auto.
    + rewrite processData_loop_done by lia.
      exists c, []. split; [reflexivity|]. split; [reflexivity|].
      assert (Hr : rest_from data o = []).
      { unfold rest_from. apply drop_ge. unfold buffer_length in *. lia. }
      rewrite Hr, app_nil_r in Hq. rewrite <- Hq. exact Hst.
  - change (frames (p :: ps)) with (frame p ++ frames ps) in Hq.
    rewrite <- app_assoc in Hq.
    destruct (loop_body_completes data q o c p (frames ps ++ tail)
                Hin Hst Ho Hp Hq)
      as (c' & evs & Hbody & Hnone & Hidle & Hshort).
    assert (Hlen : buffer_length q + (buffer_length data - o)
                   = buffer_length (frame p)
                     + buffer_length (frames ps ++ tail)).
    { rewrite <- (buffer_length_drop data o Ho). fold (rest_from data o).
      rewrite <- !buffer_length_app, Hq. reflexivity. }
    pose proof (buffer_length_nonneg (frames ps ++ tail)) as Hnn.
    pose proof (buffer_length_nonneg q) as Hqn.
    destruct fuel as [|fuel]; [lia|].
    simpl. assert (Hlt : (o <? buffer_length data) = true) by (apply Z.ltb_lt; lia).
    rewrite Hlt, Hbody.
    set (o' := o + (buffer_length (frame p) - buffer_length q)) in *.
    assert (Hrest : [] ++ rest_from data o' = frames ps ++ tail).
    { rewrite app_nil_l. subst o'. rewrite rest_from_advance by lia.
      assert (E : drop (length (frame p)) (q ++ rest_from data o)
                  = frames ps ++ tail)
        by (rewrite Hq; apply drop_app_length).
      rewrite drop_app in E.
      rewrite drop_ge in E by (unfold buffer_length in *; lia).
      rewrite app_nil_l in E. rewrite <- E. f_equal. unfold buffer_length. lia. }
    destruct (IH fuel data o' c' [] tail I Hidle ltac:(lia) ltac:(lia) Hrest Htail)
      as (c'' & evs' & Hloop & Hem & Hst'').
    rewrite Hloop. exists c'', ((Emit (utf8_decode p) :: evs) ++ evs').
    split; [reflexivity|]. split; [|exact Hst''].
    simpl. rewrite emitted_app, Hnone, Hem. reflexivity.
Qed.

(** ** Cutting a stream of frames into chunks *)

Lemma in_frame_prefix (a b : list byte) : in_frame (a ++ b) -> in_frame a.
Proof.
  destruct a as [|b0 [|b1 [|b2 [|b3 m]]]]; try (intros; exact I).
  simpl. intros [Hv Hm]. split; [exact Hv|].
  rewrite buffer_length_app in Hm. pose proof (buffer_length_nonneg b). lia.
Qed.

(** A proper beginning of a valid frame is a position inside a frame. *)
Lemma in_frame_of_frame (a l p : list byte) :
  valid_length (buffer_length p) ->
  frame p = a ++ l -> l <> [] -> in_frame a.
Proof.
  intros Hv E Hl.
  assert (Hmax : MAX_MESSAGE_LENGTH < 2 ^ 31) by reflexivity.
  pose proof (readInt32BE_int32_bytes (buffer_length p)
                ltac:(unfold valid_length in Hv; lia)) as Hread.
  unfold frame in E.
  destruct (int32_bytes (buffer_length p)) as [|b0 [|b1 [|b2 [|b3 [|]]]]];
    try contradiction.
  destruct a as [|a0 [|a1 [|a2 [|a3 m]]]]; try exact I.
  simpl in E. injection E as <- <- <- <- E.
  simpl. rewrite Hread. split; [exact Hv|].
  rewrite E, buffer_length_app.
  assert (0 < buffer_length l).
  { destruct l; [contradiction|]. unfold buffer_length. simpl. lia. }
  lia.
Qed.

(** However a stream made of the frames of [ps] and the beginning [tail]
    of one more is cut in two, the cut falls inside a frame: the first
    part is some of the frames and a beginning [mid], and [mid] followed by
    the second part is the remaining frames and [tail]. *)
Lemma frames_cut (ps : list (list byte)) :
  Forall (fun p => valid_length (buffer_length p)) ps ->
  forall a b tail : list byte,
    in_frame tail ->
    a ++ b = frames ps ++ tail ->
    exists ps1 ps2 mid,
      ps = ps1 ++ ps2
      /\ a = frames ps1 ++ mid
      /\ in_frame mid
      /\ mid ++ b = frames ps2 ++ tail.
Proof.
  induction 1 as [|p ps Hp Hps IH]; intros a b tail Htail E.
  - exists [], [], a. simpl in *. repeat split; try reflexivity; try exact E.
    apply (in_frame_prefix a b). rewrite E. exact Htail.
  - change (frames (p :: ps)) with (frame p ++ frames ps) in E.
    rewrite <- app_assoc in E.
    apply app_eq_app in E. destruct E as [l [[E1 E2] | [E1 E2]]].
    + destruct (IH l b tail Htail (eq_sym E2)) as (ps1 & ps2 & mid & -> & -> & Hmid & E').
      exists (p :: ps1), ps2, mid. repeat split; try assumption.
      rewrite E1. change (frames (p :: ps1)) with (frame p ++ frames ps1).
      rewrite app_assoc. reflexivity.
    + destruct l as [|x l].
      * rewrite app_nil_r in E1. simpl in E2.
        destruct (IH [] b tail Htail E2)
          as (ps1 & ps2 & mid & -> & Hnil & Hmid & E').
        exists (p :: ps1), ps2, mid. repeat split; try assumption.
        change (frames (p :: ps1)) with (frame p ++ frames ps1).
        rewrite <- app_assoc, <- Hnil, app_nil_r. symmetry. exact E1.
      * exists [], (p :: ps), a. repeat split.
        -- apply (in_frame_of_frame a (x :: l) p Hp E1). discriminate.
        -- change (frames (p :: ps)) with (frame p ++ frames ps).
           rewrite E2, E1, <- !app_assoc. reflexivity.
Qed.

Lemma processData_frames (ps : list (list byte)) (data : list byte)
    (c : conn) (q tail : list byte) :
  Forall (fun p => valid_length (buffer_length p)) ps ->
  in_frame q ->
  framer_state c = framer_after q ->
  q ++ data = frames ps ++ tail ->
  in_frame tail ->
  exists c' evs,
    processData data c = Some (c', evs)
    /\ emitted evs = map utf8_decode ps
    /\ framer_state c' = framer_after tail.
Proof.
  intros Hps Hin Hst Hq Htail. unfold processData.
  apply (processData_loop_frames ps Hps (length data) data 0 c q tail);
    try assumption.
  - pose proof (buffer_length_nonneg data). lia.
  - unfold buffer_length. lia.
Qed.

(** The same over any number of chunks. *)
Lemma feed_frames (chunks : list (list byte)) :
  forall (ps : list (list byte)) (c : conn) (q tail : list byte),
    Forall (fun p => valid_length (buffer_length p)) ps ->
    in_frame q ->
    framer_state c = framer_after q ->
    q ++ concat chunks = frames ps ++ tail ->
    in_frame tail ->
    exists c' evs,
      feed chunks c = Some (c', evs)
      /\ emitted evs = map utf8_decode ps
      /\ framer_state c' = framer_after tail.
Proof.
  induction chunks as [|data chunks IH]; intros ps c q tail Hps Hin Hst Hq Htail.
  - simpl in Hq. rewrite app_nil_r in Hq.
    destruct (processData_frames ps [] c q tail Hps Hin Hst
                ltac:(rewrite app_nil_r; exact Hq) Htail)
      as (c' & evs & Hp & Hem & Hst').
    unfold processData in Hp. simpl in Hp. injection Hp as <- <-.
    exists c, []. auto.
  - simpl in Hq. rewrite app_assoc in Hq.
    destruct (frames_cut ps Hps (q ++ data) (concat chunks) tail Htail Hq)
      as (ps1 & ps2 & mid & -> & Hcut & Hmid & Hrest).
    apply Forall_app in Hps. destruct Hps as [Hps1 Hps2].
    destruct (processData_frames ps1 data c q mid Hps1 Hin Hst Hcut Hmid)
      as (c1 & evs1 & Hp & Hem1 & Hst1).
    destruct (IH ps2 c1 mid tail Hps2 Hmid Hst1 Hrest Htail)
      as (c2 & evs2 & Hf & Hem2 & Hst2).
    exists c2, (evs1 ++ evs2). simpl. rewrite Hp, Hf.
    split; [reflexivity|]. split; [|exact Hst2].
    rewrite emitted_app, Hem1, Hem2, map_app. reflexivity.
Qed.

Lemma in_frame_short (mid b p rest : list byte) :
  valid_length (buffer_length p) ->
  in_frame mid ->
  mid ++ b = frame p ++ rest ->
  buffer_length mid < buffer_length (frame p).
Proof.
  intros Hv Hin E.
  assert (Hmax : MAX_MESSAGE_LENGTH < 2 ^ 31) by reflexivity.
  pose proof (readInt32BE_int32_bytes (buffer_length p)
                ltac:(unfold valid_length in Hv; lia)) as Hread.
  assert (Hframe : buffer_length (frame p) = 4 + buffer_length p).
  { unfold frame. rewrite buffer_length_app. reflexivity. }
  unfold valid_length in Hv.
  destruct (Z_lt_le_dec (buffer_length mid) 4) as [Hs|Hl]; [lia|].
  destruct (long_buffer_split mid Hl) as (a0 & a1 & a2 & a3 & m & ->).
  unfold frame in E.
  destruct (int32_bytes (buffer_length p)) as [|b0 [|b1 [|b2 [|b3 [|]]]]];
    try contradiction.
  simpl in E. injection E as <- <- <- <- E.
  simpl in Hin. rewrite Hread in Hin. destruct Hin as [_ Hm].
  rewrite Hframe. unfold buffer_length in *. simpl length. lia.
Qed.

Lemma frames_nil : frames [] = [].
Proof. reflexivity. Qed.

Lemma frames_cons (p : list byte) (ps : list (list byte)) :
  frames (p :: ps) = frame p ++ frames ps.
Proof. reflexivity. Qed.

Lemma concat_singletons (l : list byte) : concat (map (fun b => [b]) l) = l.
Proof. induction l as [|b l IH]; simpl; [reflexivity | rewrite IH; reflexivity]. Qed.

Lemma frame_of_string_valid (s : string) :
  0 < buffer_length (utf8_encode s) <= MAX_MESSAGE_LENGTH ->
  frame_of_string s = Ok (frame (utf8_encode s)).
Proof.
  intros H. unfold frame_of_string, writeInt32BE, frame, bind.
  assert (Hmax : MAX_MESSAGE_LENGTH < 2 ^ 31) by reflexivity.
  destruct (buffer_length (utf8_encode s) <? - 2 ^ 31) eqn:E1;
    [apply Z.ltb_lt in E1; lia|].
  destruct (2 ^ 31 - 1 <? buffer_length (utf8_encode s)) eqn:E2;
    [apply Z.ltb_lt in E2; lia|].
  reflexivity.
Qed.

(** ** Framing *)

(** C1 (framing round trip).  Let [s] be a payload string whose UTF-8
    encoding has between 1 and 10 MiB bytes and which the runtime's codec
    decodes back to itself.  The sender frames it as the 4-byte big-endian
    length followed by the encoded bytes; and however these bytes are cut
    into chunks (all at once and one byte at a time included), feeding the
    chunks in order to an idle framer hands exactly one payload to
    [handleResponse], equal to [s], and leaves the framer idle. *)
Theorem framing_round_trip (s : string) (c : conn) :
  0 < buffer_length (utf8_encode s) <= MAX_MESSAGE_LENGTH ->
  utf8_decode (utf8_encode s) = s ->
  framer_idle c ->
  exists bytes,
    frame_of_string s = Ok bytes
    /\ bytes = int32_bytes (buffer_length (utf8_encode s)) ++ utf8_encode s
    /\ (forall chunks, concat chunks = bytes ->
          exists c' evs,
            feed chunks c = Some (c', evs) /\ emitted evs = [s] /\ framer_idle c')
    /\ (exists c' evs,
          feed [bytes] c = Some (c', evs) /\ emitted evs = [s] /\ framer_idle c')
    /\ (exists c' evs,
          feed (map (fun b => [b]) bytes) c = Some (c', evs)
          /\ emitted evs = [s] /\ framer_idle c').
Proof.
  intros Hlen Hcodec Hidle.
  exists (frame (utf8_encode s)).
  assert (Hall : forall chunks, concat chunks = frame (utf8_encode s) ->
            exists c' evs,
              feed chunks c = Some (c', evs) /\ emitted evs = [s] /\ framer_idle c').
  { intros chunks Hchunks.
    destruct (feed_frames chunks [utf8_encode s] c [] [])
      as (c' & evs & Hfeed & Hem & Hst); try exact I.
    - constructor; [exact Hlen | constructor].
    - exact Hidle.
    - simpl. rewrite Hchunks, !app_nil_r. reflexivity.
    - exists c', evs. simpl in Hem. rewrite Hcodec in Hem. auto. }
  split; [apply frame_of_string_valid, Hlen|].
  split; [reflexivity|].
  split; [exact Hall|]. split; apply Hall.
  - cbn [concat]. apply app_nil_r.
  - apply concat_singletons.
Qed.

(** C2 (boundary straddling, emission in order).  For two valid frames
    with payloads [p1] and [p2], cut the concatenated bytes at any offset
    [k] and feed the two parts to an idle framer in two calls: both calls
    return, the payloads handed to [handleResponse] over the two calls are
    [p1] then [p2], each once, and the framer ends idle.  The first call
    emits none of them when the cut is inside the first frame, one when it
    is at the end of the first frame or inside the second, both when it is
    at the end of the stream; the second call emits the others. *)
Theorem boundary_straddling (p1 p2 : list byte) (k : nat) (c : conn) :
  valid_length (buffer_length p1) ->
  valid_length (buffer_length p2) ->
  framer_idle c ->
  let stream := frame p1 ++ frame p2 in
  let first :=
    if (Z.of_nat k <? buffer_length (frame p1)) then []
    else if (Z.of_nat k <? buffer_length stream) then [utf8_decode p1]
    else [utf8_decode p1; utf8_decode p2] in
  exists c1 evs1 c2 evs2,
    processData (take k stream) c = Some (c1, evs1)
    /\ processData (drop k stream) c1 = Some (c2, evs2)
    /\ emitted (evs1 ++ evs2) = [utf8_decode p1; utf8_decode p2]
    /\ emitted evs1 = first
    /\ emitted evs1 ++ emitted evs2 = [utf8_decode p1; utf8_decode p2]
    /\ framer_idle c2.
Proof.
  intros H1 H2 Hidle stream first.
  assert (Hps : Forall (fun p => valid_length (buffer_length p)) [p1; p2])
    by (constructor; [exact H1 | constructor; [exact H2 | constructor]]).
  assert (Hstream : take k stream ++ drop k stream = frames [p1; p2] ++ []).
  { rewrite take_drop. subst stream.
    rewrite !frames_cons, frames_nil, !app_nil_r. reflexivity. }
  destruct (frames_cut [p1; p2] Hps (take k stream) (drop k stream) [] I Hstream)
    as (ps1 & ps2 & mid & Hsplit & Hcut & Hmid & Hrest).
  assert (Hps' := Hps). rewrite Hsplit in Hps'.
  apply Forall_app in Hps'. destruct Hps' as [Hps1 Hps2].
  destruct (processData_frames ps1 (take k stream) c [] mid Hps1 I Hidle Hcut Hmid)
    as (c1 & evs1 & Hp1 & Hem1 & Hst1).
  destruct (processData_frames ps2 (drop k stream) c1 mid [] Hps2 Hmid Hst1 Hrest I)
    as (c2 & evs2 & Hp2 & Hem2 & Hst2).
  exists c1, evs1, c2, evs2.
  assert (Hboth : emitted evs1 ++ emitted evs2 = [utf8_decode p1; utf8_decode p2]).
  { rewrite Hem1, Hem2, <- map_app, <- Hsplit. reflexivity. }
  split; [exact Hp1|]. split; [exact Hp2|].
  split; [rewrite emitted_app; exact Hboth|].
  split; [|split; [exact Hboth | exact Hst2]].
  rewrite Hem1. subst first.
  assert (Htake : buffer_length (take k stream)
                  = Z.min (Z.of_nat k) (buffer_length stream)).
  { unfold buffer_length. rewrite length_take. lia. }
  assert (Hs : buffer_length stream
               = buffer_length (frame p1) + buffer_length (frame p2)).
  { subst stream. apply buffer_length_app. }
  assert (Hf2 : 0 < buffer_length (frame p2)).
  { unfold frame. rewrite buffer_length_app. unfold valid_length in H2.
    unfold buffer_length at 1. simpl length. lia. }
  rewrite Hcut in Htake.
  destruct ps1 as [|a [|a' [|]]]; simpl in Hsplit.
  - subst ps2. rewrite !frames_cons, frames_nil, !app_nil_r in Hrest.
    pose proof (in_frame_short mid _ p1 _ H1 Hmid Hrest) as Hlt.
    rewrite frames_nil, app_nil_l in Htake.
    destruct (Z.of_nat k <? buffer_length (frame p1)) eqn:E; [reflexivity|].
    apply Z.ltb_ge in E. lia.
  - injection Hsplit as <- <-.
    rewrite !frames_cons, frames_nil, !app_nil_r in Hrest.
    pose proof (in_frame_short mid (drop k stream) p2 [] H2 Hmid
                  ltac:(rewrite app_nil_r; exact Hrest)) as Hlt.
    rewrite !frames_cons, frames_nil, app_nil_r, buffer_length_app in Htake.
    pose proof (buffer_length_nonneg mid).
    destruct (Z.of_nat k <? buffer_length (frame p1)) eqn:E;
      [apply Z.ltb_lt in E; lia|].
    destruct (Z.of_nat k <? buffer_length stream) eqn:E';
      [reflexivity | apply Z.ltb_ge in E'; lia].
  - injection Hsplit as <- <- <-.
    rewrite frames_nil in Hrest.
    apply app_eq_nil in Hrest. destruct Hrest as [-> _].
    rewrite !frames_cons, frames_nil, !app_nil_r in Htake.
    fold stream in Htake.
    destruct (Z.of_nat k <? buffer_length (frame p1)) eqn:E;
      [apply Z.ltb_lt in E; lia|].
    destruct (Z.of_nat k <? buffer_length stream) eqn:E';
      [apply Z.ltb_lt in E'; lia | reflexivity].
  - apply (f_equal (@length _)) in Hsplit. simpl in Hsplit.
    rewrite length_app in Hsplit. simpl in Hsplit. lia.
Qed.

(** The loop over valid frames followed by a prefix that decodes to an
    invalid length [n]: the payloads of the valid frames are emitted, the
    error is logged, and the method returns with the framer reset, whatever
    follows the prefix in the chunk. *)
Lemma processData_loop_invalid (ps : list (list byte)) :
  Forall (fun p => valid_length (buffer_length p)) ps ->
  forall (fuel : nat) (data : list byte) (o : Z) (c : conn) (q : list byte)
         (b0 b1 b2 b3 : byte) (m : list byte),
    in_frame q ->
    framer_state c = framer_after q ->
    0 <= o <= buffer_length data ->
    buffer_length data - o <= Z.of_nat fuel ->
    q ++ rest_from data o = frames ps ++ b0 :: b1 :: b2 :: b3 :: m ->
    readInt32BE b0 b1 b2 b3 <= 0
    \/ MAX_MESSAGE_LENGTH < readInt32BE b0 b1 b2 b3 ->
    exists c' evs,
      processData_loop fuel data o c
      = Some (c', evs ++ [ConsoleError
                            [LogStr ("Invalid message length: "
                                     +:+ Z_to_string (readInt32BE b0 b1 b2 b3))]])
      /\ emitted evs = map utf8_decode ps
      /\ framer_idle c'.
Proof.
  induction 1 as [|p ps Hp Hps IH];
    intros fuel data o c q b0 b1 b2 b3 m Hin Hst Ho Hfuel Hq Hbad.
  - rewrite frames_nil, app_nil_l in Hq.
    assert (Hshort : buffer_length q < 4).
    { destruct (Z_lt_le_dec (buffer_length q) 4) as [Hs|Hl]; [exact Hs|].
      destruct (long_buffer_split q Hl) as (a0 & a1 & a2 & a3 & m0 & ->).
      simpl in Hq. injection Hq as -> -> -> -> _.
      simpl in Hin. unfold valid_length in Hin. lia. }
    unfold framer_state in Hst. rewrite (framer_after_short q Hshort) in Hst.
    injection Hst as Hlb Hmb He. rewrite <- Hlb in Hq, Hshort.
    assert (Hlen : buffer_length (lengthBuffer c) + (buffer_length data - o)
                   = 4 + buffer_length m).
    { rewrite <- (buffer_length_drop data o Ho). fold (rest_from data o).
      rewrite <- buffer_length_app, Hq. unfold buffer_length. simpl length. lia. }
    pose proof (buffer_length_nonneg m).
    destruct fuel as [|fuel]; [lia|].
    simpl. assert (Hlt : (o <? buffer_length data) = true) by (apply Z.ltb_lt; lia).
    rewrite Hlt. unfold loop_body.
    rewrite (read_prefix_full data o c b0 b1 b2 b3 m He Ho Hshort Hq). cbv zeta.
    assert (Hc : (readInt32BE b0 b1 b2 b3 <=? 0)
                 || (MAX_MESSAGE_LENGTH <? readInt32BE b0 b1 b2 b3) = true).
    { apply orb_true_iff. destruct Hbad as [Hb|Hb];
        [left; apply Z.leb_le | right; apply Z.ltb_lt]; exact Hb. }
    rewrite Hc. eexists _, []. split; [reflexivity|].
    split; [reflexivity | apply resetBuffers_idle].
  - rewrite frames_cons, <- app_assoc in Hq.
    destruct (loop_body_completes data q o c p _ Hin Hst Ho Hp Hq)
      as (c' & evs & Hbody & Hnone & Hidle & Hshort).
    assert (Hlen : buffer_length q + (buffer_length data - o)
                   = buffer_length (frame p)
                     + buffer_length (frames ps ++ b0 :: b1 :: b2 :: b3 :: m)).
    { rewrite <- (buffer_length_drop data o Ho). fold (rest_from data o).
      rewrite <- !buffer_length_app, Hq. reflexivity. }
    pose proof (buffer_length_nonneg (frames ps ++ b0 :: b1 :: b2 :: b3 :: m)).
    pose proof (buffer_length_nonneg q).
    destruct fuel as [|fuel]; [lia|].
    simpl. assert (Hlt : (o <? buffer_length data) = true) by (apply Z.ltb_lt; lia).
    rewrite Hlt, Hbody.
    set (o' := o + (buffer_length (frame p) - buffer_length q)) in *.
    assert (Hrest : [] ++ rest_from data o'
                    = frames ps ++ b0 :: b1 :: b2 :: b3 :: m).
    { rewrite app_nil_l. subst o'. rewrite rest_from_advance by lia.
      assert (E : drop (length (frame p)) (q ++ rest_from data o)
                  = frames ps ++ b0 :: b1 :: b2 :: b3 :: m)
        by (rewrite Hq; apply drop_app_length).
      rewrite drop_app in E.
      rewrite drop_ge in E by (unfold buffer_length in *; lia).
      rewrite app_nil_l in E. rewrite <- E. f_equal. unfold buffer_length. lia. }
    destruct (IH fuel data o' c' [] b0 b1 b2 b3 m I Hidle
                ltac:(lia) ltac:(lia) Hrest Hbad)
      as (c'' & evs' & Hloop & Hem & Hidle').
    rewrite Hloop. exists c'', ((Emit (utf8_decode p) :: evs) ++ evs').
    split; [rewrite app_assoc; reflexivity|]. split; [|exact Hidle'].
    simpl. rewrite emitted_app, Hnone, Hem. reflexivity.
Qed.

(** The high bit of the first byte is the sign of the decoded length. *)
Lemma readInt32BE_negative (b0 b1 b2 b3 : byte) :
  128 <= Z_of_byte b0 <-> readInt32BE b0 b1 b2 b3 < 0.
Proof.
  unfold readInt32BE.
  pose proof (Z_of_byte_range b0). pose proof (Z_of_byte_range b1).
  pose proof (Z_of_byte_range b2). pose proof (Z_of_byte_range b3).
  change (2 ^ 24) with 16777216. change (2 ^ 16) with 65536.
  change (2 ^ 8) with 256. change (2 ^ 31) with 2147483648.
  change (2 ^ 32) with 4294967296.
  cbv zeta.
  destruct (2147483648 <=? _) eqn:E;
    [apply Z.leb_le in E | apply Z.leb_gt in E]; lia.
Qed.

(** C4 (invalid length rejected).  When the bytes of a chunk, after the
    valid frames [ps] if any, complete a length prefix [b0 b1 b2 b3] that
    decodes to [n] with [n <= 0] (zero, or negative: high bit set) or
    [n > 10 MiB], [processData] logs the error "Invalid message length: n",
    hands no payload to [handleResponse] for that frame (only those of
    [ps]), drops the bytes [m] that follow, and returns with the length
    accumulator and the payload accumulator empty and no expected length. *)
Theorem invalid_length_rejected (ps : list (list byte)) (data q : list byte)
    (c : conn) (b0 b1 b2 b3 : byte) (m : list byte) :
  Forall (fun p => valid_length (buffer_length p)) ps ->
  in_frame q ->
  framer_state c = framer_after q ->
  q ++ data = frames ps ++ b0 :: b1 :: b2 :: b3 :: m ->
  readInt32BE b0 b1 b2 b3 <= 0
  \/ MAX_MESSAGE_LENGTH < readInt32BE b0 b1 b2 b3 ->
  exists c' evs,
    processData data c
    = Some (c', evs ++ [ConsoleError
                          [LogStr ("Invalid message length: "
                                   +:+ Z_to_string (readInt32BE b0 b1 b2 b3))]])
    /\ emitted (evs ++ [ConsoleError
                          [LogStr ("Invalid message length: "
                                   +:+ Z_to_string (readInt32BE b0 b1 b2 b3))]])
       = map utf8_decode ps
    /\ lengthBuffer c' = [] /\ messageBuffer c' = [] /\ expectedLength c' = None.
Proof.
  intros Hps Hin Hst Hq Hbad. unfold processData.
  destruct (processData_loop_invalid ps Hps (length data) data 0 c q b0 b1 b2 b3 m
              Hin Hst)
    as (c' & evs & Hloop & Hem & Hidle); try assumption.
  - pose proof (buffer_length_nonneg data). lia.
  - unfold buffer_length. lia.
  - exists c', evs. split; [exact Hloop|].
    split; [rewrite emitted_app, Hem; apply app_nil_r|].
    unfold framer_idle, framer_state in Hidle. injection Hidle as -> -> ->. auto.
Qed.

(** ** The accumulator invariant *)

Lemma processData_inv (data : list byte) (c : conn) :
  framer_inv c ->
  exists c' evs, processData data c = Some (c', evs) /\ framer_inv c'.
Proof.
  intros Hinv. unfold processData.
  apply processData_loop_inv; [exact Hinv | |].
  - pose proof (buffer_length_nonneg data). lia.
  - unfold buffer_length. lia.
Qed.

Lemma sendCommand_framer (now : Z) (random : string) (p : promise)
    (command : string) (params : jsval) (c : conn) :
  framer_state (fst (sendCommand now random p command params c)) = framer_state c.
Proof.
  unfold sendCommand.
  destruct (bind (JSON_stringify _) _); reflexivity.
Qed.

Lemma fire_timeout_framer (t : timer) (c : conn) :
  framer_state (fst (fire_timeout t c)) = framer_state c.
Proof.
  unfold fire_timeout. destruct (responseCallbacks c !! timer_requestId t); reflexivity.
Qed.

Lemma handleResponse_framer (s : string) (c : conn) :
  framer_state (fst (handleResponse s c)) = framer_state c.
Proof.
  unfold handleResponse.
  destruct (requestId_of s); [|reflexivity].
  destruct (callbacks_get _ _); reflexivity.
Qed.

Lemma framer_inv_state (c c' : conn) :
  framer_state c' = framer_state c -> framer_inv c -> framer_inv c'.
Proof.
  unfold framer_state, framer_inv. intros E. injection E as -> -> ->. auto.
Qed.

Lemma reachable_inv (c : conn) : reachable c -> framer_inv c.
Proof.
  induction 1 as [h p | b c _ IH | data c c' evs _ IH Hp
                  | now random p command params c _ IH | t c _ IH].
  - unfold framer_inv. simpl. split; [lia | reflexivity].
  - exact IH.
  - destruct (processData_inv data c IH) as (c1 & evs1 & E & Hinv).
    rewrite E in Hp. injection Hp as <- _. exact Hinv.
  - exact (framer_inv_state _ _ (sendCommand_framer _ _ _ _ _ _) IH).
  - exact (framer_inv_state _ _ (fire_timeout_framer _ _) IH).
Qed.

Lemma read_prefix_silent (data : list byte) (o : Z) (c : conn) :
  emitted (flow_events (read_prefix data o c)) = [].
Proof.
  unfold read_prefix. destruct (expectedLength c); [reflexivity|]. cbv zeta.
  simpl lengthBuffer.
  destruct (lengthBuffer c ++ _) as [|? [|? [|? [|? [|? ?]]]]]; try reflexivity.
  destruct (_ || _); reflexivity.
Qed.

(** A pass of the loop that hands a payload to [handleResponse] ends
    with both accumulators empty and no expected length. *)
Lemma loop_body_delivery_resets (data : list byte) (o : Z) (c : conn) :
  emitted (flow_events (loop_body data o c)) <> [] ->
  framer_idle (flow_conn (loop_body data o c)).
Proof.
  unfold loop_body. pose proof (read_prefix_silent data o c) as Hsilent.
  destruct (read_prefix data o c) as [o1 c1 evs1|c1 evs1]; simpl in Hsilent.
  - unfold read_message. destruct (expectedLength c1) as [expected|].
    + cbv zeta. destruct (_ =? expected).
      * destruct (handleResponse _ _). intros _. apply resetBuffers_idle.
      * simpl. rewrite emitted_app, Hsilent. intros H. contradiction.
    + simpl. rewrite emitted_app, Hsilent. intros H. contradiction.
  - simpl. rewrite Hsilent. intros H. contradiction.
Qed.

(** C9 (two-stage accumulator).  In every state [c] the connection can be
    in between two calls of [processData], exactly one stage is active:
    either no expected length is known, the length accumulator holds 0 to
    3 bytes and the payload accumulator is empty, or an expected length [L]
    is known, the length accumulator is empty and the payload accumulator
    holds fewer than [L] bytes.  From such a state [processData] returns on
    any chunk, in a state of the same kind.  And a pass of its loop that
    delivers a complete frame ends with both accumulators empty and the
    expected length unset. *)
Theorem two_stage_accumulator (c : conn) (data : list byte) (o : Z) :
  reachable c ->
  match expectedLength c with
  | None => (length (lengthBuffer c) <= 3)%nat /\ messageBuffer c = []
  | Some expected =>
    lengthBuffer c = [] /\ buffer_length (messageBuffer c) < expected
  end
  /\ (exists c' evs, processData data c = Some (c', evs) /\ framer_inv c')
  /\ (emitted (flow_events (loop_body data o c)) <> [] ->
      lengthBuffer (flow_conn (loop_body data o c)) = []
      /\ messageBuffer (flow_conn (loop_body data o c)) = []
      /\ expectedLength (flow_conn (loop_body data o c)) = None).
Proof.
  intros Hreach. pose proof (reachable_inv c Hreach) as Hinv.
  split; [exact Hinv|]. split; [exact (processData_inv data c Hinv)|].
  intros Hemit. pose proof (loop_body_delivery_resets data o c Hemit) as Hidle.
  unfold framer_idle, framer_state in Hidle. injection Hidle as -> -> ->. auto.
Qed.

(** ** Request identifiers and the registry *)

Lemma Z_to_string_head (n : Z) :
  exists ch rest, Z_to_string n = String ch rest /\ ch <> "d"%char.
Proof.
  unfold Z_to_string. destruct (Z.to_int n) as [u|u]; simpl.
  - destruct u; simpl; eexists _, _; (split; [reflexivity | discriminate]).
  - eexists _, _; (split; [reflexivity | discriminate]).
Qed.

Lemma generateRequestId_nonempty (now : Z) (random : string) :
  generateRequestId now random <> "".
Proof.
  unfold generateRequestId.
  destruct (Z_to_string_head now) as (ch & rest & -> & _). discriminate.
Qed.

Lemma generateRequestId_not_default (now : Z) (random : string) :
  generateRequestId now random <> "default".
Proof.
  unfold generateRequestId.
  destruct (Z_to_string_head now) as (ch & rest & -> & Hch).
  simpl. intros E. injection E as E _. apply Hch.
  subst ch. reflexivity.
Qed.

Lemma handleResponse_registry (s : string) (c : conn) :
  responseCallbacks (fst (handleResponse s c)) ⊆ responseCallbacks c.
Proof.
  unfold handleResponse.
  destruct (requestId_of s) as [requestId|]; [|reflexivity].
  destruct (callbacks_get _ _); [|reflexivity].
  simpl. destruct requestId; simpl; try reflexivity.
  apply delete_subseteq.
Qed.

Lemma read_prefix_registry (data : list byte) (o : Z) (c : conn) :
  responseCallbacks (flow_conn (read_prefix data o c)) = responseCallbacks c.
Proof.
  unfold read_prefix. destruct (expectedLength c); [reflexivity|]. cbv zeta.
  simpl lengthBuffer.
  destruct (lengthBuffer c ++ _) as [|? [|? [|? [|? [|? ?]]]]]; try reflexivity.
  destruct (_ || _); reflexivity.
Qed.

Lemma read_message_registry (data : list byte) (o : Z) (c : conn) :
  responseCallbacks (flow_conn (read_message data o c)) ⊆ responseCallbacks c.
Proof.
  unfold read_message. destruct (expectedLength c) as [expected|]; [|reflexivity].
  cbv zeta. destruct (_ =? expected); [|reflexivity].
  match goal with |- context [handleResponse ?s ?c1] =>
    pose proof (handleResponse_registry s c1) as H;
    destruct (handleResponse s c1) end.
  exact H.
Qed.

Lemma loop_body_registry (data : list byte) (o : Z) (c : conn) :
  responseCallbacks (flow_conn (loop_body data o c)) ⊆ responseCallbacks c.
Proof.
  unfold loop_body.
  pose proof (read_prefix_registry data o c) as H1.
  destruct (read_prefix data o c) as [o1 c1 evs1|c1 evs1]; simpl in H1.
  - pose proof (read_message_registry data o1 c1) as H2.
    destruct (read_message data o1 c1); simpl in *; rewrite <- H1; exact H2.
  - simpl. rewrite H1. reflexivity.
Qed.

Lemma processData_loop_registry (fuel : nat) :
  forall (data : list byte) (o : Z) (c c' : conn) (evs : list event),
    processData_loop fuel data o c = Some (c', evs) ->
    responseCallbacks c' ⊆ responseCallbacks c.
Proof.
  induction fuel as [|fuel IH]; intros data o c c' evs; simpl.
  - destruct (o <? buffer_length data); [discriminate|].
    intros E. injection E as <- _. reflexivity.
  - destruct (o <? buffer_length data).
    + pose proof (loop_body_registry data o c) as Hb.
      destruct (loop_body data o c) as [o1 c1 evs1|c1 evs1]; simpl in Hb.
      * destruct (processData_loop fuel data o1 c1) as [[c2 evs2]|] eqn:E;
          [|discriminate].
        intros E'. injection E' as <- _.
        etransitivity; [exact (IH _ _ _ _ _ E) | exact Hb].
      * intros E. injection E as <- _. exact Hb.
    + intros E. injection E as <- _. reflexivity.
Qed.

Lemma reachable_registry (c : conn) : reachable c -> registry_generated c.
Proof.
  induction 1 as [h p | b c _ IH | data c c' evs _ IH Hp
                  | now random p command params c _ IH | t c _ IH];
    intros X cb HX.
  - simpl in HX. rewrite lookup_empty in HX. discriminate.
  - exact (IH X cb HX).
  - apply (IH X cb). eapply lookup_weaken; [exact HX|].
    exact (processData_loop_registry _ _ _ _ _ _ Hp).
  - assert (E : responseCallbacks (fst (sendCommand now random p command params c))
                = <[generateRequestId now random := ResponseCallback p]>
                    (responseCallbacks c)).
    { unfold sendCommand. destruct (bind (JSON_stringify _) _); reflexivity. }
    rewrite E in HX. apply lookup_insert_Some in HX.
    destruct HX as [[<- _]|[_ HX]]; [eauto | exact (IH X cb HX)].
  - unfold fire_timeout in HX.
    destruct (responseCallbacks c !! timer_requestId t); simpl in HX.
    + apply lookup_delete_Some in HX. exact (IH X cb (proj2 HX)).
    + exact (IH X cb HX).
Qed.

Lemma registered_nonempty (c : conn) (X : string) (cb : callback) :
  reachable c -> responseCallbacks c !! X = Some cb -> X <> "".
Proof.
  intros Hr HX. destruct (reachable_registry c Hr X cb HX) as (now & random & ->).
  apply generateRequestId_nonempty.
Qed.

Lemma default_not_registered (c : conn) :
  reachable c -> responseCallbacks c !! "default" = None.
Proof.
  intros Hr. destruct (responseCallbacks c !! "default") as [cb|] eqn:E;
    [|reflexivity].
  destruct (reachable_registry c Hr _ cb E) as (now & random & Hd).
  symmetry in Hd. exfalso. exact (generateRequestId_not_default _ _ Hd).
Qed.

(** ** Responses, callbacks and timers *)

Lemma truthy_nonempty_string (X : string) :
  X <> "" -> truthy (Some (JStr X)) = true.
Proof.
  intros H. simpl. destruct (String.eqb_spec X ""); [contradiction | reflexivity].
Qed.

Lemma requestId_of_payload_for (X payload : string) :
  X <> "" -> payload_for X payload -> requestId_of payload = Ok (JStr X).
Proof.
  intros HX (response & Hparse & Hid). unfold requestId_of, bind.
  rewrite Hparse, Hid. unfold js_or. rewrite (truthy_nonempty_string X HX).
  reflexivity.
Qed.

(** A payload whose identifier is registered: the callback runs on it and
    the registration goes. *)
Lemma handleResponse_matched (c : conn) (X payload : string) (cb : callback) :
  responseCallbacks c !! X = Some cb ->
  X <> "" ->
  payload_for X payload ->
  handleResponse payload c
  = (set_responseCallbacks (delete X (responseCallbacks c)) c,
     run_callback cb payload).
Proof.
  intros Hreg HX Hfor. unfold handleResponse.
  rewrite (requestId_of_payload_for X payload HX Hfor). simpl.
  rewrite Hreg. reflexivity.
Qed.

(** A payload whose identifier is not registered changes nothing. *)
Lemma handleResponse_unmatched (c : conn) (payload : string) (requestId : json) :
  requestId_of payload = Ok requestId ->
  callbacks_get (responseCallbacks c) requestId = None ->
  handleResponse payload c = (c, []).
Proof.
  intros Hid Hnone. unfold handleResponse. rewrite Hid, Hnone. reflexivity.
Qed.

Lemma settlements_app (p : promise) (a b : list event) :
  settlements p (a ++ b) = settlements p a ++ settlements p b.
Proof.
  induction a as [|e a IH]; [reflexivity|].
  destruct e; simpl; try exact IH; destruct (Nat.eqb p p0); simpl;
    rewrite IH; reflexivity.
Qed.

(** The callback calls exactly one of [resolve] and [reject], once. *)
Lemma run_callback_settles_once (p : promise) (payload : string) :
  exists ev,
    run_callback (ResponseCallback p) payload = [ev]
    /\ settlements p [ev] = [ev].
Proof.
  unfold run_callback.
  match goal with |- context [match ?a with Ok _ => _ | Throw _ => _ end] =>
    destruct a as [ev|e] eqn:E end.
  - exists ev. split; [reflexivity|].
    unfold bind in E.
    repeat match type of E with
           | context [match ?x with _ => _ end] => destruct x; try discriminate
           end;
      injection E as <-; simpl; rewrite Nat.eqb_refl; reflexivity.
  - eexists. split; [reflexivity|]. simpl. rewrite Nat.eqb_refl. reflexivity.
Qed.

Lemma fire_timeout_registered (t : timer) (c : conn) (cb : callback) :
  responseCallbacks c !! timer_requestId t = Some cb ->
  fire_timeout t c
  = (set_responseCallbacks (delete (timer_requestId t) (responseCallbacks c)) c,
     [Reject (timer_promise t)
        (NewError (JStr ("Command timed out after 2 minutes: "
                         +:+ timer_command t)))]).
Proof. intros H. unfold fire_timeout. rewrite H. reflexivity. Qed.

Lemma fire_timeout_unregistered (t : timer) (c : conn) :
  responseCallbacks c !! timer_requestId t = None ->
  fire_timeout t c = (c, []).
Proof. intros H. unfold fire_timeout. rewrite H. reflexivity. Qed.

(** C3 (at most one resolution).  Let [X] be registered with the callback
    of promise [p], and let [t] be the timer of the same request.  If a
    payload whose id is [X] is delivered and then [t] fires, or [t] fires
    and then the payload is delivered, [resolve] and [reject] are called on
    [p] exactly once over the two steps; the first step removes the
    registration of [X], and the second step changes nothing and calls
    nothing. *)
Theorem deliver_expire_exactly_once (c : conn) (X command payload : string)
    (p : promise) :
  reachable c ->
  responseCallbacks c !! X = Some (ResponseCallback p) ->
  payload_for X payload ->
  let t := request_timer X command p in
  let deliver1 := handleResponse payload c in
  let expire2 := fire_timeout t (fst deliver1) in
  let expire1 := fire_timeout t c in
  let deliver2 := handleResponse payload (fst expire1) in
  (length (settlements p (snd deliver1 ++ snd expire2)) = 1%nat
   /\ responseCallbacks (fst deliver1) !! X = None
   /\ expire2 = (fst deliver1, []))
  /\ (length (settlements p (snd expire1 ++ snd deliver2)) = 1%nat
      /\ responseCallbacks (fst expire1) !! X = None
      /\ deliver2 = (fst expire1, [])).
Proof.
  intros Hreach Hreg Hfor t deliver1 expire2 expire1 deliver2.
  pose proof (registered_nonempty c X _ Hreach Hreg) as HX.
  split.
  - subst expire2 deliver1.
    rewrite (handleResponse_matched c X payload _ Hreg HX Hfor). cbn [fst snd].
    assert (Hgone : responseCallbacks
                      (set_responseCallbacks (delete X (responseCallbacks c)) c)
                    !! timer_requestId t = None)
      by (simpl; apply lookup_delete_eq).
    rewrite (fire_timeout_unregistered t _ Hgone). cbn [fst snd].
    destruct (run_callback_settles_once p payload) as (ev & -> & Hev).
    rewrite app_nil_r, Hev. split; [reflexivity|]. split; [exact Hgone | reflexivity].
  - subst deliver2 expire1.
    rewrite (fire_timeout_registered t c _ Hreg). cbn [fst snd].
    change (timer_requestId t) with X. change (timer_promise t) with p.
    assert (Hgone : responseCallbacks
                      (set_responseCallbacks (delete X (responseCallbacks c)) c)
                    !! X = None)
      by (simpl; apply lookup_delete_eq).
    rewrite (handleResponse_unmatched _ payload (JStr X)
               (requestId_of_payload_for X payload HX Hfor) Hgone).
    simpl. rewrite Nat.eqb_refl. split; [reflexivity|].
    split; [apply lookup_delete_eq | reflexivity].
Qed.

Lemma sendCommand_sent (now : Z) (random command : string) (params : jsval)
    (p : promise) (c : conn) (commandString : string) :
  JSON_stringify
    (mkCommandObj "2.0" command
       (match params with Some v => v | None => JObj [] end)
       (generateRequestId now random)) = Ok commandString ->
  buffer_length (utf8_encode commandString) <= 2 ^ 31 - 1 ->
  sendCommand now random p command params c
  = (set_responseCallbacks
       (<[generateRequestId now random := ResponseCallback p]>
          (responseCallbacks c)) c,
     (if isConnected c then [] else connect c)
     ++ [SocketWrite (frame (utf8_encode commandString));
         SetTimeout (request_timer (generateRequestId now random) command p)
                    120000]).
Proof.
  intros Hs Hlen. unfold sendCommand. rewrite Hs. unfold bind, frame_of_string, bind.
  unfold writeInt32BE.
  pose proof (buffer_length_nonneg (utf8_encode commandString)).
  destruct (buffer_length (utf8_encode commandString) <? - 2 ^ 31) eqn:E1;
    [apply Z.ltb_lt in E1; lia|].
  destruct (2 ^ 31 - 1 <? buffer_length (utf8_encode commandString)) eqn:E2;
    [apply Z.ltb_lt in E2; lia|].
  reflexivity.
Qed.

(** Whatever its inputs, [sendCommand] sets no timer with a delay other
    than 120000 ms. *)
Lemma sendCommand_delay (now : Z) (random command : string) (params : jsval)
    (p : promise) (c : conn) (t : timer) (ms : Z) :
  In (SetTimeout t ms) (snd (sendCommand now random p command params c)) ->
  t = request_timer (generateRequestId now random) command p /\ ms = 120000.
Proof.
  unfold sendCommand.
  assert (Hc : forall t ms,
             ~ In (SetTimeout t ms) (if isConnected c then [] else connect c)).
  { intros t' ms'. unfold connect. destruct (isConnected c); simpl; [tauto|].
    destruct (socket_connect_error _ _); simpl; intros H;
      repeat (destruct H as [H|H]; [discriminate|]); exact H. }
  destruct (bind (JSON_stringify _) _); cbn [snd]; intros H;
    apply in_app_or in H; destruct H as [H|H];
    try (exfalso; exact (Hc _ _ H)); simpl in H.
  - destruct H as [E|[E|[]]]; [discriminate|]. injection E as <- <-. auto.
  - destruct H as [E|[]]. discriminate.
Qed.

Lemma timers_set_app (a b : list event) :
  timers_set (a ++ b) = timers_set a ++ timers_set b.
Proof.
  induction a as [|e a IH]; [reflexivity|].
  destruct e; simpl; rewrite IH; reflexivity.
Qed.

Lemma all_settlements_app (a b : list event) :
  all_settlements (a ++ b) = all_settlements a ++ all_settlements b.
Proof.
  induction a as [|e a IH]; [reflexivity|].
  destruct e; simpl; rewrite IH; reflexivity.
Qed.

(** Connecting sets no timer, writes nothing and settles nothing. *)
Lemma connect_quiet (c : conn) :
  timers_set (if isConnected c then [] else connect c) = []
  /\ all_settlements (if isConnected c then [] else connect c) = []
  /\ (forall bytes,
        ~ In (SocketWrite bytes) (if isConnected c then [] else connect c)).
Proof.
  unfold connect. destruct (isConnected c); [simpl; tauto|].
  destruct (socket_connect_error _ _); simpl;
    (split; [reflexivity|]); (split; [reflexivity|]);
    intros bytes H; repeat (destruct H as [H|H]; [discriminate|]); exact H.
Qed.

(** What [sendCommand] does when something throws inside its [try]. *)
Lemma sendCommand_thrown (now : Z) (random command : string) (params : jsval)
    (p : promise) (c : conn) (error : js_exn) :
  send_throws now random command params error ->
  sendCommand now random p command params c
  = (set_responseCallbacks
       (<[generateRequestId now random := ResponseCallback p]>
          (responseCallbacks c)) c,
     (if isConnected c then [] else connect c) ++ [Reject p (Rethrown error)]).
Proof.
  unfold send_throws, sendCommand.
  intros [Hs|(commandString & Hs & Hlen & ->)]; rewrite Hs; [reflexivity|].
  unfold bind, frame_of_string, bind, writeInt32BE.
  destruct (buffer_length (utf8_encode commandString) <? - 2 ^ 31) eqn:E1;
    [reflexivity|].
  destruct (2 ^ 31 - 1 <? buffer_length (utf8_encode commandString)) eqn:E2;
    [reflexivity|].
  apply Z.ltb_ge in E2. lia.
Qed.

(** C5, as the code has it (the delay is fixed).  [sendCommand] has no
    timeout parameter: whatever the inputs of a call, every timer it sets
    is its own, with the delay 120000 ms.  A call whose message is
    serialised and framed registers its identifier [X] with the callback of
    its promise and sets exactly one timer; a call in which serialising or
    framing throws sets none, and rejects its promise with the exception.
    When the timer fires while [X] is still
    registered (no matching response has come), the registration of [X] is
    removed and the promise is rejected with the error "Command timed out
    after 2 minutes: " followed by the method name; a payload whose id is
    [X] delivered after that changes nothing and calls nothing. *)
Theorem request_timeout (now : Z) (random command : string) (params : jsval)
    (p : promise) (c : conn) :
  let X := generateRequestId now random in
  let t := request_timer X command p in
  let sent := sendCommand now random p command params c in
  (forall t' ms, In (SetTimeout t' ms) (snd sent) -> t' = t /\ ms = 120000)
  /\ (forall commandString,
        JSON_stringify
          (mkCommandObj "2.0" command
             (match params with Some v => v | None => JObj [] end) X)
        = Ok commandString ->
        buffer_length (utf8_encode commandString) <= 2 ^ 31 - 1 ->
        responseCallbacks (fst sent) !! X = Some (ResponseCallback p)
        /\ timers_set (snd sent) = [(t, 120000)])
  /\ (forall error,
        send_throws now random command params error ->
        timers_set (snd sent) = []
        /\ all_settlements (snd sent) = [Reject p (Rethrown error)])
  /\ (forall (c1 : conn) (cb : callback),
        responseCallbacks c1 !! X = Some cb ->
        let expired := fire_timeout t c1 in
        snd expired
        = [Reject p (NewError (JStr ("Command timed out after 2 minutes: "
                                     +:+ command)))]
        /\ responseCallbacks (fst expired) = delete X (responseCallbacks c1)
        /\ responseCallbacks (fst expired) !! X = None
        /\ (forall payload,
              payload_for X payload ->
              handleResponse payload (fst expired) = (fst expired, []))).
Proof.
  intros X t sent.
  split; [intros t' ms; apply sendCommand_delay|].
  split.
  { intros commandString Hs Hlen.
    assert (Hsent := sendCommand_sent now random command params p c commandString
                       Hs Hlen).
    fold X in Hsent. fold t in Hsent. fold sent in Hsent.
    split; [rewrite Hsent; simpl; apply lookup_insert_eq|].
    rewrite Hsent. cbn [snd]. rewrite timers_set_app.
    rewrite (proj1 (connect_quiet c)). reflexivity. }
  split.
  { intros error Hthrows. subst sent.
    rewrite (sendCommand_thrown now random command params p c error Hthrows).
    cbn [snd]. rewrite timers_set_app, all_settlements_app.
    rewrite (proj1 (connect_quiet c)), (proj1 (proj2 (connect_quiet c))).
    split; reflexivity. }
  intros c1 cb Hreg expired. subst expired.
  rewrite (fire_timeout_registered t c1 cb Hreg). cbn [fst snd].
  change (timer_requestId t) with X. change (timer_promise t) with p.
  change (timer_command t) with command.
  split; [reflexivity|]. split; [reflexivity|].
  assert (Hgone : responseCallbacks
                    (set_responseCallbacks (delete X (responseCallbacks c1)) c1)
                  !! X = None)
    by (simpl; apply lookup_delete_eq).
  split; [exact Hgone|].
  intros payload Hfor.
  apply (handleResponse_unmatched _ payload (JStr X)); [|exact Hgone].
  apply requestId_of_payload_for; [apply generateRequestId_nonempty | exact Hfor].
Qed.


(** The [catch] of the callback [sendCommand] registers: run on a text
    that [JSON.parse] refuses, the callback rejects its promise with
    "Failed to parse response: " and the exception's message. *)
Lemma run_callback_parse_failure (p : promise) (payload : string) (e : js_exn) :
  JSON_parse payload = Throw e ->
  run_callback (ResponseCallback p) payload
  = [Reject p (NewError (JStr ("Failed to parse response: " +:+ exn_message e)))].
Proof.
  intros H. unfold run_callback, bind. rewrite H. reflexivity.
Qed.



(** What the callback does with a payload that parses to an object. *)
Lemma run_callback_object (p : promise) (payload : string)
    (fields : list (string * json)) :
  JSON_parse payload = Ok (JObj fields) ->
  run_callback (ResponseCallback p) payload
  = if truthy (own_property "error" fields) then
      match get_prop (own_property "error" fields) "message" with
      | Ok message =>
        [Reject p (NewError (js_or message (JStr "Unknown error from Revit")))]
      | Throw e =>
        [Reject p (NewError (JStr ("Failed to parse response: "
                                   +:+ exn_message e)))]
      end
    else [Resolve p (own_property "result" fields)].
Proof.
  intros H. unfold run_callback, bind. rewrite H.
  change (get_prop (Some (JObj fields)) "error")
    with (@Ok jsval (own_property "error" fields)).
  change (get_prop (Some (JObj fields)) "result")
    with (@Ok jsval (own_property "result" fields)).
  cbv beta iota.
  destruct (truthy (own_property "error" fields)); [|reflexivity].
  destruct (get_prop (own_property "error" fields) "message"); reflexivity.
Qed.

(** C7, as the code has it (an empty message is replaced).  Let [X] be
    registered with the callback of promise [p] and let a payload be
    delivered that parses to an object whose [id] is [X].  The registration
    of [X] is removed.  If the object carries an [error] object whose
    [message] is the string [msg], the promise is rejected with [msg] when
    [msg] is not empty and with "Unknown error from Revit" when it is; if
    it carries no [error] (or a falsy one, such as [null]), the promise is
    resolved with its [result]. *)
Theorem result_error_propagation (c : conn) (X payload : string) (p : promise)
    (fields : list (string * json)) :
  reachable c ->
  responseCallbacks c !! X = Some (ResponseCallback p) ->
  JSON_parse payload = Ok (JObj fields) ->
  own_property "id" fields = Some (JStr X) ->
  let delivered := handleResponse payload c in
  responseCallbacks (fst delivered) = delete X (responseCallbacks c)
  /\ (forall (efields : list (string * json)) (msg : string),
        own_property "error" fields = Some (JObj efields) ->
        own_property "message" efields = Some (JStr msg) ->
        snd delivered
        = [Reject p (NewError (JStr (if String.eqb msg ""
                                     then "Unknown error from Revit"
                                     else msg)))])
  /\ (truthy (own_property "error" fields) = false ->
      snd delivered = [Resolve p (own_property "result" fields)]).
Proof.
  intros Hreach Hreg Hparse Hid delivered.
  pose proof (registered_nonempty c X _ Hreach Hreg) as HX.
  assert (Hfor : payload_for X payload).
  { exists (JObj fields). split; [exact Hparse | simpl; rewrite Hid; reflexivity]. }
  subst delivered.
  rewrite (handleResponse_matched c X payload _ Hreg HX Hfor). cbn [fst snd].
  rewrite (run_callback_object p payload fields Hparse).
  split; [reflexivity|]. split.
  - intros efields msg He Hm. rewrite He. simpl. rewrite Hm. simpl.
    destruct (String.eqb msg ""); reflexivity.
  - intros He. rewrite He. reflexivity.
Qed.

(** C8 (unknown identifier dropped).  A payload that parses and whose
    identifier ([response.id || "default"]) has no registered callback is
    dropped: [handleResponse] returns, leaves the connection as it was
    (every registration, both accumulators, the expected length) and calls
    nothing, neither [resolve] nor [reject] nor [console.error]. *)
Theorem unknown_id_dropped (c : conn) (payload : string) (requestId : json) :
  requestId_of payload = Ok requestId ->
  callbacks_get (responseCallbacks c) requestId = None ->
  handleResponse payload c = (c, [])
  /\ responseCallbacks (fst (handleResponse payload c)) = responseCallbacks c
  /\ framer_state (fst (handleResponse payload c)) = framer_state c
  /\ all_settlements (snd (handleResponse payload c)) = [].
Proof.
  intros Hid Hnone.
  rewrite (handleResponse_unmatched c payload requestId Hid Hnone).
  auto.
Qed.

(** C10, as the code has it ([null] excepted).  When a payload parses to a
    value other than [null] whose [id] is absent or falsy ([null], [false],
    [0], the empty string), [handleResponse] looks the registry up under
    the key "default"; no identifier made by [generateRequestId] is
    "default", so in a reachable state nothing is registered under it and
    the payload is dropped: the connection stays as it was and nothing is
    called.  When the payload parses to [null], reading its [id] throws;
    [handleResponse] catches and logs the exception, and the connection
    stays as it was. *)
Theorem missing_id_falls_back_to_default (c : conn) (payload : string)
    (response : json) :
  reachable c ->
  JSON_parse payload = Ok response ->
  (forall now random, generateRequestId now random <> "default")
  /\ responseCallbacks c !! "default" = None
  /\ (forall id : jsval,
        get_prop (Some response) "id" = Ok id ->
        truthy id = false ->
        requestId_of payload = Ok (JStr "default")
        /\ handleResponse payload c = (c, []))
  /\ (response = JNull ->
      handleResponse payload c
      = (c, [ConsoleError [LogStr "Error parsing response:";
                           LogExn (nullish_read_error (Some JNull) "id")];
             ConsoleError [LogStr "Response data:"; LogStr payload]])).
Proof.
  intros Hreach Hparse.
  split; [exact generateRequestId_not_default|].
  pose proof (default_not_registered c Hreach) as Hdef.
  split; [exact Hdef|]. split.
  - intros id Hid Hfalsy.
    assert (Hreq : requestId_of payload = Ok (JStr "default")).
    { unfold requestId_of, bind. rewrite Hparse, Hid. unfold js_or.
      rewrite Hfalsy. destruct id; reflexivity. }
    split; [exact Hreq|].
    exact (handleResponse_unmatched c payload _ Hreq Hdef).
  - intros ->. unfold handleResponse, requestId_of, bind. rewrite Hparse.
    reflexivity.
Qed.

End Properties.

(** * Further properties of the connection *)

Section Transport.
Context `{rt : Runtime}.

(** ** The framer against [deliver] *)

Lemma conn_eq (c c' : conn) :
  outside_framer c = outside_framer c' ->
  framer_state c = framer_state c' ->
  c = c'.
Proof.
  destruct c, c'. unfold outside_framer, framer_state. simpl.
  intros E1 E2. injection E1 as -> -> -> ->. injection E2 as -> -> ->.
  reflexivity.
Qed.

Lemma outside_resetBuffers (c : conn) :
  outside_framer (resetBuffers c) = outside_framer c.
Proof. reflexivity. Qed.

(** [handleResponse] reads and writes the registry only. *)
Lemma handleResponse_outside (s : string) (c1 c : conn) :
  outside_framer c1 = outside_framer c ->
  snd (handleResponse s c1) = snd (handleResponse s c)
  /\ outside_framer (fst (handleResponse s c1))
     = outside_framer (fst (handleResponse s c)).
Proof.
  unfold outside_framer. intros E. injection E as Eh Ep Ei Er.
  unfold handleResponse. rewrite Er.
  destruct (requestId_of s) as [requestId|e].
  - destruct (callbacks_get (responseCallbacks c) requestId); simpl;
      rewrite ?Eh, ?Ep, ?Ei, ?Er; auto.
  - simpl. rewrite Eh, Ep, Ei, Er. auto.
Qed.

Lemma deliver_outside (payloads : list string) :
  forall c1 c : conn,
    outside_framer c1 = outside_framer c ->
    snd (deliver payloads c1) = snd (deliver payloads c)
    /\ outside_framer (fst (deliver payloads c1))
       = outside_framer (fst (deliver payloads c)).
Proof.
  induction payloads as [|s rest IH]; intros c1 c E; [simpl; auto|].
  simpl. destruct (handleResponse_outside s c1 c E) as [E1 E2].
  destruct (handleResponse s c1) as [a1 e1], (handleResponse s c) as [a e].
  simpl in E1, E2. subst e1.
  destruct (IH a1 a E2) as [E3 E4].
  destruct (deliver rest a1) as [b1 f1], (deliver rest a) as [b f].
  simpl in *. subst f1. auto.
Qed.

Lemma deliver_framer (payloads : list string) :
  forall c : conn, framer_state (fst (deliver payloads c)) = framer_state c.
Proof.
  induction payloads as [|s rest IH]; intros c; [reflexivity|].
  simpl. pose proof (handleResponse_framer s c) as H.
  destruct (handleResponse s c) as [c1 e1]. simpl in H.
  specialize (IH c1). destruct (deliver rest c1) as [c2 e2]. simpl in *.
  congruence.
Qed.

Lemma deliver_app (a b : list string) (c : conn) :
  deliver (a ++ b) c
  = (fst (deliver b (fst (deliver a c))),
     snd (deliver a c) ++ snd (deliver b (fst (deliver a c)))).
Proof.
  revert c. induction a as [|s a IH]; intros c.
  - simpl. destruct (deliver b c); reflexivity.
  - simpl. destruct (handleResponse s c) as [c1 e1].
    rewrite (IH c1). destruct (deliver a c1) as [c2 e2]. simpl.
    rewrite <- app_assoc. reflexivity.
Qed.

Lemma read_message_shape (data : list byte) (o : Z) (c1 c : conn) :
  outside_framer c1 = outside_framer c ->
  pass_shape c (read_message data o c1).
Proof.
  intros E. unfold read_message.
  destruct (expectedLength c1) as [expected|]; [|constructor; exact E].
  cbv zeta. destruct (_ =? expected).
  - match goal with |- context [handleResponse ?s ?c2] =>
      pose proof (pass_delivers c (o + Z.min (expected - buffer_length (messageBuffer c1))
                                              (buffer_length data - o)) c2 s) as H;
      destruct (handleResponse s c2) end.
    apply H. exact E.
  - constructor. exact E.
Qed.

Lemma loop_body_shape (data : list byte) (o : Z) (c : conn) :
  pass_shape c (loop_body data o c).
Proof.
  unfold loop_body.
  assert (H : match read_prefix data o c with
              | Continue _ c1 evs1 =>
                evs1 = [] /\ outside_framer c1 = outside_framer c
              | Return c1 evs1 => pass_shape c (Return c1 evs1)
              end).
  { unfold read_prefix. destruct (expectedLength c); [auto|]. cbv zeta.
    simpl lengthBuffer.
    destruct (lengthBuffer c ++ _) as [|b0 [|b1 [|b2 [|b3 [|? ?]]]]]; auto.
    destruct ((readInt32BE b0 b1 b2 b3 <=? 0)
              || (MAX_MESSAGE_LENGTH <? readInt32BE b0 b1 b2 b3)) eqn:Hv; auto.
    apply pass_rejects; [reflexivity|].
    apply orb_true_iff in Hv. destruct Hv as [Hv|Hv];
      [left; apply Z.leb_le | right; apply Z.ltb_lt]; exact Hv. }
  destruct (read_prefix data o c) as [o1 c1 evs1|c1 evs1]; [|exact H].
  destruct H as [-> E].
  pose proof (read_message_shape data o1 c1 c E) as Hm.
  destruct (read_message data o1 c1); simpl; exact Hm.
Qed.

Lemma rest_after_frame (data q p rest : list byte) (o : Z) :
  0 <= o ->
  buffer_length q < buffer_length (frame p) ->
  q ++ rest_from data o = frame p ++ rest ->
  rest_from data (o + (buffer_length (frame p) - buffer_length q)) = rest.
Proof.
  intros Ho Hshort Hq. rewrite rest_from_advance by lia.
  assert (E : drop (length (frame p)) (q ++ rest_from data o) = rest)
    by (rewrite Hq; apply drop_app_length).
  rewrite drop_app in E.
  rewrite drop_ge in E by (unfold buffer_length in *; lia).
  rewrite app_nil_l in E. rewrite <- E. f_equal. unfold buffer_length. lia.
Qed.

(** The loop over a stream of valid frames does what [deliver] does with
    their payloads, and nothing else. *)
Lemma processData_loop_deliver (ps : list (list byte)) :
  Forall (fun p => valid_length (buffer_length p)) ps ->
  forall (fuel : nat) (data : list byte) (o : Z) (c : conn) (q tail : list byte),
    in_frame q ->
    framer_state c = framer_after q ->
    0 <= o <= buffer_length data ->
    buffer_length data - o <= Z.of_nat fuel ->
    q ++ rest_from data o = frames ps ++ tail ->
    in_frame tail ->
    exists c' evs,
      processData_loop fuel data o c = Some (c', evs)
      /\ evs = snd (deliver (map utf8_decode ps) c)
      /\ outside_framer c' = outside_framer (fst (deliver (map utf8_decode ps) c))
      /\ framer_state c' = framer_after tail.
Proof.
  induction 1 as [|p ps Hp Hps IH];
    intros fuel data o c q tail Hin Hst Ho Hfuel Hq Htail.
  - destruct (processData_loop_frames [] ltac:(constructor) fuel data o c q tail
                Hin Hst Ho Hfuel Hq Htail) as (c' & evs & Hloop & _ & Hst').
    exists c', evs. split; [exact Hloop|]. simpl.
    rewrite frames_nil, app_nil_l in Hq.
    destruct (Z_lt_le_dec o (buffer_length data)) as [Hlt|Hge].
    + destruct (loop_body_within data q o c Hin Hst Ho
                  ltac:(rewrite Hq; exact Htail)) as (c1 & Hbody & _).
      destruct fuel as [|fuel]; [lia|].
      simpl in Hloop. apply Z.ltb_lt in Hlt. rewrite Hlt, Hbody in Hloop.
      rewrite processData_loop_done in Hloop by lia.
      injection Hloop as <- <-.
      pose proof (loop_body_shape data o c) as Hshape. rewrite Hbody in Hshape.
      inversion Hshape; subst. auto.
    + rewrite processData_loop_done in Hloop by lia.
      injection Hloop as <- <-. auto.
  - rewrite frames_cons, <- app_assoc in Hq.
    destruct (loop_body_completes data q o c p (frames ps ++ tail)
                Hin Hst Ho Hp Hq)
      as (c1 & evs1 & Hbody & _ & Hidle & Hshort).
    assert (Hlen : buffer_length q + (buffer_length data - o)
                   = buffer_length (frame p)
                     + buffer_length (frames ps ++ tail)).
    { rewrite <- (buffer_length_drop data o Ho). fold (rest_from data o).
      rewrite <- !buffer_length_app, Hq. reflexivity. }
    pose proof (buffer_length_nonneg (frames ps ++ tail)).
    pose proof (buffer_length_nonneg q).
    destruct fuel as [|fuel]; [lia|].
    simpl. assert (Hlt : (o <? buffer_length data) = true) by (apply Z.ltb_lt; lia).
    rewrite Hlt, Hbody.
    pose proof (rest_after_frame data q p _ o ltac:(lia) Hshort Hq) as Hrest.
    destruct (IH fuel data (o + (buffer_length (frame p) - buffer_length q))
                c1 [] tail I Hidle ltac:(lia) ltac:(lia)
                ltac:(rewrite app_nil_l; exact Hrest) Htail)
      as (c2 & evs2 & Hloop & Hevs & Hout & Hst2).
    rewrite Hloop. eexists _, _. split; [reflexivity|].
    pose proof (loop_body_shape data o c) as Hshape. rewrite Hbody in Hshape.
    inversion Hshape as [| o' c0 s E |]; subst.
    destruct (handleResponse_outside (utf8_decode p) c0 c E) as [E1 E2].
    destruct (deliver_outside (map utf8_decode ps)
                (resetBuffers (fst (handleResponse (utf8_decode p) c0)))
                (fst (handleResponse (utf8_decode p) c))
                ltac:(rewrite outside_resetBuffers; exact E2)) as [E3 E4].
    simpl deliver.
    destruct (handleResponse (utf8_decode p) c) as [a e].
    cbn [fst snd] in *. rewrite E1, E3, Hout, E4.
    destruct (deliver (map utf8_decode ps) a) as [b f].
    split; [reflexivity|]. split; [reflexivity | exact Hst2].
Qed.

Lemma processData_deliver (ps : list (list byte)) (data : list byte)
    (c : conn) (q tail : list byte) :
  Forall (fun p => valid_length (buffer_length p)) ps ->
  in_frame q ->
  framer_state c = framer_after q ->
  q ++ data = frames ps ++ tail ->
  in_frame tail ->
  processData data c
  = Some (set_framer (framer_after tail) (fst (deliver (map utf8_decode ps) c)),
          snd (deliver (map utf8_decode ps) c)).
Proof.
  intros Hps Hin Hst Hq Htail. unfold processData.
  destruct (processData_loop_deliver ps Hps (length data) data 0 c q tail
              Hin Hst) as (c' & evs & Hloop & -> & Hout & Hst'); try assumption.
  - pose proof (buffer_length_nonneg data). lia.
  - unfold buffer_length. lia.
  - rewrite Hloop. do 2 f_equal. apply conn_eq.
    + rewrite Hout. destruct (framer_after tail) as [[? ?] ?]. reflexivity.
    + rewrite Hst'. destruct (framer_after tail) as [[? ?] ?]. reflexivity.
Qed.

Lemma set_framer_outside (f : list byte * list byte * option Z) (c : conn) :
  outside_framer (set_framer f c) = outside_framer c.
Proof. destruct f as [[? ?] ?]. reflexivity. Qed.

Lemma set_framer_state (f : list byte * list byte * option Z) (c : conn) :
  framer_state (set_framer f c) = f.
Proof. destruct f as [[? ?] ?]. reflexivity. Qed.

Lemma set_framer_twice (f g : list byte * list byte * option Z) (c : conn) :
  set_framer f (set_framer g c) = set_framer f c.
Proof. destruct f as [[? ?] ?], g as [[? ?] ?]. reflexivity. Qed.

Lemma deliver_set_framer (payloads : list string)
    (f : list byte * list byte * option Z) (c : conn) :
  deliver payloads (set_framer f c)
  = (set_framer f (fst (deliver payloads c)), snd (deliver payloads c)).
Proof.
  destruct (deliver_outside payloads (set_framer f c) c (set_framer_outside f c))
    as [E1 E2].
  pose proof (deliver_framer payloads (set_framer f c)) as E3.
  rewrite set_framer_state in E3.
  destruct (deliver payloads (set_framer f c)) as [a e]. simpl in *.
  f_equal; [|exact E1].
  apply conn_eq; [rewrite set_framer_outside; exact E2|].
  rewrite set_framer_state. exact E3.
Qed.

(** The chunks of a stream of frames, fed one after the other. *)
Lemma feed_deliver (chunks : list (list byte)) :
  forall (ps : list (list byte)) (c : conn) (q tail : list byte),
    Forall (fun p => valid_length (buffer_length p)) ps ->
    in_frame q ->
    framer_state c = framer_after q ->
    q ++ concat chunks = frames ps ++ tail ->
    in_frame tail ->
    feed chunks c
    = Some (set_framer (framer_after tail) (fst (deliver (map utf8_decode ps) c)),
            snd (deliver (map utf8_decode ps) c)).
Proof.
  induction chunks as [|data chunks IH]; intros ps c q tail Hps Hin Hst Hq Htail.
  - simpl in Hq. rewrite app_nil_r in Hq.
    pose proof (processData_deliver ps [] c q tail Hps Hin Hst
                  ltac:(rewrite app_nil_r; exact Hq) Htail) as Hp.
    unfold processData in Hp. simpl in Hp. simpl. exact Hp.
  - simpl in Hq. rewrite app_assoc in Hq.
    destruct (frames_cut ps Hps (q ++ data) (concat chunks) tail Htail Hq)
      as (ps1 & ps2 & mid & -> & Hcut & Hmid & Hrest).
    apply Forall_app in Hps. destruct Hps as [Hps1 Hps2].
    simpl. rewrite (processData_deliver ps1 data c q mid Hps1 Hin Hst Hcut Hmid).
    rewrite (IH ps2 _ mid tail Hps2 Hmid (set_framer_state _ _) Hrest Htail).
    rewrite map_app, deliver_app, deliver_set_framer. simpl.
    rewrite set_framer_twice. reflexivity.
Qed.

Lemma emitted_deliver (payloads : list string) (c : conn) :
  emitted (snd (deliver payloads c)) = payloads.
Proof.
  revert c. induction payloads as [|jsonStr rest IH]; intros c; [reflexivity|].
  simpl. pose proof (emitted_handleResponse jsonStr c) as Hh.
  destruct (handleResponse jsonStr c) as [c1 evs1]. simpl in Hh.
  specialize (IH c1). destruct (deliver rest c1) as [c2 evs2]. simpl in IH.
  simpl. rewrite emitted_app, Hh, IH. reflexivity.
Qed.

(** X1 (the framer is [deliver] on the frames).  Let the bytes still
    buffered from earlier chunks ([q]) followed by the chunks fed make up
    the valid frames of [ps] and the beginning [tail] of one more.
    However the bytes are cut into chunks, the calls of [processData]
    return, and their events and the registry they leave are those of
    [handleResponse] applied to the decoded payloads of [ps] one after
    the other: each payload is handed over once, in the order of the
    frames; the framer holds [tail] and nothing else was touched. *)
Theorem feed_refines_deliver (chunks : list (list byte))
    (ps : list (list byte)) (c : conn) (q tail : list byte) :
  Forall (fun p => valid_length (buffer_length p)) ps ->
  in_frame q ->
  framer_state c = framer_after q ->
  q ++ concat chunks = frames ps ++ tail ->
  in_frame tail ->
  exists c' evs,
    feed chunks c = Some (c', evs)
    /\ evs = snd (deliver (map utf8_decode ps) c)
    /\ emitted evs = map utf8_decode ps
    /\ outside_framer c' = outside_framer (fst (deliver (map utf8_decode ps) c))
    /\ framer_state c' = framer_after tail.
Proof.
  intros Hps Hin Hst Hq Htail.
  eexists _, _. split; [apply (feed_deliver chunks ps c q tail Hps Hin Hst Hq Htail)|].
  split; [reflexivity|]. split; [apply emitted_deliver|].
  split; [apply set_framer_outside | apply set_framer_state].
Qed.

(** ** What a call of [processData] can do at all *)

Lemma processData_loop_decomposed (fuel : nat) :
  forall (data : list byte) (o : Z) (c c' : conn) (evs : list event),
    processData_loop fuel data o c = Some (c', evs) ->
    exists trailing,
      evs = snd (deliver (emitted evs) c) ++ trailing
      /\ outside_framer c' = outside_framer (fst (deliver (emitted evs) c))
      /\ (trailing = []
          \/ exists n,
               (n <= 0 \/ MAX_MESSAGE_LENGTH < n)
               /\ trailing = [ConsoleError [LogStr ("Invalid message length: "
                                                    +:+ Z_to_string n)]]
               /\ framer_idle c').
Proof.
  induction fuel as [|fuel IH]; intros data o c c' evs; simpl.
  - destruct (o <? buffer_length data); [discriminate|].
    intros E. injection E as <- <-. exists []. simpl. auto.
  - destruct (o <? buffer_length data).
    2:{ intros E. injection E as <- <-. exists []. simpl. auto. }
    pose proof (loop_body_shape data o c) as Hshape.
    destruct (loop_body data o c) as [o1 c1 evs1|c1 evs1].
    + destruct (processData_loop fuel data o1 c1) as [[c2 evs2]|] eqn:Hloop;
        [|discriminate].
      intros E. injection E as <- <-.
      destruct (IH _ _ _ _ _ Hloop) as (trailing & Hevs & Hout & Htr).
      exists trailing. split; [|split; [|exact Htr]].
      * inversion Hshape as [o' c0 E | o' c0 s E |]; subst.
        -- simpl. destruct (deliver_outside (emitted evs2) c1 c E) as [E1 _].
           rewrite <- E1. exact Hevs.
        -- destruct (handleResponse_outside s c0 c E) as [E1 E2].
           destruct (deliver_outside (emitted evs2)
                       (resetBuffers (fst (handleResponse s c0)))
                       (fst (handleResponse s c)) E2) as [E3 _].
           cbn [app emitted]. rewrite emitted_app, emitted_handleResponse.
           cbn [app deliver].
           destruct (handleResponse s c) as [a e].
           cbn [fst snd] in *. rewrite E1.
           rewrite Hevs at 1. rewrite E3.
           destruct (deliver (emitted evs2) a) as [b f]. cbn [snd].
           rewrite <- app_comm_cons, app_assoc. reflexivity.
      * inversion Hshape as [o' c0 E | o' c0 s E |]; subst.
        -- simpl. destruct (deliver_outside (emitted evs2) c1 c E) as [_ E2].
           rewrite <- E2. exact Hout.
        -- destruct (handleResponse_outside s c0 c E) as [E1 E2].
           destruct (deliver_outside (emitted evs2)
                       (resetBuffers (fst (handleResponse s c0)))
                       (fst (handleResponse s c)) E2) as [_ E4].
           cbn [app emitted]. rewrite emitted_app, emitted_handleResponse.
           cbn [app deliver].
           destruct (handleResponse s c) as [a e].
           cbn [fst snd] in *. rewrite Hout, E4.
           destruct (deliver (emitted evs2) a) as [b f]. reflexivity.
    + intros E. injection E as <- <-.
      inversion Hshape as [| | c0 n E Hn]; subst.
      eexists. split; [simpl; reflexivity|]. split; [exact E|].
      right. exists n. split; [exact Hn|]. split; [reflexivity|].
      apply resetBuffers_idle.
Qed.

Lemma deliver_registry (payloads : list string) :
  forall c : conn,
    responseCallbacks (fst (deliver payloads c)) ⊆ responseCallbacks c.
Proof.
  induction payloads as [|s rest IH]; intros c; [reflexivity|].
  simpl. pose proof (handleResponse_registry s c) as H.
  destruct (handleResponse s c) as [c1 e1].
  specialize (IH c1). destruct (deliver rest c1) as [c2 e2]. simpl in *.
  etransitivity; eassumption.
Qed.

Lemma deliver_connection (payloads : list string) :
  forall c : conn,
    host (fst (deliver payloads c)) = host c
    /\ port (fst (deliver payloads c)) = port c
    /\ isConnected (fst (deliver payloads c)) = isConnected c.
Proof.
  induction payloads as [|s l IH]; intros c; [auto|].
  simpl.
  assert (Hh : host (fst (handleResponse s c)) = host c
               /\ port (fst (handleResponse s c)) = port c
               /\ isConnected (fst (handleResponse s c)) = isConnected c).
  { unfold handleResponse. destruct (requestId_of s); [|auto].
    destruct (callbacks_get _ _); auto. }
  destruct (handleResponse s c) as [c1 e1]. specialize (IH c1).
  destruct (deliver l c1) as [c2 e2]. simpl in *.
  destruct Hh as (H1 & H2 & H3), IH as (I1 & I2 & I3).
  split; [congruence|]. split; congruence.
Qed.

(** X2 (all a chunk can do).  From any state that satisfies the
    accumulator invariant, and for any chunk, [processData] returns, and
    what it did is this and no more: for each payload it handed over, in
    order, what [handleResponse] does with it; then, at most, one log of
    an invalid length, after which the framer is idle.  It leaves [host],
    [port] and [isConnected] alone, adds no registration, and when it
    handed nothing over it leaves the registry as it was and calls neither
    [resolve] nor [reject]. *)
Theorem processData_effects (data : list byte) (c : conn) :
  framer_inv c ->
  exists c' evs trailing,
    processData data c = Some (c', evs)
    /\ evs = snd (deliver (emitted evs) c) ++ trailing
    /\ outside_framer c' = outside_framer (fst (deliver (emitted evs) c))
    /\ (trailing = []
        \/ exists n,
             (n <= 0 \/ MAX_MESSAGE_LENGTH < n)
             /\ trailing = [ConsoleError [LogStr ("Invalid message length: "
                                                  +:+ Z_to_string n)]]
             /\ framer_idle c')
    /\ host c' = host c /\ port c' = port c /\ isConnected c' = isConnected c
    /\ responseCallbacks c' ⊆ responseCallbacks c
    /\ (emitted evs = [] ->
        responseCallbacks c' = responseCallbacks c /\ all_settlements evs = []).
Proof.
  intros Hinv.
  destruct (processData_inv data c Hinv) as (c' & evs & Hp & _).
  destruct (processData_loop_decomposed _ _ _ _ _ _ Hp)
    as (trailing & Hevs & Hout & Htr).
  exists c', evs, trailing.
  split; [exact Hp|]. split; [exact Hevs|]. split; [exact Hout|].
  split; [exact Htr|].
  unfold outside_framer in Hout. injection Hout as Eh Ep Ei Er.
  destruct (deliver_connection (emitted evs) c) as (Hh & Hp' & Hi).
  split; [congruence|]. split; [congruence|]. split; [congruence|].
  split; [rewrite Er; apply deliver_registry|].
  intros Hnone. rewrite Hnone in *. simpl in *. split; [exact Er|].
  rewrite Hevs. simpl.
  destruct Htr as [->|(n & _ & -> & _)]; reflexivity.
Qed.

(** ** Requests end to end *)

Lemma run_callback_event (p : promise) (payload : string) :
  exists ev,
    run_callback (ResponseCallback p) payload = [ev]
    /\ ((exists v, ev = Resolve p v) \/ (exists r, ev = Reject p r)).
Proof.
  unfold run_callback.
  match goal with |- context [match ?a with Ok _ => _ | Throw _ => _ end] =>
    destruct a as [ev|e] eqn:E end.
  - exists ev. split; [reflexivity|].
    unfold bind in E.
    repeat match type of E with
           | context [match ?x with _ => _ end] => destruct x; try discriminate
           end;
      injection E as <-; eauto.
  - eexists. split; [reflexivity|]. eauto.
Qed.

Lemma sendCommand_registry (now : Z) (random command : string) (params : jsval)
    (p : promise) (c : conn) :
  responseCallbacks (fst (sendCommand now random p command params c))
  = <[generateRequestId now random := ResponseCallback p]> (responseCallbacks c).
Proof.
  unfold sendCommand. destruct (bind (JSON_stringify _) _); reflexivity.
Qed.

(** X3 (a request and its response).  After [sendCommand] has written
    its frame, let the frame of a response whose id is the request's
    identifier arrive on an idle framer, cut into chunks in any way.  The
    calls of [processData] return; the payload is handed to
    [handleResponse] once; the promise of that call is settled by the
    request's callback, once, and no other promise is; the registration is
    removed, so that the request's timer, when it fires later, does
    nothing. *)
Theorem request_gets_its_response (now : Z) (random command : string)
    (params : jsval) (p : promise) (c : conn) (commandString : string)
    (body : list byte) (chunks : list (list byte)) :
  let X := generateRequestId now random in
  let t := request_timer X command p in
  let c1 := fst (sendCommand now random p command params c) in
  let jsonStr := utf8_decode body in
  JSON_stringify
    (mkCommandObj "2.0" command
       (match params with Some v => v | None => JObj [] end) X)
  = Ok commandString ->
  buffer_length (utf8_encode commandString) <= 2 ^ 31 - 1 ->
  framer_idle c ->
  valid_length (buffer_length body) ->
  payload_for X jsonStr ->
  concat chunks = frame body ->
  exists c2,
    In (SocketWrite (frame (utf8_encode commandString)))
       (snd (sendCommand now random p command params c))
    /\ feed chunks c1
       = Some (c2, Emit jsonStr :: run_callback (ResponseCallback p) jsonStr)
    /\ c2 = set_responseCallbacks (delete X (responseCallbacks c1)) c1
    /\ length (settlements p (run_callback (ResponseCallback p) jsonStr)) = 1%nat
    /\ all_settlements (run_callback (ResponseCallback p) jsonStr)
       = settlements p (run_callback (ResponseCallback p) jsonStr)
    /\ fire_timeout t c2 = (c2, []).
Proof.
  intros X t c1 jsonStr Hs Hlen Hidle Hv Hfor Hchunks.
  assert (Hreg : responseCallbacks c1 !! X = Some (ResponseCallback p)).
  { subst c1. rewrite sendCommand_registry. apply lookup_insert_eq. }
  assert (Hidle1 : framer_state c1 = framer_after []).
  { subst c1. rewrite sendCommand_framer. exact Hidle. }
  pose proof (handleResponse_matched c1 X jsonStr _ Hreg
                (generateRequestId_nonempty now random) Hfor) as Hh.
  pose proof (feed_deliver chunks [body] c1 [] []
                ltac:(constructor; [exact Hv | constructor]) I Hidle1
                ltac:(rewrite app_nil_l, Hchunks, frames_cons, frames_nil,
                        !app_nil_r; reflexivity) I) as Hfeed.
  cbn [map deliver] in Hfeed. fold jsonStr in Hfeed. rewrite Hh in Hfeed.
  cbn [fst snd] in Hfeed. rewrite app_nil_r in Hfeed.
  eexists. split; [|split; [exact Hfeed|]].
  - rewrite (sendCommand_sent now random command params p c commandString Hs Hlen).
    cbn [snd]. apply in_or_app. right. left. reflexivity.
  - split.
    + apply conn_eq; [reflexivity|].
      unfold framer_state in *. simpl. symmetry. exact Hidle1.
    + destruct (run_callback_event p jsonStr) as (ev & -> & Hev).
      assert (Hp : settlements p [ev] = [ev] /\ all_settlements [ev] = [ev]).
      { destruct Hev as [[v ->]|[r ->]]; simpl; rewrite Nat.eqb_refl; auto. }
      destruct Hp as [-> ->]. split; [reflexivity|]. split; [reflexivity|].
      apply fire_timeout_unregistered. simpl. apply lookup_delete_eq.
Qed.

(** X4 (after an invalid length).  When a chunk completes a prefix that
    decodes to an invalid length, possibly after valid frames, the
    payloads of those frames are handed over, the error is logged, and
    whatever follows the prefix in that chunk is dropped, valid frames
    included.  The connection is not torn down: the chunks that come next
    are read from their first byte as the start of a frame, and when they
    hold valid frames their payloads are handed over as usual. *)
Theorem framer_restarts_after_invalid_length
    (ps : list (list byte)) (data q : list byte) (c : conn)
    (b0 b1 b2 b3 : byte) (m : list byte)
    (chunks : list (list byte)) (ps' : list (list byte)) (tail : list byte) :
  Forall (fun p => valid_length (buffer_length p)) ps ->
  in_frame q ->
  framer_state c = framer_after q ->
  q ++ data = frames ps ++ b0 :: b1 :: b2 :: b3 :: m ->
  readInt32BE b0 b1 b2 b3 <= 0
  \/ MAX_MESSAGE_LENGTH < readInt32BE b0 b1 b2 b3 ->
  Forall (fun p => valid_length (buffer_length p)) ps' ->
  concat chunks = frames ps' ++ tail ->
  in_frame tail ->
  exists c1 evs1 c2 evs2,
    processData data c = Some (c1, evs1)
    /\ emitted evs1 = map utf8_decode ps
    /\ feed chunks c1 = Some (c2, evs2)
    /\ emitted evs2 = map utf8_decode ps'
    /\ framer_state c2 = framer_after tail.
Proof.
  intros Hps Hin Hst Hq Hbad Hps' Hchunks Htail.
  destruct (processData_loop_invalid ps Hps (length data) data 0 c q b0 b1 b2 b3 m
              Hin Hst) as (c1 & evs1 & Hloop & Hem & Hidle); try assumption.
  - pose proof (buffer_length_nonneg data). lia.
  - unfold buffer_length. lia.
  - destruct (feed_frames chunks ps' c1 [] tail Hps' I Hidle
                ltac:(rewrite app_nil_l; exact Hchunks) Htail)
      as (c2 & evs2 & Hfeed & Hem2 & Hst2).
    eexists c1, _, c2, evs2. split; [exact Hloop|].
    split; [rewrite emitted_app, Hem; apply app_nil_r|].
    split; [exact Hfeed|]. split; [exact Hem2 | exact Hst2].
Qed.

(** X5 (a response touches one request).  Delivering a payload whose id
    is a registered identifier [X] removes the registration of [X] and no
    other, settles the promise of [X] and no other, and leaves the
    framer's buffers and the connection flag as they were. *)
Theorem delivery_touches_one_request (c : conn) (X payload : string)
    (p : promise) :
  reachable c ->
  responseCallbacks c !! X = Some (ResponseCallback p) ->
  payload_for X payload ->
  let delivered := handleResponse payload c in
  (forall Y, Y <> X ->
     responseCallbacks (fst delivered) !! Y = responseCallbacks c !! Y)
  /\ (forall p', p' <> p -> settlements p' (snd delivered) = [])
  /\ framer_state (fst delivered) = framer_state c
  /\ isConnected (fst delivered) = isConnected c.
Proof.
  intros Hreach Hreg Hfor delivered. subst delivered.
  rewrite (handleResponse_matched c X payload _ Hreg
             (registered_nonempty c X _ Hreach Hreg) Hfor).
  cbn [fst snd]. split; [|split; [|split; reflexivity]].
  - intros Y HY. simpl. apply lookup_delete_ne. congruence.
  - intros p' Hp'. destruct (run_callback_event p payload) as (ev & -> & Hev).
    assert (Hne : Nat.eqb p' p = false) by (apply Nat.eqb_neq; exact Hp').
    destruct Hev as [[v ->]|[r ->]]; simpl; rewrite Hne; reflexivity.
Qed.

(** X6 (a timer acts once, on its own request).  Whatever the state, a
    timer that fires calls [reject] at most once, and on no promise but
    its own; it never touches another identifier's registration, the
    buffers or the connection flag; and firing it again does nothing. *)
Theorem timeout_acts_once (t : timer) (c : conn) :
  let expired := fire_timeout t c in
  fire_timeout t (fst expired) = (fst expired, [])
  /\ (length (snd expired) <= 1)%nat
  /\ (forall p', p' <> timer_promise t -> settlements p' (snd expired) = [])
  /\ (forall Y, Y <> timer_requestId t ->
        responseCallbacks (fst expired) !! Y = responseCallbacks c !! Y)
  /\ responseCallbacks (fst expired) !! timer_requestId t = None
  /\ framer_state (fst expired) = framer_state c
  /\ isConnected (fst expired) = isConnected c.
Proof.
  cbv zeta.
  destruct (responseCallbacks c !! timer_requestId t) as [cb|] eqn:Hreg.
  - rewrite (fire_timeout_registered t c cb Hreg). cbn [fst snd].
    split; [apply fire_timeout_unregistered; simpl; apply lookup_delete_eq|].
    split; [simpl; lia|]. split.
    + intros p' Hp'. simpl.
      assert (Hne : Nat.eqb p' (timer_promise t) = false)
        by (apply Nat.eqb_neq; exact Hp').
      rewrite Hne. reflexivity.
    + split; [intros Y HY; simpl; apply lookup_delete_ne; congruence|].
      split; [simpl; apply lookup_delete_eq|]. split; reflexivity.
  - rewrite (fire_timeout_unregistered t c Hreg). cbn [fst snd].
    split; [apply fire_timeout_unregistered; exact Hreg|].
    split; [simpl; lia|]. split; [reflexivity|].
    split; [reflexivity|]. split; [exact Hreg|]. split; reflexivity.
Qed.

(** X7 (two requests with one identifier).  When two calls of
    [sendCommand] draw the same identifier, the second registration
    replaces the first.  If the response comes first, it settles the
    second promise only, and then neither timer does anything: nothing
    ever settles the first promise.  If the first timer fires first, it
    rejects the first promise and removes the registration of the second
    request: the response is then dropped and the second timer does
    nothing, so nothing ever settles the second promise. *)
Theorem colliding_identifiers (now : Z) (random cmd1 cmd2 : string)
    (params1 params2 : jsval) (p1 p2 : promise) (c : conn) (payload : string) :
  p1 <> p2 ->
  let X := generateRequestId now random in
  let c1 := fst (sendCommand now random p1 cmd1 params1 c) in
  let c2 := fst (sendCommand now random p2 cmd2 params2 c1) in
  let t1 := request_timer X cmd1 p1 in
  let t2 := request_timer X cmd2 p2 in
  payload_for X payload ->
  responseCallbacks c2 !! X = Some (ResponseCallback p2)
  /\ (let answered := handleResponse payload c2 in
      settlements p1 (snd answered) = []
      /\ length (settlements p2 (snd answered)) = 1%nat
      /\ fire_timeout t1 (fst answered) = (fst answered, [])
      /\ fire_timeout t2 (fst answered) = (fst answered, []))
  /\ (let expired := fire_timeout t1 c2 in
      snd expired
      = [Reject p1 (NewError (JStr ("Command timed out after 2 minutes: "
                                    +:+ cmd1)))]
      /\ handleResponse payload (fst expired) = (fst expired, [])
      /\ fire_timeout t2 (fst expired) = (fst expired, [])).
Proof.
  intros Hne X c1 c2 t1 t2 Hfor.
  assert (Hreg : responseCallbacks c2 !! X = Some (ResponseCallback p2)).
  { subst c2. rewrite sendCommand_registry. apply lookup_insert_eq. }
  pose proof (generateRequestId_nonempty now random) as HX. fold X in HX.
  split; [exact Hreg|]. split.
  - cbv zeta. rewrite (handleResponse_matched c2 X payload _ Hreg HX Hfor).
    cbn [fst snd].
    destruct (run_callback_event p2 payload) as (ev & -> & Hev).
    assert (Hgone : responseCallbacks
                      (set_responseCallbacks (delete X (responseCallbacks c2)) c2)
                    !! X = None) by (simpl; apply lookup_delete_eq).
    assert (H12 : Nat.eqb p1 p2 = false) by (apply Nat.eqb_neq; exact Hne).
    split; [destruct Hev as [[v ->]|[r ->]]; simpl; rewrite H12; reflexivity|].
    split; [destruct Hev as [[v ->]|[r ->]]; simpl; rewrite Nat.eqb_refl;
            reflexivity|].
    split; apply fire_timeout_unregistered; exact Hgone.
  - cbv zeta. rewrite (fire_timeout_registered t1 c2 _ Hreg). cbn [fst snd].
    change (timer_requestId t1) with X. change (timer_promise t1) with p1.
    change (timer_command t1) with cmd1.
    assert (Hgone : responseCallbacks
                      (set_responseCallbacks (delete X (responseCallbacks c2)) c2)
                    !! X = None) by (simpl; apply lookup_delete_eq).
    split; [reflexivity|]. split.
    + apply (handleResponse_unmatched _ payload (JStr X)); [|exact Hgone].
      apply requestId_of_payload_for; assumption.
    + apply fire_timeout_unregistered. exact Hgone.
Qed.


(** X9 ([disconnect] fails nobody).  [disconnect] ends the socket and
    clears the connection flag, and that is all: every registration and
    the framer's buffers stay.  A pending request is settled afterwards as
    it would have been: by its response if one still arrives, else by its
    timer; and the next [sendCommand] asks the socket to connect again. *)
Theorem disconnect_keeps_requests (c : conn) (X payload command : string)
    (p : promise) :
  reachable c ->
  responseCallbacks c !! X = Some (ResponseCallback p) ->
  payload_for X payload ->
  let d := fst (disconnect c) in
  snd (disconnect c) = [SocketEnd]
  /\ isConnected d = false
  /\ responseCallbacks d = responseCallbacks c
  /\ framer_state d = framer_state c
  /\ snd (handleResponse payload d) = run_callback (ResponseCallback p) payload
  /\ snd (fire_timeout (request_timer X command p) d)
     = [Reject p (NewError (JStr ("Command timed out after 2 minutes: "
                                  +:+ command)))]
  /\ (forall now random p' command' params',
        exists rest,
          snd (sendCommand now random p' command' params' d)
          = SocketConnect (port c) (host c) :: rest).
Proof.
  intros Hreach Hreg Hfor d.
  split; [reflexivity|]. split; [reflexivity|]. split; [reflexivity|].
  split; [reflexivity|].
  assert (Hreg' : responseCallbacks d !! X = Some (ResponseCallback p)) by exact Hreg.
  split.
  - rewrite (handleResponse_matched d X payload _ Hreg'
               (registered_nonempty c X _ Hreach Hreg) Hfor). reflexivity.
  - split.
    + rewrite (fire_timeout_registered (request_timer X command p) d _ Hreg').
      reflexivity.
    + intros now random p' command' params'. unfold sendCommand, connect.
      change (isConnected d) with false. change (port d) with (port c).
      change (host d) with (host c). cbv iota.
      destruct (socket_connect_error (port c) (host c));
        destruct (bind (JSON_stringify _) _); eexists; reflexivity.
Qed.

(** X10 (a frame cut by a reconnection).  The listeners of ["error"],
    ["close"] and ["connect"] leave the framer's buffers alone: when the
    socket fails after the first part of a frame has arrived and connects
    again, the bytes that arrive next are taken as the rest of that frame,
    and the payload handed over is made of bytes from before and after the
    reconnection. *)
Theorem partial_frame_survives_reconnect (p a b : list byte) (error : log_arg)
    (c : conn) :
  valid_length (buffer_length p) ->
  framer_idle c ->
  a ++ b = frame p ->
  exists c1 evs1 c2 evs2,
    on_data a c = Some (c1, evs1)
    /\ on_data b (on_connect (on_close (fst (on_error error c1)))) = Some (c2, evs2)
    /\ emitted (evs1 ++ evs2) = [utf8_decode p]
    /\ framer_idle c2.
Proof.
  intros Hv Hidle Hab.
  assert (Hps : Forall (fun p => valid_length (buffer_length p)) [p])
    by (constructor; [exact Hv | constructor]).
  assert (Hstream : a ++ b = frames [p] ++ []).
  { rewrite frames_cons, frames_nil, !app_nil_r. exact Hab. }
  destruct (frames_cut [p] Hps a b [] I Hstream)
    as (ps1 & ps2 & mid & Hsplit & Hcut & Hmid & Hrest).
  assert (Hps' := Hps). rewrite Hsplit in Hps'.
  apply Forall_app in Hps'. destruct Hps' as [Hps1 Hps2].
  destruct (processData_frames ps1 a c [] mid Hps1 I Hidle Hcut Hmid)
    as (c1 & evs1 & Hp1 & Hem1 & Hst1).
  destruct (processData_frames ps2 b
              (on_connect (on_close (fst (on_error error c1)))) mid []
              Hps2 Hmid Hst1 Hrest I)
    as (c2 & evs2 & Hp2 & Hem2 & Hst2).
  exists c1, evs1, c2, evs2. unfold on_data.
  split; [exact Hp1|]. split; [exact Hp2|]. split; [|exact Hst2].
  rewrite emitted_app, Hem1, Hem2, <- map_app, <- Hsplit. reflexivity.
Qed.

End Transport.

(** * Properties of the tool registry *)

Lemma string_of_list_ascii_app (a b : list ascii) :
  string_of_list_ascii (a ++ b)
  = string_of_list_ascii a +:+ string_of_list_ascii b.
Proof. induction a as [|x a IH]; simpl; [reflexivity | rewrite IH; reflexivity]. Qed.

Lemma list_ascii_of_string_app (a b : string) :
  list_ascii_of_string (a +:+ b)
  = list_ascii_of_string a ++ list_ascii_of_string b.
Proof. induction a as [|x a IH]; simpl; [reflexivity | rewrite IH; reflexivity]. Qed.

Lemma append_inv_tail (a b suffix : string) :
  a +:+ suffix = b +:+ suffix -> a = b.
Proof.
  intros E. apply (f_equal list_ascii_of_string) in E.
  rewrite !list_ascii_of_string_app in E. apply app_inv_tail in E.
  apply (f_equal string_of_list_ascii) in E.
  rewrite !string_of_list_ascii_of_string in E. exact E.
Qed.

Lemma endsWith_spec (s suffix : string) :
  endsWith s suffix = true <-> exists stem, s = stem +:+ suffix.
Proof.
  unfold endsWith. rewrite bool_decide_eq_true. split.
  - intros [k E]. exists (string_of_list_ascii k).
    apply (f_equal string_of_list_ascii) in E.
    rewrite string_of_list_ascii_of_string, string_of_list_ascii_app,
      string_of_list_ascii_of_string in E. exact E.
  - intros [stem ->]. exists (list_ascii_of_string stem).
    apply list_ascii_of_string_app.
Qed.

(** A name with one of the two extensions is rewritten to the [.js]
    name. *)
Lemma replace_extension_stem (stem ext : string) :
  ext = ".ts" \/ ext = ".js" ->
  replace_extension (stem +:+ ext) = stem +:+ ".js".
Proof.
  intros Hext. unfold replace_extension.
  assert (He : endsWith (stem +:+ ext) ".ts" || endsWith (stem +:+ ext) ".js" = true).
  { apply orb_true_iff. destruct Hext as [-> | ->]; [left | right];
      apply endsWith_spec; eauto. }
  rewrite He. f_equal. rewrite list_ascii_of_string_app, length_app.
  assert (Hl : length (list_ascii_of_string ext) = 3%nat)
    by (destruct Hext as [-> | ->]; reflexivity).
  rewrite Hl.
  replace (length (list_ascii_of_string stem) + 3 - 3)%nat
    with (length (list_ascii_of_string stem)) by lia.
  rewrite take_app_length. apply string_of_list_ascii_of_string.
Qed.

Lemma is_tool_file_stem (file : string) :
  is_tool_file file = true ->
  exists stem ext,
    file = stem +:+ ext /\ (ext = ".ts" \/ ext = ".js")
    /\ stem <> "index" /\ stem <> "register".
Proof.
  unfold is_tool_file. rewrite !andb_true_iff, !negb_true_iff, !String.eqb_neq.
  intros ((((Hext & H1) & H2) & H3) & H4).
  apply orb_true_iff in Hext.
  destruct Hext as [Hext|Hext]; apply endsWith_spec in Hext;
    destruct Hext as [stem ->]; eexists stem, _;
    (split; [reflexivity|]); (split; [auto|]);
    split; intros ->;
    first [exact (H1 eq_refl) | exact (H2 eq_refl)
          | exact (H3 eq_refl) | exact (H4 eq_refl)].
Qed.

Lemma imports_of_app (a b : list register_event) :
  imports_of (a ++ b) = imports_of a ++ imports_of b.
Proof.
  induction a as [|e a IH]; [reflexivity|].
  destruct e; simpl; rewrite IH; reflexivity.
Qed.

Lemma register_file_imports (import : string -> import_outcome) (file : string) :
  imports_of (fst (register_file import file)) = [importPath file].
Proof.
  unfold register_file. destruct (import (importPath file)) as [m|text];
    [|reflexivity].
  destruct (module_get "SKIP_REGISTER" m) as [[throws|[[| [] | | | |]|]]|];
    destruct (find_register m) as [[name [text|]]|]; reflexivity.
Qed.

Lemma register_loop_counts (import : nat -> string -> import_outcome)
    (files : list string) :
  forall i r0 k0 : nat,
    register_loop import i files r0 k0
    = (fst (fst (register_loop import i files r0 k0)),
       (r0 + count_outcome FileRegistered (outcomes import i files))%nat,
       (k0 + count_outcome FileSkipped (outcomes import i files))%nat)
    /\ imports_of (fst (fst (register_loop import i files r0 k0)))
       = map importPath files.
Proof.
  induction files as [|file rest IH]; intros i r0 k0.
  - simpl. unfold count_outcome. simpl. rewrite !Nat.add_0_r. auto.
  - simpl. pose proof (register_file_imports (import i) file) as Himp.
    unfold count_outcome in *. simpl.
    destruct (register_file (import i) file) as [evs outcome]. simpl in Himp.
    match goal with |- context [register_loop import (S i) rest ?r ?k] =>
      destruct (IH (S i) r k) as [E1 E2];
      destruct (register_loop import (S i) rest r k) as [[evs' r'] k'] end.
    simpl in *. injection E1 as -> ->.
    rewrite imports_of_app, Himp, E2.
    destruct outcome; simpl; split; try reflexivity; f_equal; f_equal; lia.
Qed.

Lemma count_outcome_total (l : list file_outcome) :
  (count_outcome FileRegistered l + count_outcome FileSkipped l
   + count_outcome FileWarned l + count_outcome FileFailed l
   = length l)%nat.
Proof.
  unfold count_outcome. induction l as [|o l IH]; [reflexivity|].
  cbn [List.filter]. destruct o; cbn [outcome_eqb length]; lia.
Qed.

Lemma outcomes_length (import : nat -> string -> import_outcome) (i : nat)
    (files : list string) :
  length (outcomes import i files) = length files.
Proof.
  revert i. induction files as [|file rest IH]; intros i; [reflexivity|].
  simpl. f_equal. apply IH.
Qed.

Lemma registerTools_imports (files : list string)
    (import : nat -> string -> import_outcome) :
  imports_of (fst (fst (registerTools files import)))
  = map importPath (toolFiles files).
Proof.
  unfold registerTools.
  destruct (register_loop_counts import (toolFiles files) 0 0 0) as [_ E2].
  destruct (register_loop import 0 (toolFiles files) 0 0) as [[evs r] k].
  simpl in *. rewrite imports_of_app. simpl. rewrite app_nil_r. exact E2.
Qed.

(** X11 (every tool file is tried, whatever happens to the others).
    [registerTools] imports the tool files of the directory, each once, in
    the order of the listing: a module that fails to load, has no register
    function or whose register function throws stops nothing.  The two
    counters of the summary are the numbers of passes that registered a
    tool and that skipped a file, and with the passes that ended with the
    warning or with an error they add up to the number of tool files. *)
Theorem registerTools_tries_every_file (files : list string)
    (import : nat -> string -> import_outcome) :
  let passes := outcomes import 0 (toolFiles files) in
  imports_of (fst (fst (registerTools files import)))
  = map importPath (toolFiles files)
  /\ snd (fst (registerTools files import)) = count_outcome FileRegistered passes
  /\ snd (registerTools files import) = count_outcome FileSkipped passes
  /\ (count_outcome FileRegistered passes + count_outcome FileSkipped passes
      + count_outcome FileWarned passes + count_outcome FileFailed passes
      = length (toolFiles files))%nat.
Proof.
  cbn zeta. split; [apply registerTools_imports|].
  unfold registerTools.
  destruct (register_loop_counts import (toolFiles files) 0 0 0) as [E1 _].
  destruct (register_loop import 0 (toolFiles files) 0 0) as [[evs r] k].
  simpl in *. injection E1 as -> ->.
  split; [reflexivity|]. split; [reflexivity|].
  rewrite count_outcome_total. apply outcomes_length.
Qed.

(** X12 (what is imported).  Every path [registerTools] imports is
    ["./"], the name of a tool file without its extension, and [".js"];
    it is never ["./index.js"] nor ["./register.js"], so the registry
    never loads itself.  A [.ts] file and the [.js] file of the same name
    give the same path: a directory that holds both has that module
    imported twice. *)
Theorem imported_paths (files : list string)
    (import : nat -> string -> import_outcome) (path : string) :
  In path (imports_of (fst (fst (registerTools files import)))) ->
  (exists stem,
      path = "./" +:+ stem +:+ ".js"
      /\ stem <> "index" /\ stem <> "register"
      /\ (In (stem +:+ ".ts") files \/ In (stem +:+ ".js") files)
      /\ importPath (stem +:+ ".ts") = path
      /\ importPath (stem +:+ ".js") = path)
  /\ path <> "./index.js" /\ path <> "./register.js".
Proof.
  rewrite registerTools_imports.
  intros Hin. apply in_map_iff in Hin. destruct Hin as (file & <- & Hfile).
  unfold toolFiles in Hfile. apply filter_In in Hfile.
  destruct Hfile as [Hfile Htool].
  destruct (is_tool_file_stem file Htool) as (stem & ext & -> & Hext & Hi & Hr).
  assert (Hpath : importPath (stem +:+ ext) = "./" +:+ stem +:+ ".js").
  { unfold importPath. rewrite (replace_extension_stem stem ext Hext). reflexivity. }
  rewrite Hpath. split.
  - exists stem. split; [reflexivity|]. split; [exact Hi|]. split; [exact Hr|].
    split; [destruct Hext as [-> | ->]; auto|].
    unfold importPath.
    rewrite !replace_extension_stem by auto. auto.
  - split; intros E; simpl in E; injection E as E.
    + apply (append_inv_tail stem "index" ".js") in E. contradiction.
    + apply (append_inv_tail stem "register" ".js") in E. contradiction.
Qed.

(** * Properties of the routing tools *)

Section Routing.
Context `{rt : Runtime} `{co : Coercions}.

(** ** Reading the properties of a payload *)

Lemma coalesce_props_cons (v : jsval) (k k' : string) (rest : list string) :
  coalesce_props v (k :: k' :: rest)
  = attempt_bind (lift_result (get_prop v k))
      (fun x => if nullish x then coalesce_props v (k' :: rest) else Done x).
Proof. reflexivity. Qed.

Lemma coalesce_own_cons (fields : list (string * json)) (k k' : string)
    (rest : list string) :
  coalesce_own fields (k :: k' :: rest)
  = if nullish (own_property k fields) then coalesce_own fields (k' :: rest)
    else own_property k fields.
Proof. reflexivity. Qed.

Lemma coalesce_own_nil (keys : list string) : coalesce_own [] keys = None.
Proof.
  induction keys as [|k rest IH]; [reflexivity|].
  destruct rest as [|k' rest]; [reflexivity|].
  rewrite coalesce_own_cons. exact IH.
Qed.

Lemma get_prop_defined (v : jsval) (k : string) :
  nullish v = false ->
  get_prop v k = Ok (own_property k (task_fields v)).
Proof. destruct v as [[]|]; try discriminate; reflexivity. Qed.

(** No read of a property throws on a value that is neither [null] nor
    [undefined]. *)
Lemma coalesce_props_defined (v : jsval) (keys : list string) :
  nullish v = false ->
  coalesce_props v keys = Done (coalesce_own (task_fields v) keys).
Proof.
  intros Hv. induction keys as [|k rest IH]; [reflexivity|].
  destruct rest as [|k' rest].
  - simpl. rewrite (get_prop_defined _ _ Hv). reflexivity.
  - rewrite coalesce_props_cons, coalesce_own_cons, (get_prop_defined _ _ Hv).
    cbn [lift_result attempt_bind].
    destruct (nullish (own_property k (task_fields v))); [exact IH | reflexivity].
Qed.

Lemma is_object_defined (input : jsval) :
  is_object input = true -> nullish input = false.
Proof. destruct input as [[]|]; try discriminate; reflexivity. Qed.

Lemma is_object_guard (input : jsval) :
  negb (truthy input) || negb (String.eqb (typeof input) "object")
  = negb (is_object input).
Proof.
  destruct input as [[| b | x | s | |]|]; try reflexivity.
  - destruct b; reflexivity.
  - simpl. destruct (negb _); reflexivity.
  - simpl. destruct (negb _); reflexivity.
Qed.

(** ** [Number] and [String] *)

(** [String] throws on the values that are not convertible, and on no
    other. *)
Lemma ToString_json_convertible :
  forall v : json,
    (convertible_json v = true -> exists s, ToString_json v = Ok s)
    /\ (convertible_json v = false -> ToString_json v = Throw primitive_error).
Proof.
  fix IH 1. intros [| [|] | x | s | items | fields];
    try (split; [intros _; eexists; reflexivity | discriminate]).
  - induction items as [|e rest IHrest].
    + split; [intros _; eexists; reflexivity | discriminate].
    + assert (He : (convertible_json e = true ->
                    exists s, match e with
                              | JNull => Ok EmptyString
                              | _ => ToString_json e
                              end = Ok s)
                   /\ (convertible_json e = false ->
                       match e with
                       | JNull => Ok EmptyString
                       | _ => ToString_json e
                       end = Throw primitive_error)).
      { destruct (IH e) as [H1 H2]. destruct e; try (split; assumption).
        split; [intros _; eexists; reflexivity | discriminate]. }
      clear IH. destruct He as [He1 He2]. destruct IHrest as [Hr1 Hr2].
      change (convertible_json (JArr (e :: rest)))
        with (convertible_json e && convertible_json (JArr rest)).
      change (ToString_json (JArr (e :: rest)))
        with (bind (match e with
                    | JNull => Ok EmptyString
                    | _ => ToString_json e
                    end)
                (fun s => match rest with
                          | [] => Ok s
                          | _ :: _ =>
                            bind (ToString_json (JArr rest))
                              (fun r => Ok (s +:+ "," +:+ r))
                          end)).
      destruct (convertible_json e).
      * destruct (He1 eq_refl) as [s ->]. cbn [bind andb].
        destruct rest as [|e' rest']; [split; [eexists; reflexivity | discriminate]|].
        split.
        -- intros Hc. destruct (Hr1 Hc) as [r ->]. eexists. reflexivity.
        -- intros Hc. rewrite (Hr2 Hc). reflexivity.
      * rewrite (He2 eq_refl). split; [discriminate | reflexivity].
  - simpl. destruct (own_property "toString" fields);
      (split; [try discriminate; eexists; reflexivity
              | try discriminate; reflexivity]).
Qed.

Lemma ToString_convertible (v : jsval) :
  ToString v
  = if convertible v then Ok (to_string v) else Throw primitive_error.
Proof.
  unfold to_string. destruct v as [w|]; [|reflexivity]. cbn [ToString convertible].
  destruct (ToString_json_convertible w) as [H1 H2].
  destruct (convertible_json w).
  - destruct (H1 eq_refl) as [s ->]. reflexivity.
  - apply H2. reflexivity.
Qed.

Lemma ToNumber_convertible (v : jsval) :
  ToNumber v
  = if convertible v then Ok (to_number v) else Throw primitive_error.
Proof.
  unfold to_number.
  destruct v as [[| [|] | x | s | items | fields]|]; try reflexivity.
  - cbn [ToNumber convertible].
    destruct (ToString_json_convertible (JArr items)) as [H1 H2].
    destruct (convertible_json (JArr items)).
    + destruct (H1 eq_refl) as [s ->]. reflexivity.
    + rewrite (H2 eq_refl). reflexivity.
  - cbn [ToNumber convertible].
    destruct (ToString_json_convertible (JObj fields)) as [H1 H2].
    destruct (convertible_json (JObj fields)).
    + destruct (H1 eq_refl) as [s ->]. reflexivity.
    + rewrite (H2 eq_refl). reflexivity.
Qed.

Lemma number_entry_convertible (key : string) (v : jsval) :
  number_entry key v
  = if convertible v then Done (optional_number key (number_of v))
    else Raise conversion_error.
Proof.
  unfold number_entry, number_of. destruct (nullish v) eqn:Hn.
  - destruct v as [[]|]; try discriminate; reflexivity.
  - rewrite ToNumber_convertible. destruct (convertible v); reflexivity.
Qed.

Lemma string_entry_convertible (key : string) (v : jsval) :
  string_entry key v
  = if convertible v then Done (optional_string key (string_of v))
    else Raise conversion_error.
Proof.
  unfold string_entry, string_of. destruct (nullish v) eqn:Hn.
  - destruct v as [[]|]; try discriminate; reflexivity.
  - rewrite ToString_convertible. destruct (convertible v); reflexivity.
Qed.

(** ** Waypoints *)

Lemma waypoint_of_null (kx ky kz : string) :
  waypoint_of kx ky kz JNull = Raise null_waypoint.
Proof. reflexivity. Qed.

Lemma waypoint_of_defined (kx ky kz : string) (p : json) :
  p <> JNull ->
  waypoint_of kx ky kz p
  = if waypoint_ok p then Done (point_object kx ky kz (point_of p))
    else Raise conversion_error.
Proof.
  intros Hp. unfold waypoint_of.
  assert (Hv : nullish (Some p) = false) by (destruct p; try reflexivity; congruence).
  rewrite !(coalesce_props_defined _ _ Hv). cbn [attempt_bind].
  rewrite !ToNumber_convertible.
  assert (Hok : waypoint_ok p
                = convertible (coalesce_own (task_fields (Some p)) ["x"; "X"])
                  && convertible (coalesce_own (task_fields (Some p)) ["y"; "Y"])
                  && convertible (coalesce_own (task_fields (Some p)) ["z"; "Z"]))
    by (destruct p; try reflexivity; congruence).
  rewrite Hok. cbn [attempt_bind].
  destruct (convertible (coalesce_own _ ["x"; "X"])); [|reflexivity].
  cbn [lift_result attempt_bind].
  destruct (convertible (coalesce_own _ ["y"; "Y"])); [|reflexivity].
  cbn [lift_result attempt_bind].
  destruct (convertible (coalesce_own _ ["z"; "Z"])); reflexivity.
Qed.

Lemma json_null_dec (p : json) : {p = JNull} + {p <> JNull}.
Proof. destruct p; (left; reflexivity) || (right; discriminate). Qed.

Lemma map_attempt_waypoints (kx ky kz : string) (items : list json) :
  forallb waypoint_ok items = true ->
  map_attempt (waypoint_of kx ky kz) items
  = Done (map (fun p => point_object kx ky kz (point_of p)) items).
Proof.
  induction items as [|p items IH]; intros Hok; [reflexivity|].
  cbn [forallb] in Hok. apply andb_true_iff in Hok. destruct Hok as [Hp Hrest].
  cbn [map_attempt map]. rewrite waypoint_of_defined by (intros ->; discriminate).
  rewrite Hp. cbn [attempt_bind]. rewrite (IH Hrest). reflexivity.
Qed.

(** The map over the waypoints throws on the first that is [null] or has
    a coordinate that is not convertible. *)
Lemma map_attempt_waypoints_refused (kx ky kz : string) (items : list json) :
  forallb waypoint_ok items = false ->
  exists t, map_attempt (waypoint_of kx ky kz) items = Raise t
            /\ (t = null_waypoint \/ t = conversion_error).
Proof.
  induction items as [|p items IH]; intros Hok; [discriminate|].
  cbn [forallb] in Hok. cbn [map_attempt].
  destruct (json_null_dec p) as [-> | Hp].
  - exists null_waypoint. split; [reflexivity | left; reflexivity].
  - rewrite (waypoint_of_defined _ _ _ _ Hp).
    destruct (waypoint_ok p); cbn [attempt_bind].
    + destruct (IH Hok) as (t & -> & Ht). exists t. split; [reflexivity | exact Ht].
    + exists conversion_error. split; [reflexivity | right; reflexivity].
Qed.

Lemma map_attempt_null_waypoint (kx ky kz : string) (before after : list json) :
  forallb waypoint_ok before = true ->
  map_attempt (waypoint_of kx ky kz) (before ++ JNull :: after)
  = Raise null_waypoint.
Proof.
  induction before as [|p before IH]; intros Hok; [reflexivity|].
  cbn [forallb] in Hok. apply andb_true_iff in Hok. destruct Hok as [Hp Hrest].
  cbn [app map_attempt]. rewrite waypoint_of_defined by (intros ->; discriminate).
  rewrite Hp. cbn [attempt_bind]. rewrite (IH Hrest). reflexivity.
Qed.

Lemma waypoints_of_task (kx ky kz : string) (input : jsval) :
  waypoints_of kx ky kz
    (js_coalesce
       (coalesce_own (task_fields input)
          ["waypoints"; "Waypoints"; "way_points"; "WAYPOINTS"]) (JArr []))
  = map_attempt (waypoint_of kx ky kz) (task_waypoints input).
Proof.
  unfold task_waypoints.
  destruct (coalesce_own _ _) as [[]|]; reflexivity.
Qed.

(** ** What [normalizeTask] returns *)

Lemma normalizeTask_not_object (input : jsval) :
  is_object input = false -> normalizeTask input = Raise invalid_payload.
Proof.
  intros Hobj. unfold normalizeTask. rewrite is_object_guard, Hobj. reflexivity.
Qed.

Lemma normalizeTask_no_ids (input : jsval) :
  is_object input = true -> task_ids input = None ->
  normalizeTask input = Raise ids_required.
Proof.
  intros Hobj Hids. unfold normalizeTask.
  rewrite is_object_guard, Hobj.
  rewrite !(coalesce_props_defined _ _ (is_object_defined _ Hobj)).
  cbn [negb attempt_bind]. unfold task_ids in Hids.
  destruct (coalesce_own _ _) as [[]|]; try reflexivity.
  destruct (coalesce_own _ _) as [[]|]; try reflexivity.
  discriminate.
Qed.

(** With its identifiers, a task goes through the conversions, in the
    order of the source. *)
Lemma normalizeTask_conversions (input : jsval) (s e : float) :
  is_object input = true -> task_ids input = Some (s, e) ->
  (pipe_convertible input = true ->
   normalizeTask input = Done (pipe_task_object (pipe_task_of input s e)))
  /\ (pipe_convertible input = false ->
      exists t, normalizeTask input = Raise t
                /\ (t = null_waypoint \/ t = conversion_error)).
Proof.
  intros Hobj Hids. unfold normalizeTask.
  rewrite is_object_guard, Hobj.
  rewrite !(coalesce_props_defined _ _ (is_object_defined _ Hobj)).
  cbn [negb attempt_bind]. unfold task_ids in Hids.
  destruct (coalesce_own _ ["startElementId"; _; _]) as [[]|]; try discriminate.
  destruct (coalesce_own _ ["endElementId"; _; _]) as [[]|]; try discriminate.
  injection Hids as -> ->.
  rewrite waypoints_of_task.
  rewrite !number_entry_convertible, string_entry_convertible.
  unfold pipe_convertible, fields_convertible, pipe_optional_keys.
  cbn [forallb].
  destruct (forallb waypoint_ok (task_waypoints input)) eqn:Hwps.
  2: { split; [discriminate|]. intros _.
       destruct (map_attempt_waypoints_refused "x" "y" "z" _ Hwps) as (t & -> & Ht).
       exists t. split; [reflexivity | exact Ht]. }
  rewrite (map_attempt_waypoints _ _ _ _ Hwps). cbn [attempt_bind andb].
  repeat match goal with
         | |- context [convertible (coalesce_own (task_fields input) ?ks)] =>
           destruct (convertible (coalesce_own (task_fields input) ks));
           cbn [attempt_bind andb];
           [|split; [discriminate
                    | intros _; exists conversion_error;
                      split; [reflexivity | right; reflexivity]]]
         end.
  split; [intros _ | discriminate].
  unfold pipe_task_object.
  cbn [pt_startElementId pt_endElementId pt_waypoints pt_systemTypeId pt_pipeTypeId
       pt_levelId pt_diameter_mm pt_minSegmentLength_mm pt_tolerance_mm
       pt_angleTolerance_deg pt_routingPreference pipe_task_of].
  rewrite map_map. reflexivity.
Qed.

Lemma normalizeTask_done (input : jsval) (t : json) :
  normalizeTask input = Done t ->
  is_object input = true
  /\ pipe_convertible input = true
  /\ exists s e, task_ids input = Some (s, e)
                 /\ t = pipe_task_object (pipe_task_of input s e).
Proof.
  intros Hdone.
  destruct (is_object input) eqn:Hobj;
    [|rewrite (normalizeTask_not_object _ Hobj) in Hdone; discriminate].
  destruct (task_ids input) as [[s e]|] eqn:Hids;
    [|rewrite (normalizeTask_no_ids _ Hobj Hids) in Hdone; discriminate].
  destruct (normalizeTask_conversions input s e Hobj Hids) as [Hyes Hno].
  destruct (pipe_convertible input).
  - rewrite (Hyes eq_refl) in Hdone. injection Hdone as <-.
    split; [reflexivity|]. split; [reflexivity|]. exists s, e. split; reflexivity.
  - destruct (Hno eq_refl) as (t' & Hraise & _). congruence.
Qed.

Lemma normalizeTask_waypoints_raise (input : jsval) (t : thrown) :
  is_object input = true -> task_ids input <> None ->
  map_attempt (waypoint_of "x" "y" "z") (task_waypoints input) = Raise t ->
  normalizeTask input = Raise t.
Proof.
  intros Hobj Hids Hraise. unfold normalizeTask.
  rewrite is_object_guard, Hobj.
  rewrite !(coalesce_props_defined _ _ (is_object_defined _ Hobj)).
  cbn [negb attempt_bind]. unfold task_ids in Hids.
  destruct (coalesce_own _ ["startElementId"; _; _]) as [[]|]; try congruence.
  destruct (coalesce_own _ ["endElementId"; _; _]) as [[]|]; try congruence.
  rewrite waypoints_of_task, Hraise. reflexivity.
Qed.

(** ** A normalised task is left as it is *)

Lemma own_property_app (k : string) (l1 l2 : list (string * json)) :
  own_property k (l1 ++ l2)
  = match own_property k l1 with
    | Some v => Some v
    | None => own_property k l2
    end.
Proof.
  induction l1 as [|[k' v] l1 IH]; [reflexivity|].
  simpl. destruct (String.eqb k k'); [reflexivity | exact IH].
Qed.

Lemma own_property_optional_number (k k' : string) (o : option float) :
  own_property k (optional_number k' o)
  = if String.eqb k k' then option_map JNum o else None.
Proof. destruct o; simpl; destruct (String.eqb k k'); reflexivity. Qed.

Lemma own_property_optional_string (k k' : string) (o : option string) :
  own_property k (optional_string k' o)
  = if String.eqb k k' then option_map JStr o else None.
Proof. destruct o; simpl; destruct (String.eqb k k'); reflexivity. Qed.

Lemma own_property_guarded {A : Type} (k k' : string) (l : list A) (v : json) :
  own_property k match l with [] => [] | _ :: _ => [(k', v)] end
  = if String.eqb k k' then match l with [] => None | _ :: _ => Some v end
    else None.
Proof. destruct l; simpl; destruct (String.eqb k k'); reflexivity. Qed.

Lemma point_of_object (kx ky kz : string) (p : float * float * float) :
  (kx = "x" /\ ky = "y" /\ kz = "z") \/ (kx = "X" /\ ky = "Y" /\ kz = "Z") ->
  point_of (point_object kx ky kz p) = p
  /\ waypoint_ok (point_object kx ky kz p) = true.
Proof.
  destruct p as [[x y] z].
  intros [(-> & -> & ->) | (-> & -> & ->)]; split; reflexivity.
Qed.

Lemma map_point_of_object (kx ky kz : string) (pts : list (float * float * float)) :
  (kx = "x" /\ ky = "y" /\ kz = "z") \/ (kx = "X" /\ ky = "Y" /\ kz = "Z") ->
  map point_of (map (point_object kx ky kz) pts) = pts
  /\ forallb waypoint_ok (map (point_object kx ky kz) pts) = true.
Proof.
  intros Hkeys. induction pts as [|p pts [IH1 IH2]]; [split; reflexivity|].
  destruct (point_of_object kx ky kz p Hkeys) as [H1 H2].
  cbn [map forallb]. rewrite H1, H2, IH1, IH2. split; reflexivity.
Qed.

Lemma pipe_task_of_object (r : pipe_task) :
  pipe_task_of (Some (pipe_task_object r)) (pt_startElementId r) (pt_endElementId r)
  = r.
Proof.
  destruct r as [s e wps o1 o2 o3 o4 o5 o6 o7 o8].
  unfold pipe_task_of, task_waypoints, pipe_task_object, task_fields.
  cbn [pt_startElementId pt_endElementId pt_waypoints pt_systemTypeId pt_pipeTypeId
       pt_levelId pt_diameter_mm pt_minSegmentLength_mm pt_tolerance_mm
       pt_angleTolerance_deg pt_routingPreference].
  f_equal.
  all: simpl;
    rewrite ?own_property_app, ?own_property_optional_number,
      ?own_property_optional_string; simpl.
  - apply map_point_of_object. left. repeat split.
  - destruct o1; reflexivity.
  - destruct o2; reflexivity.
  - destruct o3; reflexivity.
  - destruct o4; reflexivity.
  - destruct o5; reflexivity.
  - destruct o6; reflexivity.
  - destruct o7; reflexivity.
  - destruct o8; reflexivity.
Qed.

Lemma pipe_task_object_ids (r : pipe_task) :
  task_ids (Some (pipe_task_object r))
  = Some (pt_startElementId r, pt_endElementId r).
Proof. reflexivity. Qed.

Lemma pipe_task_object_waypoints (r : pipe_task) :
  task_waypoints (Some (pipe_task_object r))
  = map (point_object "x" "y" "z") (pt_waypoints r).
Proof. reflexivity. Qed.

(** A field read from an object all of whose values are convertible is
    convertible. *)
Lemma coalesce_own_convertible (fields : list (string * json)) (ks : list string) :
  Forall (fun kv => convertible_json (snd kv) = true) fields ->
  convertible (coalesce_own fields ks) = true.
Proof.
  intros Hall.
  assert (Hown : forall k, convertible (own_property k fields) = true).
  { intros k. induction Hall as [|[k' v] fields Hv _ IH]; [reflexivity|].
    simpl. destruct (String.eqb k k'); [exact Hv | exact IH]. }
  induction ks as [|k rest IH]; [reflexivity|].
  destruct rest as [|k' rest]; [apply Hown|].
  rewrite coalesce_own_cons.
  destruct (nullish (own_property k fields)); [exact IH | apply Hown].
Qed.

Lemma fields_convertible_all (fields : list (string * json))
    (keys : list (list string)) :
  Forall (fun kv => convertible_json (snd kv) = true) fields ->
  fields_convertible fields keys = true.
Proof.
  intros Hall. unfold fields_convertible. apply forallb_forall.
  intros ks _. apply coalesce_own_convertible. exact Hall.
Qed.

Lemma optional_number_convertible (key : string) (o : option float) :
  Forall (fun kv => convertible_json (snd kv) = true) (optional_number key o).
Proof. destruct o; repeat constructor. Qed.

Lemma optional_string_convertible (key : string) (o : option string) :
  Forall (fun kv => convertible_json (snd kv) = true) (optional_string key o).
Proof. destruct o; repeat constructor. Qed.

Lemma points_convertible (kx ky kz : string) (pts : list (float * float * float)) :
  (kx = "x" /\ ky = "y" /\ kz = "z") \/ (kx = "X" /\ ky = "Y" /\ kz = "Z") ->
  convertible_json (JArr (map (point_object kx ky kz) pts)) = true.
Proof.
  intros Hkeys. cbn [convertible_json].
  induction pts as [|[[x y] z] pts IH]; [reflexivity|].
  cbn [map forallb]. rewrite IH.
  destruct Hkeys as [(-> & -> & ->) | (-> & -> & ->)]; reflexivity.
Qed.

Lemma pipe_task_object_values (r : pipe_task) :
  Forall (fun kv => convertible_json (snd kv) = true)
         (task_fields (Some (pipe_task_object r))).
Proof.
  unfold pipe_task_object, task_fields.
  repeat (apply Forall_app; split);
    try apply optional_number_convertible;
    try apply optional_string_convertible.
  constructor; [reflexivity|]. constructor; [reflexivity|].
  constructor; [|constructor].
  apply points_convertible. left. repeat split.
Qed.

Lemma pipe_task_object_convertible (r : pipe_task) :
  pipe_convertible (Some (pipe_task_object r)) = true.
Proof.
  unfold pipe_convertible. rewrite pipe_task_object_waypoints.
  rewrite (proj2 (map_point_of_object "x" "y" "z" (pt_waypoints r)
                    ltac:(left; repeat split))).
  apply fields_convertible_all, pipe_task_object_values.
Qed.

Lemma normalizeTask_fixes (r : pipe_task) :
  normalizeTask (Some (pipe_task_object r)) = Done (pipe_task_object r).
Proof.
  rewrite (proj1 (normalizeTask_conversions (Some (pipe_task_object r))
                    (pt_startElementId r) (pt_endElementId r) eq_refl
                    (pipe_task_object_ids r))
             (pipe_task_object_convertible r)).
  rewrite pipe_task_of_object. reflexivity.
Qed.

(** X13.  Normalising a pipe task twice is normalising it once: what
    [normalizeTask] returns is a task in the shape the Revit command expects
    (the two identifiers, every waypoint as three numbers [x], [y], [z],
    each optional field a number, the routing preference a string), and
    [normalizeTask] returns that task unchanged. *)
Theorem normalizeTask_idempotent (input : jsval) (t : json) :
  normalizeTask input = Done t ->
  (exists r : pipe_task, t = pipe_task_object r)
  /\ normalizeTask (Some t) = Done t.
Proof.
  intros Hdone.
  destruct (normalizeTask_done _ _ Hdone) as (_ & _ & s & e & _ & ->).
  split; [eexists; reflexivity | apply normalizeTask_fixes].
Qed.

(** X14.  What [normalizeTask] does with a payload, case by case.  A
    value that is neither an object nor an array is refused as an invalid
    payload; an object or array whose start and end identifiers are not
    both numbers (an array, a numeric string) is refused for its
    identifiers.  Past these two tests the task is accepted when, and only
    when, no waypoint is [null] and every value that goes through
    [Number] or [String] (the coordinates of the waypoints, the optional
    fields) is convertible: not an object with a property [toString] of
    its own, nor an array that holds one.  A [null] waypoint, when those
    before it are good, makes the read of its [x] throw; and whatever
    [normalizeTask] throws is one of these four errors. *)
Theorem normalizeTask_outcome (input : jsval) :
  (is_object input = false -> normalizeTask input = Raise invalid_payload)
  /\ (is_object input = true -> task_ids input = None ->
      normalizeTask input = Raise ids_required)
  /\ ((exists t, normalizeTask input = Done t)
      <-> is_object input = true /\ task_ids input <> None
          /\ pipe_convertible input = true)
  /\ (is_object input = true -> task_ids input <> None ->
      forall before after,
        task_waypoints input = before ++ JNull :: after ->
        forallb waypoint_ok before = true ->
        normalizeTask input = Raise null_waypoint)
  /\ (forall t, normalizeTask input = Raise t ->
      t = invalid_payload \/ t = ids_required
      \/ t = null_waypoint \/ t = conversion_error).
Proof.
  split; [apply normalizeTask_not_object|].
  split; [apply normalizeTask_no_ids|].
  split; [split|split].
  - intros [t Hdone].
    destruct (normalizeTask_done _ _ Hdone) as (Hobj & Hconv & s & e & Hids & _).
    split; [exact Hobj|]. split; [congruence | exact Hconv].
  - intros (Hobj & Hids & Hconv).
    destruct (task_ids input) as [[s e]|] eqn:E; [|congruence].
    eexists. apply (proj1 (normalizeTask_conversions _ _ _ Hobj E) Hconv).
  - intros Hobj Hids before after Hwps Hbefore.
    apply (normalizeTask_waypoints_raise _ _ Hobj Hids).
    rewrite Hwps. apply map_attempt_null_waypoint. exact Hbefore.
  - intros t Hraise.
    destruct (is_object input) eqn:Hobj;
      [|rewrite (normalizeTask_not_object _ Hobj) in Hraise; left; congruence].
    destruct (task_ids input) as [[s e]|] eqn:Hids;
      [|rewrite (normalizeTask_no_ids _ Hobj Hids) in Hraise; right; left; congruence].
    destruct (normalizeTask_conversions input s e Hobj Hids) as [Hyes Hno].
    destruct (pipe_convertible input).
    + rewrite (Hyes eq_refl) in Hraise. discriminate.
    + destruct (Hno eq_refl) as (t' & Ht' & Hcases).
      rewrite Ht' in Hraise. injection Hraise as <-. right. right. exact Hcases.
Qed.

(** ** What [normalizeConduitTask] returns *)

Lemma conduit_override_block (input : jsval) (s e : float) :
  conduit_override (coalesce_own (task_fields input) ["override"; "Override"])
  = if fields_convertible
         (task_fields (coalesce_own (task_fields input) ["override"; "Override"]))
         override_keys
    then Done match conduit_override_fields (conduit_task_of input s e) with
              | [] => []
              | _ =>
                [("Override", JObj (conduit_override_fields (conduit_task_of input s e)))]
              end
    else Raise conversion_error.
Proof.
  unfold conduit_override_fields, conduit_task_of, fields_convertible, override_keys.
  cbn [ct_OverrideConduitTypeId ct_OverrideLevelId ct_OverrideDiameterMm forallb].
  generalize (coalesce_own (task_fields input) ["override"; "Override"]).
  intros overrideRaw. unfold conduit_override.
  destruct (is_object overrideRaw) eqn:Hobj.
  - assert (Hguard : truthy overrideRaw
                     && String.eqb (typeof overrideRaw) "object" = true)
      by (destruct overrideRaw as [[]|]; try discriminate; reflexivity).
    rewrite Hguard, !(coalesce_props_defined _ _ (is_object_defined _ Hobj)).
    cbn [attempt_bind]. rewrite !number_entry_convertible.
    destruct (convertible (coalesce_own _ ["conduitTypeId"; _])); [|reflexivity].
    cbn [attempt_bind andb].
    destruct (convertible (coalesce_own _ ["levelId"; _])); [|reflexivity].
    cbn [attempt_bind andb].
    destruct (convertible (coalesce_own _ ["diameterMm"; _; _; _; _])); [|reflexivity].
    cbn [attempt_bind andb].
    destruct (_ ++ _); reflexivity.
  - assert (Hguard : truthy overrideRaw
                     && String.eqb (typeof overrideRaw) "object" = false).
    { destruct overrideRaw as [[| b | x | s' | |]|]; try discriminate;
        try reflexivity; simpl; apply andb_false_r. }
    assert (Hfields : task_fields overrideRaw = [])
      by (destruct overrideRaw as [[]|]; try discriminate; reflexivity).
    rewrite Hguard, Hfields, !coalesce_own_nil. reflexivity.
Qed.

Lemma normalizeConduitTask_not_object (input : jsval) :
  is_object input = false -> normalizeConduitTask input = Raise invalid_payload.
Proof.
  intros Hobj. unfold normalizeConduitTask. rewrite is_object_guard, Hobj.
  reflexivity.
Qed.

Lemma normalizeConduitTask_no_ids (input : jsval) :
  is_object input = true -> task_ids input = None ->
  normalizeConduitTask input = Raise ids_required.
Proof.
  intros Hobj Hids. unfold normalizeConduitTask.
  rewrite is_object_guard, Hobj.
  rewrite !(coalesce_props_defined _ _ (is_object_defined _ Hobj)).
  cbn [negb attempt_bind]. unfold task_ids in Hids.
  destruct (coalesce_own _ _) as [[]|]; try reflexivity.
  destruct (coalesce_own _ _) as [[]|]; try reflexivity.
  discriminate.
Qed.

Lemma normalizeConduitTask_waypoints_raise (input : jsval) (t : thrown) :
  is_object input = true -> task_ids input <> None ->
  map_attempt (waypoint_of "X" "Y" "Z") (task_waypoints input) = Raise t ->
  normalizeConduitTask input = Raise t.
Proof.
  intros Hobj Hids Hraise. unfold normalizeConduitTask.
  rewrite is_object_guard, Hobj.
  rewrite !(coalesce_props_defined _ _ (is_object_defined _ Hobj)).
  cbn [negb attempt_bind]. unfold task_ids in Hids.
  destruct (coalesce_own _ ["startElementId"; _; _]) as [[]|]; try congruence.
  destruct (coalesce_own _ ["endElementId"; _; _]) as [[]|]; try congruence.
  rewrite waypoints_of_task, Hraise. reflexivity.
Qed.

Lemma normalizeConduitTask_conversions (input : jsval) (s e : float) :
  is_object input = true -> task_ids input = Some (s, e) ->
  (conduit_convertible input = true ->
   normalizeConduitTask input
   = Done (conduit_task_object (conduit_task_of input s e)))
  /\ (conduit_convertible input = false ->
      exists t, normalizeConduitTask input = Raise t
                /\ (t = null_waypoint \/ t = conversion_error)).
Proof.
  intros Hobj Hids. unfold normalizeConduitTask.
  rewrite is_object_guard, Hobj.
  rewrite !(coalesce_props_defined _ _ (is_object_defined _ Hobj)).
  cbn [negb attempt_bind]. unfold task_ids in Hids.
  destruct (coalesce_own _ ["startElementId"; _; _]) as [[]|]; try discriminate.
  destruct (coalesce_own _ ["endElementId"; _; _]) as [[]|]; try discriminate.
  injection Hids as -> ->.
  rewrite waypoints_of_task, (conduit_override_block input s e).
  rewrite !number_entry_convertible.
  unfold conduit_convertible.
  destruct (forallb waypoint_ok (task_waypoints input)) eqn:Hwps.
  2: { split; [discriminate|]. intros _.
       destruct (map_attempt_waypoints_refused "X" "Y" "Z" _ Hwps) as (t & -> & Ht).
       exists t. split; [reflexivity | exact Ht]. }
  rewrite (map_attempt_waypoints _ _ _ _ Hwps). cbn [attempt_bind andb].
  destruct (fields_convertible _ override_keys);
    [|split; [discriminate
             | intros _; exists conversion_error;
               split; [reflexivity | right; reflexivity]]].
  cbn [attempt_bind andb lift_result ToNumber].
  unfold fields_convertible, conduit_optional_keys. cbn [forallb].
  repeat match goal with
         | |- context [convertible (coalesce_own (task_fields input) ?ks)] =>
           destruct (convertible (coalesce_own (task_fields input) ks));
           cbn [attempt_bind andb];
           [|split; [discriminate
                    | intros _; exists conversion_error;
                      split; [reflexivity | right; reflexivity]]]
         end.
  split; [intros _ | discriminate].
  unfold conduit_task_object.
  cbn [ct_StartElementId ct_EndElementId ct_Waypoints ct_MinSegmentLengthMm
       ct_TrayOffsetMm ct_ToleranceMm ct_ToleranceDeg ct_ConduitDiameterMm
       conduit_task_of].
  destruct (task_waypoints input) as [|p items]; [reflexivity|].
  cbn [map length Nat.ltb Nat.leb]. rewrite map_map. reflexivity.
Qed.

Lemma normalizeConduitTask_done (input : jsval) (t : json) :
  normalizeConduitTask input = Done t ->
  is_object input = true
  /\ conduit_convertible input = true
  /\ exists s e, task_ids input = Some (s, e)
                 /\ t = conduit_task_object (conduit_task_of input s e).
Proof.
  intros Hdone.
  destruct (is_object input) eqn:Hobj;
    [|rewrite (normalizeConduitTask_not_object _ Hobj) in Hdone; discriminate].
  destruct (task_ids input) as [[s e]|] eqn:Hids;
    [|rewrite (normalizeConduitTask_no_ids _ Hobj Hids) in Hdone; discriminate].
  destruct (normalizeConduitTask_conversions input s e Hobj Hids) as [Hyes Hno].
  destruct (conduit_convertible input).
  - rewrite (Hyes eq_refl) in Hdone. injection Hdone as <-.
    split; [reflexivity|]. split; [reflexivity|]. exists s, e. split; reflexivity.
  - destruct (Hno eq_refl) as (t' & Hraise & _). congruence.
Qed.

Lemma conduit_task_object_override (r : conduit_task) :
  coalesce_own (task_fields (Some (conduit_task_object r))) ["override"; "Override"]
  = match conduit_override_fields r with
    | [] => None
    | _ :: _ => Some (JObj (conduit_override_fields r))
    end.
Proof.
  unfold conduit_task_object, task_fields. rewrite coalesce_own_cons.
  cbn [coalesce_own].
  rewrite ?own_property_app, ?own_property_optional_number, ?own_property_guarded.
  destruct (ct_Waypoints r); reflexivity.
Qed.

Lemma conduit_task_of_object (r : conduit_task) :
  conduit_task_of (Some (conduit_task_object r))
    (ct_StartElementId r) (ct_EndElementId r)
  = r.
Proof.
  unfold conduit_task_of. rewrite conduit_task_object_override.
  destruct r as [s e wps o1 o2 o3 o4 o5 p1 p2 p3].
  unfold task_waypoints, conduit_task_object, task_fields, conduit_override_fields.
  cbn [ct_StartElementId ct_EndElementId ct_Waypoints ct_MinSegmentLengthMm
       ct_TrayOffsetMm ct_ToleranceMm ct_ToleranceDeg ct_ConduitDiameterMm
       ct_OverrideConduitTypeId ct_OverrideLevelId ct_OverrideDiameterMm].
  f_equal.
  - simpl coalesce_own.
    rewrite ?own_property_app, ?own_property_optional_number,
      ?own_property_guarded; simpl.
    destruct wps as [|w wps]; [reflexivity|].
    apply map_point_of_object. right. repeat split.
  - simpl coalesce_own.
    rewrite ?own_property_app, ?own_property_optional_number,
      ?own_property_guarded; simpl. destruct o1; reflexivity.
  - simpl coalesce_own.
    rewrite ?own_property_app, ?own_property_optional_number,
      ?own_property_guarded; simpl. destruct o2; reflexivity.
  - simpl coalesce_own.
    rewrite ?own_property_app, ?own_property_optional_number,
      ?own_property_guarded; simpl. destruct o3; reflexivity.
  - simpl coalesce_own.
    rewrite ?own_property_app, ?own_property_optional_number,
      ?own_property_guarded; simpl. destruct o4; reflexivity.
  - simpl coalesce_own.
    rewrite ?own_property_app, ?own_property_optional_number,
      ?own_property_guarded; simpl. destruct o5; reflexivity.
  - destruct p1, p2, p3; reflexivity.
  - destruct p1, p2, p3; reflexivity.
  - destruct p1, p2, p3; reflexivity.
Qed.

Lemma conduit_task_object_ids (r : conduit_task) :
  task_ids (Some (conduit_task_object r))
  = Some (ct_StartElementId r, ct_EndElementId r).
Proof.
  unfold task_ids, conduit_task_object, task_fields. simpl coalesce_own.
  rewrite ?own_property_app, ?own_property_optional_number, ?own_property_guarded.
  reflexivity.
Qed.

Lemma conduit_task_object_waypoints (r : conduit_task) :
  task_waypoints (Some (conduit_task_object r))
  = map (point_object "X" "Y" "Z") (ct_Waypoints r).
Proof.
  unfold task_waypoints, conduit_task_object, task_fields. simpl coalesce_own.
  rewrite ?own_property_app, ?own_property_optional_number, ?own_property_guarded.
  destruct (ct_Waypoints r); reflexivity.
Qed.

Lemma conduit_override_fields_values (r : conduit_task) :
  Forall (fun kv => convertible_json (snd kv) = true) (conduit_override_fields r)
  /\ convertible_json (JObj (conduit_override_fields r)) = true.
Proof.
  unfold conduit_override_fields. split.
  - repeat (apply Forall_app; split); apply optional_number_convertible.
  - destruct (ct_OverrideConduitTypeId r), (ct_OverrideLevelId r),
      (ct_OverrideDiameterMm r); reflexivity.
Qed.

Lemma conduit_task_object_values (r : conduit_task) :
  Forall (fun kv => convertible_json (snd kv) = true)
         (task_fields (Some (conduit_task_object r))).
Proof.
  unfold conduit_task_object, task_fields.
  repeat (apply Forall_app; split); try apply optional_number_convertible.
  - repeat constructor.
  - destruct (ct_Waypoints r) as [|w wps] eqn:E; constructor; [|constructor].
    apply (points_convertible "X" "Y" "Z" (w :: wps)). right. repeat split.
  - destruct (conduit_override_fields r) eqn:E; constructor; [|constructor].
    rewrite <- E. apply conduit_override_fields_values.
Qed.

Lemma conduit_task_object_convertible (r : conduit_task) :
  conduit_convertible (Some (conduit_task_object r)) = true.
Proof.
  unfold conduit_convertible.
  rewrite conduit_task_object_waypoints, conduit_task_object_override.
  rewrite (proj2 (map_point_of_object "X" "Y" "Z" (ct_Waypoints r)
                    ltac:(right; repeat split))).
  rewrite (fields_convertible_all _ conduit_optional_keys
             (conduit_task_object_values r)).
  rewrite fields_convertible_all; [reflexivity|].
  destruct (conduit_override_fields r) eqn:E; [constructor|].
  rewrite <- E. apply conduit_override_fields_values.
Qed.

Lemma normalizeConduitTask_fixes (r : conduit_task) :
  normalizeConduitTask (Some (conduit_task_object r))
  = Done (conduit_task_object r).
Proof.
  rewrite (proj1 (normalizeConduitTask_conversions (Some (conduit_task_object r))
                    (ct_StartElementId r) (ct_EndElementId r) eq_refl
                    (conduit_task_object_ids r))
             (conduit_task_object_convertible r)).
  rewrite conduit_task_of_object. reflexivity.
Qed.

(** X15.  Normalising a conduit task twice is normalising it once: what
    [normalizeConduitTask] returns is a task in the shape of
    [ConduitRouteTaskInfo] (the two identifiers, [Waypoints] only when
    there are some, each as three numbers [X], [Y], [Z], the optional
    numbers, an [Override] block only when it has a key), and
    [normalizeConduitTask] returns that task unchanged. *)
Theorem normalizeConduitTask_idempotent (input : jsval) (t : json) :
  normalizeConduitTask input = Done t ->
  (exists r : conduit_task, t = conduit_task_object r)
  /\ normalizeConduitTask (Some t) = Done t.
Proof.
  intros Hdone.
  destruct (normalizeConduitTask_done _ _ Hdone) as (_ & _ & s & e & _ & ->).
  split; [eexists; reflexivity | apply normalizeConduitTask_fixes].
Qed.

(** X16.  What [normalizeConduitTask] does with a payload, case by case.
    It refuses what is not an object or an array as an invalid payload,
    and an object or array without two numeric identifiers for its
    identifiers.  Past these two tests the task is accepted when, and only
    when, no waypoint is [null] and every value that goes through
    [Number] is convertible: the coordinates of the waypoints, the five
    optional fields, and the three fields of [override] when [override] is
    an object.  Whatever it throws is one of four errors.  An [override]
    that is not an object or an array is not read and is left out of the
    result, and an [Override] block in the result is never empty. *)
Theorem normalizeConduitTask_outcome (input : jsval) :
  (is_object input = false -> normalizeConduitTask input = Raise invalid_payload)
  /\ (is_object input = true -> task_ids input = None ->
      normalizeConduitTask input = Raise ids_required)
  /\ ((exists t, normalizeConduitTask input = Done t)
      <-> is_object input = true /\ task_ids input <> None
          /\ conduit_convertible input = true)
  /\ (forall t, normalizeConduitTask input = Raise t ->
      t = invalid_payload \/ t = ids_required
      \/ t = null_waypoint \/ t = conversion_error)
  /\ (is_object (coalesce_own (task_fields input) ["override"; "Override"]) = false ->
      fields_convertible
        (task_fields (coalesce_own (task_fields input) ["override"; "Override"]))
        override_keys = true)
  /\ (forall t, normalizeConduitTask input = Done t ->
      (forall fields,
         own_property "Override" (task_fields (Some t)) = Some (JObj fields) ->
         fields <> [])
      /\ (is_object (coalesce_own (task_fields input) ["override"; "Override"])
          = false -> own_property "Override" (task_fields (Some t)) = None)).
Proof.
  split; [apply normalizeConduitTask_not_object|].
  split; [apply normalizeConduitTask_no_ids|].
  split; [split|split; [|split]].
  - intros [t Hdone].
    destruct (normalizeConduitTask_done _ _ Hdone)
      as (Hobj & Hconv & s & e & Hids & _).
    split; [exact Hobj|]. split; [congruence | exact Hconv].
  - intros (Hobj & Hids & Hconv).
    destruct (task_ids input) as [[s e]|] eqn:E; [|congruence].
    eexists. apply (proj1 (normalizeConduitTask_conversions _ _ _ Hobj E) Hconv).
  - intros t Hraise.
    destruct (is_object input) eqn:Hobj;
      [|rewrite (normalizeConduitTask_not_object _ Hobj) in Hraise; left; congruence].
    destruct (task_ids input) as [[s e]|] eqn:Hids;
      [|rewrite (normalizeConduitTask_no_ids _ Hobj Hids) in Hraise;
        right; left; congruence].
    destruct (normalizeConduitTask_conversions input s e Hobj Hids) as [Hyes Hno].
    destruct (conduit_convertible input).
    + rewrite (Hyes eq_refl) in Hraise. discriminate.
    + destruct (Hno eq_refl) as (t' & Ht' & Hcases).
      rewrite Ht' in Hraise. injection Hraise as <-. right. right. exact Hcases.
  - intros Hov.
    assert (Hfields : task_fields
                        (coalesce_own (task_fields input) ["override"; "Override"])
                      = [])
      by (destruct (coalesce_own _ _) as [[]|]; try discriminate; reflexivity).
    rewrite Hfields. apply fields_convertible_all. constructor.
  - intros t Hdone.
    destruct (normalizeConduitTask_done _ _ Hdone) as (_ & _ & s & e & _ & ->).
    assert (Hown : own_property "Override"
                     (task_fields (Some (conduit_task_object (conduit_task_of input s e))))
                   = match conduit_override_fields (conduit_task_of input s e) with
                     | [] => None
                     | _ :: _ =>
                       Some (JObj (conduit_override_fields (conduit_task_of input s e)))
                     end).
    { unfold conduit_task_object, task_fields.
      rewrite ?own_property_app, ?own_property_optional_number,
        ?own_property_guarded.
      destruct (ct_Waypoints _); reflexivity. }
    rewrite Hown. split.
    + intros fields. destruct (conduit_override_fields _) eqn:E; [discriminate|].
      intros Heq. injection Heq as <-. discriminate.
    + intros Hov.
      assert (Hfields : task_fields
                          (coalesce_own (task_fields input) ["override"; "Override"])
                        = [])
        by (destruct (coalesce_own _ _) as [[]|]; try discriminate; reflexivity).
      unfold conduit_override_fields, conduit_task_of.
      cbn [ct_OverrideConduitTypeId ct_OverrideLevelId ct_OverrideDiameterMm].
      rewrite Hfields, !coalesce_own_nil. reflexivity.
Qed.

End Routing.

(** ** The batch handlers *)

Lemma map_attempt_length {A B : Type} (f : A -> attempt B) (l : list A)
    (l' : list B) :
  map_attempt f l = Done l' -> length l' = length l.
Proof.
  revert l'. induction l as [|a l IH]; intros l' Hdone.
  - injection Hdone as <-. reflexivity.
  - simpl in Hdone. destruct (f a) as [b|t]; [|discriminate].
    cbn [attempt_bind] in Hdone.
    destruct (map_attempt f l) as [bs|t]; [|discriminate].
    injection Hdone as <-. simpl. f_equal. apply IH. reflexivity.
Qed.

(** [map] stops at the first element on which the function throws. *)
Lemma map_attempt_first_failure {A B : Type} (f : A -> attempt B) (l : list A)
    (i : nat) (a : A) (t : thrown) :
  l !! i = Some a -> f a = Raise t ->
  (forall j a', (j < i)%nat -> l !! j = Some a' -> exists b, f a' = Done b) ->
  map_attempt f l = Raise t.
Proof.
  revert i. induction l as [|x l IH]; intros i Hi Hfail Hbefore; [discriminate|].
  destruct i as [|i].
  - injection Hi as ->. simpl. rewrite Hfail. reflexivity.
  - simpl. destruct (Hbefore 0%nat x ltac:(lia) eq_refl) as [b ->].
    cbn [attempt_bind]. rewrite (IH i Hi Hfail); [reflexivity|].
    intros j a' Hj Ha'. apply (Hbefore (S j) a'); [lia | exact Ha'].
Qed.

Lemma filter_partition_length {A : Type} (f : A -> bool) (l : list A) :
  (length (List.filter f l) + length (List.filter (fun x => negb (f x)) l))%nat
  = length l.
Proof.
  induction l as [|a l IH]; [reflexivity|].
  simpl. destruct (f a); simpl; lia.
Qed.

Lemma run_parallel_length (exec : executor) (i : nat) (tasks : list json) :
  length (run_parallel exec i tasks) = length tasks.
Proof.
  revert i. induction tasks as [|task tasks IH]; intros i; [reflexivity|].
  simpl. f_equal. apply IH.
Qed.

Lemma run_parallel_indices (exec : executor) (i : nat) (tasks : list json) :
  map entry_index (run_parallel exec i tasks) = seq i (length tasks).
Proof.
  revert i. induction tasks as [|task tasks IH]; intros i; [reflexivity|].
  simpl. rewrite IH. destruct (exec i task); reflexivity.
Qed.

Lemma run_sequential_length (exec : executor) (stopOnError : bool) (i : nat)
    (tasks : list json) :
  (length (run_sequential exec stopOnError i tasks) <= length tasks)%nat
  /\ (stopOnError = false ->
      length (run_sequential exec stopOnError i tasks) = length tasks).
Proof.
  revert i. induction tasks as [|task tasks IH]; intros i; [split; reflexivity|].
  simpl. destruct (IH (S i)) as [Hle Heq].
  destruct (exec i task); [simpl; split; [lia | intros H; rewrite (Heq H); reflexivity]|].
  destruct stopOnError; simpl; split; try lia; try discriminate.
Qed.

Lemma run_sequential_indices (exec : executor) (stopOnError : bool) (i : nat)
    (tasks : list json) :
  map entry_index (run_sequential exec stopOnError i tasks)
  = seq i (length (run_sequential exec stopOnError i tasks)).
Proof.
  revert i. induction tasks as [|task tasks IH]; intros i; [reflexivity|].
  simpl. destruct (exec i task); [simpl; rewrite IH; reflexivity|].
  destruct stopOnError; simpl; [reflexivity | rewrite IH; reflexivity].
Qed.


Lemma run_parallel_lookup (exec : executor) (i k : nat) (tasks : list json)
    (e : batch_entry) :
  run_parallel exec i tasks !! k = Some e ->
  exists task, tasks !! k = Some task
               /\ e = match exec (i + k)%nat task with
                      | inl resp => EntryOk (i + k) resp
                      | inr msg => EntryFailed (i + k) msg
                      end.
Proof.
  revert i k. induction tasks as [|task tasks IH]; intros i k Hk; [discriminate|].
  destruct k as [|k].
  - injection Hk as <-. exists task. rewrite Nat.add_0_r. split; reflexivity.
  - simpl in Hk. destruct (IH (S i) k Hk) as (task' & Htask & ->).
    exists task'. replace (i + S k)%nat with (S i + k)%nat by lia.
    split; [exact Htask | reflexivity].
Qed.

Lemma run_sequential_lookup (exec : executor) (stopOnError : bool) (i k : nat)
    (tasks : list json) (e : batch_entry) :
  run_sequential exec stopOnError i tasks !! k = Some e ->
  exists task, tasks !! k = Some task
               /\ e = match exec (i + k)%nat task with
                      | inl resp => EntryOk (i + k) resp
                      | inr msg => EntryFailed (i + k) msg
                      end.
Proof.
  revert i k. induction tasks as [|task tasks IH]; intros i k Hk; [discriminate|].
  destruct k as [|k].
  - exists task. rewrite Nat.add_0_r. split; [reflexivity|].
    simpl in Hk. destruct (exec i task); injection Hk as <-; reflexivity.
  - assert (Hrest : run_sequential exec stopOnError (S i) tasks !! k = Some e).
    { simpl in Hk. destruct (exec i task); [exact Hk|].
      destruct stopOnError; [discriminate | exact Hk]. }
    destruct (IH (S i) k Hrest) as (task' & Htask & ->).
    exists task'. replace (i + S k)%nat with (S i + k)%nat by lia.
    split; [exact Htask | reflexivity].
Qed.

(** With [stopOnError], the loop ends with the first failure. *)
Lemma run_sequential_stops (exec : executor) (i : nat) (tasks : list json) :
  let results := run_sequential exec true i tasks in
  (length (List.filter (fun r => negb (entry_ok r)) results) <= 1)%nat
  /\ (forall k e, results !! k = Some e -> (S k < length results)%nat ->
      entry_ok e = true)
  /\ (length (List.filter (fun r => negb (entry_ok r)) results) = 0%nat ->
      length results = length tasks)
  /\ (forall exec' : executor,
      (forall k task, (k < length results)%nat ->
                      exec' (i + k)%nat task = exec (i + k)%nat task) ->
      run_sequential exec' true i tasks = results).
Proof.
  revert i. induction tasks as [|task tasks IH]; intros i.
  - simpl. repeat split; try lia; try discriminate.
  - cbn zeta. simpl run_sequential. destruct (exec i task) as [resp|msg] eqn:E.
    + destruct (IH (S i)) as (Hone & Hok & Hall & Hsame).
      cbn zeta in Hone, Hok, Hall, Hsame. simpl.
      split; [exact Hone|]. split; [|split].
      * intros [|k] e Hk Hlen.
        -- injection Hk as <-. reflexivity.
        -- apply (Hok k e Hk). lia.
      * intros Hzero. rewrite (Hall Hzero). reflexivity.
      * intros exec' Hexec.
        pose proof (Hexec 0%nat task ltac:(lia)) as H0.
        rewrite Nat.add_0_r in H0. rewrite H0, E. f_equal.
        apply Hsame. intros k task' Hk.
        replace (S i + k)%nat with (i + S k)%nat by lia.
        apply Hexec. lia.
    + simpl. split; [lia|]. split; [|split].
      * intros k e Hk Hlen. lia.
      * discriminate.
      * intros exec' Hexec.
        pose proof (Hexec 0%nat task ltac:(lia)) as H0.
        rewrite Nat.add_0_r in H0. rewrite H0, E. reflexivity.
Qed.

Lemma route_handler_run_no_task (normalize : jsval -> attempt json)
    (provide prefix : string) (exec : executor) (args : batch_args) :
  rawTasks_of args = [] ->
  route_handler_run normalize provide prefix exec args
  = (Failure (prefix +:+ provide), []).
Proof. intros Hraw. unfold route_handler_run. rewrite Hraw. reflexivity. Qed.

Lemma route_handler_run_refused (normalize : jsval -> attempt json)
    (provide prefix : string) (exec : executor) (args : batch_args) (t : thrown) :
  rawTasks_of args <> [] ->
  map_attempt (fun task => normalize (Some task)) (rawTasks_of args) = Raise t ->
  route_handler_run normalize provide prefix exec args
  = (Failure (prefix +:+ thrown_message t), []).
Proof.
  intros Hraw Hfail. unfold route_handler_run.
  destruct (rawTasks_of args) as [|task rest]; [congruence|].
  cbn [length Nat.eqb]. rewrite Hfail. reflexivity.
Qed.

Lemma route_handler_no_task (normalize : jsval -> attempt json)
    (provide prefix : string) (exec : executor) (args : batch_args) :
  rawTasks_of args = [] ->
  route_handler normalize provide prefix exec args = Failure (prefix +:+ provide).
Proof.
  intros Hraw. unfold route_handler.
  rewrite (route_handler_run_no_task _ _ _ _ _ Hraw). reflexivity.
Qed.

Lemma route_handler_refused (normalize : jsval -> attempt json)
    (provide prefix : string) (exec : executor) (args : batch_args) (t : thrown) :
  rawTasks_of args <> [] ->
  map_attempt (fun task => normalize (Some task)) (rawTasks_of args) = Raise t ->
  route_handler normalize provide prefix exec args
  = Failure (prefix +:+ thrown_message t).
Proof.
  intros Hraw Hfail. unfold route_handler.
  rewrite (route_handler_run_refused _ _ _ _ _ _ Hraw Hfail). reflexivity.
Qed.

Lemma route_handler_report (normalize : jsval -> attempt json)
    (provide prefix : string) (exec : executor) (args : batch_args)
    (tasks : list json) :
  rawTasks_of args <> [] ->
  map_attempt (fun task => normalize (Some task)) (rawTasks_of args) = Done tasks ->
  route_handler normalize provide prefix exec args
  = let results :=
        if match arg_parallel args with Some b => b | None => false end
        then run_parallel exec 0 tasks
        else run_sequential exec
               match arg_stopOnError args with Some b => b | None => false end
               0 tasks in
    Report (length tasks) (length (List.filter entry_ok results))
           (length (List.filter (fun r => negb (entry_ok r)) results)) results.
Proof.
  intros Hraw Hdone. unfold route_handler, route_handler_run.
  destruct (rawTasks_of args) as [|task rest]; [congruence|].
  cbn [length Nat.eqb]. rewrite Hdone. reflexivity.
Qed.

(** X17.  A batch is validated as a whole before anything is sent: when
    the normaliser throws on one of the tasks (and on none before it), the
    handler answers with the failure text made of its prefix and of that
    error's message, and it has made no call of [execOne]: no command is
    sent, not even those of the valid tasks before the bad one, whatever
    the commands would have returned. *)
Theorem refused_batch_runs_nothing (normalize : jsval -> attempt json)
    (provide prefix : string) (args : batch_args)
    (i : nat) (task : json) (t : thrown) :
  rawTasks_of args !! i = Some task ->
  normalize (Some task) = Raise t ->
  (forall j task', (j < i)%nat -> rawTasks_of args !! j = Some task' ->
                   exists n, normalize (Some task') = Done n) ->
  forall exec : executor,
    route_handler_run normalize provide prefix exec args
    = (Failure (prefix +:+ thrown_message t), []).
Proof.
  intros Hi Hfail Hbefore exec.
  apply route_handler_run_refused.
  - intros Hnil. rewrite Hnil in Hi. discriminate.
  - apply (map_attempt_first_failure _ _ i task t Hi Hfail Hbefore).
Qed.

(** X18.  A call without a task is refused with the handler's own
    message and makes no call of [execOne]: that is so when [tasks] is an
    empty array, even if [task] is given (the task given is not run), and
    when [tasks] is absent and [task] is a falsy value ([undefined],
    [null], [0], [NaN], the empty string, [false]). *)
Theorem no_task_is_refused (normalize : jsval -> attempt json)
    (provide prefix : string) (exec : executor) (args : batch_args) :
  arg_tasks args = Some [] \/ (arg_tasks args = None /\ truthy (arg_task args) = false) ->
  route_handler_run normalize provide prefix exec args
  = (Failure (prefix +:+ provide), []).
Proof.
  intros Hargs. apply route_handler_run_no_task. unfold rawTasks_of.
  destruct Hargs as [-> | [-> Hfalsy]]; [reflexivity|].
  destruct (arg_task args) as [task|]; [|reflexivity].
  rewrite Hfalsy. reflexivity.
Qed.

(** X19.  The report of a batch accounts for every command that was run:
    [total] is the number of tasks given, the results are those of the
    tasks 0, 1, 2, ... in this order, each saying how the command of its
    own task ended, [succeeded] and [failed] add up to the number of
    results, and every task has a result when the batch ran in parallel
    or without [stopOnError]. *)
Theorem batch_report_accounts (normalize : jsval -> attempt json)
    (provide prefix : string) (exec : executor) (args : batch_args)
    (tasks : list json) :
  rawTasks_of args <> [] ->
  map_attempt (fun task => normalize (Some task)) (rawTasks_of args) = Done tasks ->
  exists succeeded failed results,
    route_handler normalize provide prefix exec args
    = Report (length (rawTasks_of args)) succeeded failed results
    /\ (succeeded + failed)%nat = length results
    /\ (length results <= length (rawTasks_of args))%nat
    /\ map entry_index results = seq 0 (length results)
    /\ (forall k e, results !! k = Some e ->
        exists task, tasks !! k = Some task
                     /\ e = match exec k task with
                            | inl resp => EntryOk k resp
                            | inr msg => EntryFailed k msg
                            end)
    /\ (arg_parallel args = Some true \/ arg_stopOnError args <> Some true ->
        length results = length (rawTasks_of args)).
Proof.
  intros Hraw Hdone.
  rewrite (route_handler_report _ _ _ _ _ _ Hraw Hdone). cbn zeta.
  rewrite <- (map_attempt_length _ _ _ Hdone).
  eexists _, _, _. split; [reflexivity|].
  split; [apply filter_partition_length|].
  destruct (match arg_parallel args with Some b => b | None => false end) eqn:Hpar.
  - split; [rewrite run_parallel_length; lia|].
    split; [rewrite run_parallel_indices, run_parallel_length; reflexivity|].
    split; [intros k e Hk; apply (run_parallel_lookup exec 0 k tasks e Hk)|].
    intros _. apply run_parallel_length.
  - destruct (run_sequential_length exec
                match arg_stopOnError args with Some b => b | None => false end
                0 tasks) as [Hle Heq].
    split; [exact Hle|].
    split; [apply run_sequential_indices|].
    split; [intros k e Hk; apply (run_sequential_lookup exec _ 0 k tasks e Hk)|].
    intros [Hp | Hs].
    + rewrite Hp in Hpar. discriminate.
    + apply Heq. destruct (arg_stopOnError args) as [[]|]; congruence.
Qed.

(** X20.  [stopOnError] in a sequential batch: the loop stops at the first
    command that fails.  The report counts at most one failure, every
    result before the last is a success, without a failure every task has
    a result, and the commands of the tasks after the failing one are never
    run: an executor that differs only on them gives the same report. *)
Theorem stopOnError_stops_at_first_failure (normalize : jsval -> attempt json)
    (provide prefix : string) (exec : executor) (args : batch_args)
    (total succeeded failed : nat) (results : list batch_entry) :
  arg_parallel args <> Some true ->
  arg_stopOnError args = Some true ->
  route_handler normalize provide prefix exec args
  = Report total succeeded failed results ->
  (failed <= 1)%nat
  /\ (forall k e, results !! k = Some e -> (S k < length results)%nat ->
      entry_ok e = true)
  /\ (failed = 0%nat -> length results = total)
  /\ (forall exec' : executor,
      (forall k task, (k < length results)%nat -> exec' k task = exec k task) ->
      route_handler normalize provide prefix exec' args
      = Report total succeeded failed results).
Proof.
  intros Hpar Hstop Hreport.
  destruct (rawTasks_of args) as [|task0 rest] eqn:Hraw.
  { rewrite (route_handler_no_task _ _ _ _ _ Hraw) in Hreport. discriminate. }
  assert (Hne : rawTasks_of args <> []) by (rewrite Hraw; discriminate).
  destruct (map_attempt (fun task => normalize (Some task)) (rawTasks_of args))
    as [tasks|t] eqn:Hnorm.
  2: { rewrite (route_handler_refused _ _ _ _ _ _ Hne Hnorm) in Hreport.
       discriminate. }
  assert (Hp : match arg_parallel args with Some b => b | None => false end = false)
    by (destruct (arg_parallel args) as [[]|]; congruence).
  rewrite (route_handler_report _ _ _ _ _ _ Hne Hnorm) in Hreport.
  rewrite Hp, Hstop in Hreport. cbn zeta in Hreport.
  injection Hreport as <- <- <- <-.
  destruct (run_sequential_stops exec 0 tasks) as (Hone & Hok & Hall & Hsame).
  cbn zeta in Hone, Hok, Hall, Hsame.
  split; [exact Hone|]. split; [exact Hok|]. split; [exact Hall|].
  intros exec' Hexec.
  rewrite (route_handler_report _ _ _ _ _ _ Hne Hnorm), Hp, Hstop. cbn zeta.
  rewrite (Hsame exec' Hexec). reflexivity.
Qed.

Lemma calls_sequential_results (exec : executor) (stopOnError : bool) (i : nat)
    (tasks : list json) :
  map fst (calls_sequential exec stopOnError i tasks)
  = map entry_index (run_sequential exec stopOnError i tasks).
Proof.
  revert i. induction tasks as [|task tasks IH]; intros i; [reflexivity|].
  simpl. destruct (exec i task); simpl; [rewrite IH; reflexivity|].
  destruct stopOnError; simpl; [reflexivity | rewrite IH; reflexivity].
Qed.

Lemma calls_parallel_results (exec : executor) (i : nat) (tasks : list json) :
  map fst (calls_parallel i tasks) = map entry_index (run_parallel exec i tasks).
Proof.
  revert i. induction tasks as [|task tasks IH]; intros i; [reflexivity|].
  simpl. rewrite IH. destruct (exec i task); reflexivity.
Qed.

Lemma calls_sequential_lookup (exec : executor) (stopOnError : bool) (i k : nat)
    (tasks : list json) (call : exec_call) :
  calls_sequential exec stopOnError i tasks !! k = Some call ->
  call.1 = (i + k)%nat /\ tasks !! k = Some call.2.
Proof.
  revert i k. induction tasks as [|task tasks IH]; intros i k Hk; [discriminate|].
  destruct k as [|k].
  - injection Hk as <-. rewrite Nat.add_0_r. split; reflexivity.
  - assert (Hrest : calls_sequential exec stopOnError (S i) tasks !! k = Some call).
    { simpl in Hk. destruct (exec i task); [exact Hk|].
      destruct stopOnError; [discriminate | exact Hk]. }
    destruct (IH (S i) k Hrest) as [H1 H2].
    split; [rewrite H1; lia | exact H2].
Qed.

Lemma calls_parallel_lookup (i k : nat) (tasks : list json) (call : exec_call) :
  calls_parallel i tasks !! k = Some call ->
  call.1 = (i + k)%nat /\ tasks !! k = Some call.2.
Proof.
  revert i k. induction tasks as [|task tasks IH]; intros i k Hk; [discriminate|].
  destruct k as [|k].
  - injection Hk as <-. rewrite Nat.add_0_r. split; reflexivity.
  - destruct (IH (S i) k Hk) as [H1 H2].
    split; [rewrite H1; lia | exact H2].
Qed.

(** X21.  The calls of [execOne] and the results of a batch go together:
    when every task normalises, the handler calls [execOne] at least once,
    each call is for the normalised task of its index, and the calls are
    those of the results, in the same order: a task has a result when, and
    only when, its command was sent. *)
Theorem calls_are_the_results (normalize : jsval -> attempt json)
    (provide prefix : string) (exec : executor) (args : batch_args)
    (tasks : list json) :
  rawTasks_of args <> [] ->
  map_attempt (fun task => normalize (Some task)) (rawTasks_of args) = Done tasks ->
  exists total succeeded failed results calls,
    route_handler_run normalize provide prefix exec args
    = (Report total succeeded failed results, calls)
    /\ calls <> []
    /\ map fst calls = map entry_index results
    /\ (forall k call, calls !! k = Some call ->
        call.1 = k /\ tasks !! k = Some call.2).
Proof.
  intros Hraw Hdone.
  assert (Htasks : tasks <> []).
  { intros ->. apply map_attempt_length in Hdone.
    destruct (rawTasks_of args); [congruence | discriminate]. }
  unfold route_handler_run.
  destruct (rawTasks_of args) as [|task0 rest]; [congruence|].
  cbn [length Nat.eqb]. rewrite Hdone. cbn [attempt_bind].
  eexists _, _, _, _, _. split; [reflexivity|].
  destruct (match arg_parallel args with Some b => b | None => false end).
  - split; [destruct tasks; [congruence | discriminate]|].
    split; [apply calls_parallel_results|].
    intros k call Hk. apply (calls_parallel_lookup 0 k tasks call Hk).
  - split; [destruct tasks; [congruence | discriminate]|].
    split; [apply calls_sequential_results|].
    intros k call Hk. apply (calls_sequential_lookup exec _ 0 k tasks call Hk).
Qed.

(** * Closed examples *)

(** The frame of "ping" fed in five chunks, one of them empty. *)
Lemma framing_round_trip_witness :
  exists c' evs,
    @feed sample_runtime
      [[x00; x00]; [x00]; [x04; x70; x69]; []; [x6e; x67]] sample_conn
    = Some (c', evs)
    /\ emitted evs = ["ping"%string].
Proof.
  destruct (@framing_round_trip sample_runtime "ping" sample_conn)
    as (bytes & _ & Hb & Hall & _).
  - vm_compute. split; [reflexivity | discriminate].
  - reflexivity.
  - reflexivity.
  - destruct (Hall [[x00; x00]; [x00]; [x04; x70; x69]; []; [x6e; x67]])
      as (c' & evs & Hf & He & _).
    + rewrite Hb. reflexivity.
    + exists c', evs. split; [exact Hf | exact He].
Defined.

(** The frames of "ab" and "c" cut one byte before the end of the first:
    the first call emits nothing, the second both payloads. *)
Lemma boundary_straddling_witness :
  exists c1 evs1 c2 evs2,
    @processData sample_runtime [x00; x00; x00; x02; x61] sample_conn
    = Some (c1, evs1)
    /\ @processData sample_runtime [x62; x00; x00; x00; x01; x63] c1
       = Some (c2, evs2)
    /\ emitted evs1 = []
    /\ emitted evs1 ++ emitted evs2 = ["ab"%string; "c"%string].
Proof.
  assert (H := @boundary_straddling sample_runtime [x61; x62] [x63] 5%nat
                 sample_conn
                 ltac:(vm_compute; split; [reflexivity | discriminate])
                 ltac:(vm_compute; split; [reflexivity | discriminate])
                 ltac:(reflexivity)).
  cbv zeta in H.
  destruct H as (c1 & evs1 & c2 & evs2 & H1 & H2 & _ & H4 & H5 & _).
  exists c1, evs1, c2, evs2.
  split; [exact H1|]. split; [exact H2|]. split; [exact H4 | exact H5].
Defined.

(** The pending "ping" request: its response and its timer, in both
    orders. *)
Lemma deliver_expire_exactly_once_witness :
  let t := request_timer sample_id "ping" 0%nat in
  let deliver1 := @handleResponse sample_runtime pong_payload sample_pending in
  let expire1 := fire_timeout t sample_pending in
  length (settlements 0%nat (snd deliver1 ++ snd (fire_timeout t (fst deliver1))))
  = 1%nat
  /\ length (settlements 0%nat
               (snd expire1
                ++ snd (@handleResponse sample_runtime pong_payload (fst expire1))))
     = 1%nat.
Proof.
  assert (H := @deliver_expire_exactly_once sample_runtime sample_pending
                 sample_id "ping" pong_payload 0%nat
                 ltac:(apply (@reach_sendCommand sample_runtime), reach_new)
                 ltac:(vm_compute; reflexivity)
                 ltac:(eexists; split; vm_compute; reflexivity)).
  cbv zeta in H. destruct H as [(H1 & _) (H2 & _)].
  split; [exact H1 | exact H2].
Defined.

(** A prefix that decodes to 10 MiB + 1. *)
Lemma invalid_length_rejected_witness :
  exists c',
    @processData sample_runtime [x00; xa0; x00; x01; x7b] sample_conn
    = Some (c', [ConsoleError [LogStr "Invalid message length: 10485761"]])
    /\ lengthBuffer c' = [] /\ messageBuffer c' = [] /\ expectedLength c' = None.
Proof.
  destruct (@invalid_length_rejected sample_runtime [] [x00; xa0; x00; x01; x7b]
              [] sample_conn x00 xa0 x00 x01 [x7b])
    as (c' & evs & Hp & Hem & Hidle).
  - constructor.
  - exact I.
  - reflexivity.
  - reflexivity.
  - right. vm_compute. reflexivity.
  - assert (Hnil : evs = []).
    { unfold processData in Hp. vm_compute in Hp.
      destruct evs as [|e evs]; [reflexivity|].
      destruct evs; discriminate Hp. }
    subst evs. exists c'. split; [exact Hp | exact Hidle].
Defined.

(** The "ping" request: the one timer it sets, which fires with no
    response, and the response that comes too late. *)
Lemma request_timeout_witness :
  let expired := fire_timeout (request_timer sample_id "ping" 0%nat) sample_pending in
  timers_set (snd (@sendCommand sample_runtime 1700000000000 "0.123456789" 0%nat
                     "ping" None sample_conn))
  = [(request_timer sample_id "ping" 0%nat, 120000)]
  /\ snd expired
     = [Reject 0%nat (NewError (JStr "Command timed out after 2 minutes: ping"))]
  /\ responseCallbacks (fst expired) !! sample_id = None
  /\ @handleResponse sample_runtime pong_payload (fst expired) = (fst expired, []).
Proof.
  assert (H := @request_timeout sample_runtime 1700000000000 "0.123456789" "ping"
                 None 0%nat sample_conn).
  cbv zeta in H. destruct H as (_ & Hsent & _ & Hfire).
  destruct (Hsent _ eq_refl ltac:(vm_compute; discriminate)) as (Hreg & Htimers).
  destruct (Hfire sample_pending _ Hreg) as (H1 & _ & H3 & H4).
  cbv zeta. split; [exact Htimers|]. split; [exact H1|]. split; [exact H3|].
  apply H4. eexists. split; vm_compute; reflexivity.
Defined.


(** The response [{"id":...,"error":{"message":"boom"}}] to the pending
    request rejects with "boom". *)
Lemma result_error_propagation_witness :
  snd (@handleResponse sample_runtime boom_payload sample_pending)
  = [Reject 0%nat (NewError (JStr "boom"))].
Proof.
  assert (H := @result_error_propagation sample_runtime sample_pending sample_id
                 boom_payload 0%nat _
                 ltac:(apply (@reach_sendCommand sample_runtime), reach_new)
                 ltac:(vm_compute; reflexivity)
                 ltac:(vm_compute; reflexivity)
                 ltac:(vm_compute; reflexivity)).
  cbv zeta in H. destruct H as (_ & He & _).
  exact (He [("message"%string, JStr "boom")] "boom"%string eq_refl eq_refl).
Defined.

(** A response for the identifier "42", which nobody waits for. *)
Lemma unknown_id_dropped_witness :
  @handleResponse sample_runtime stray_payload sample_pending
  = (sample_pending, []).
Proof.
  apply (@unknown_id_dropped sample_runtime sample_pending stray_payload
           (JStr "42")).
  - vm_compute. reflexivity.
  - vm_compute. reflexivity.
Defined.

(** Half a length prefix arriving on a new connection. *)
Lemma two_stage_accumulator_witness :
  exists c' evs,
    @processData sample_runtime [x00; x00] sample_conn = Some (c', evs)
    /\ framer_inv c'.
Proof.
  exact (proj1 (proj2 (@two_stage_accumulator sample_runtime sample_conn
                         [x00; x00] 0 (reach_new "localhost" 8080)))).
Defined.

(** A response without [id] while the "ping" request is pending. *)
Lemma missing_id_falls_back_to_default_witness :
  @requestId_of sample_runtime anonymous_payload = Ok (JStr "default")
  /\ @handleResponse sample_runtime anonymous_payload sample_pending
     = (sample_pending, []).
Proof.
  assert (H := @missing_id_falls_back_to_default sample_runtime sample_pending
                 anonymous_payload _
                 ltac:(apply (@reach_sendCommand sample_runtime), reach_new)
                 ltac:(vm_compute; reflexivity)).
  destruct H as (_ & _ & Hid & _).
  exact (Hid None eq_refl eq_refl).
Defined.

(** ** Examples of the further properties *)

(** The PascalCase pipe task, normalised and normalised again. *)
Lemma normalizeTask_idempotent_witness :
  (exists r : pipe_task, sample_pipe_task = pipe_task_object r)
  /\ @normalizeTask sample_runtime sample_coercions (Some sample_pipe_task)
     = Done sample_pipe_task.
Proof.
  apply (@normalizeTask_idempotent sample_runtime sample_coercions
           (Some sample_pipe_payload) sample_pipe_task).
  vm_compute. reflexivity.
Defined.

(** The camelCase conduit task, normalised and normalised again. *)
Lemma normalizeConduitTask_idempotent_witness :
  (exists r : conduit_task, sample_conduit_task = conduit_task_object r)
  /\ @normalizeConduitTask sample_runtime sample_coercions (Some sample_conduit_task)
     = Done sample_conduit_task.
Proof.
  apply (@normalizeConduitTask_idempotent sample_runtime sample_coercions
           (Some sample_conduit_payload) sample_conduit_task).
  vm_compute. reflexivity.
Defined.

(** A batch whose second task has no identifiers: nothing is sent, not
    even the command of the first task. *)
Lemma refused_batch_runs_nothing_witness :
  route_handler_run (@normalizeTask sample_runtime sample_coercions)
    "Provide either { task: {...} } or { tasks: [{...}, ...] }."
    "Route pipes (single/batch) failed: " sample_executor sample_bad_batch
  = (Failure "Route pipes (single/batch) failed: Task requires startElementId and endElementId (number).",
     []).
Proof.
  refine (refused_batch_runs_nothing (@normalizeTask sample_runtime sample_coercions)
            "Provide either { task: {...} } or { tasks: [{...}, ...] }."
            "Route pipes (single/batch) failed: "
            sample_bad_batch 1%nat (JObj []) ids_required
            eq_refl eq_refl _ sample_executor).
  intros [|j] task' Hj Htask; [|lia].
  injection Htask as <-. eexists. vm_compute. reflexivity.
Defined.

(** [{ task: {...}, tasks: [] }]: the task is not looked at, and not
    run. *)
Lemma no_task_is_refused_witness :
  route_handler_run (@normalizeConduitTask sample_runtime sample_coercions)
    "Provide either { task } or { tasks }." "Route conduits failed: "
    sample_executor
    (mkBatchArgs (Some sample_conduit_payload) (Some []) None None)
  = (Failure "Route conduits failed: Provide either { task } or { tasks }.", []).
Proof.
  refine (no_task_is_refused (@normalizeConduitTask sample_runtime sample_coercions)
            "Provide either { task } or { tasks }." "Route conduits failed: "
            sample_executor
            (mkBatchArgs (Some sample_conduit_payload) (Some []) None None) _).
  left. reflexivity.
Defined.

(** The three tasks with [stopOnError]: two calls, for the tasks 0 and
    1. *)
Lemma calls_are_the_results_witness :
  exists results calls,
    route_handler_run (@normalizeTask sample_runtime sample_coercions)
      "Provide either { task: {...} } or { tasks: [{...}, ...] }."
      "Route pipes (single/batch) failed: " sample_executor
      (sample_batch None (Some true))
    = (Report 3 1 1 results, calls)
    /\ map fst calls = [0; 1]%nat
    /\ map entry_index results = [0; 1]%nat.
Proof.
  destruct (calls_are_the_results (@normalizeTask sample_runtime sample_coercions)
              "Provide either { task: {...} } or { tasks: [{...}, ...] }."
              "Route pipes (single/batch) failed: "
              sample_executor (sample_batch None (Some true))
              [sample_pipe_task; sample_pipe_task; sample_pipe_task])
    as (total & succeeded & failed & results & calls & Hrun & _ & Hcalls & _).
  - discriminate.
  - vm_compute. reflexivity.
  - vm_compute in Hrun. injection Hrun as <- <- <- <- <-.
    eexists _, _. split; [reflexivity|]. split; reflexivity.
Defined.

(** Three tasks in sequence without [stopOnError], the second failing. *)
Lemma batch_report_accounts_witness :
  exists results,
    @route_pipes_handler sample_runtime sample_coercions sample_executor
      (sample_batch None None)
    = Report 3 2 1 results
    /\ map entry_index results = [0; 1; 2]%nat.
Proof.
  destruct (batch_report_accounts (@normalizeTask sample_runtime sample_coercions)
              "Provide either { task: {...} } or { tasks: [{...}, ...] }."
              "Route pipes (single/batch) failed: "
              sample_executor (sample_batch None None)
              [sample_pipe_task; sample_pipe_task; sample_pipe_task])
    as (succeeded & failed & results & Hreport & _ & _ & Hidx & _ & Hall).
  - discriminate.
  - vm_compute. reflexivity.
  - exists results.
    assert (Hlen : length results = 3%nat) by (apply Hall; right; discriminate).
    rewrite Hlen in Hidx. split; [|exact Hidx].
    vm_compute in Hreport. vm_compute.
    injection Hreport as <- <- <-. reflexivity.
Defined.

(** The same three tasks with [stopOnError]: the third is not run, so
    that an executor that would fail on it gives the same report. *)
Lemma stopOnError_stops_at_first_failure_witness :
  @route_pipes_handler sample_runtime sample_coercions
    (fun i task => if (i =? 2)%nat then inr "not run"%string
                   else sample_executor i task)
    (sample_batch None (Some true))
  = Report 3 1 1
      [EntryOk 0 (Some (JBool true));
       EntryFailed 1 "Command timed out after 2 minutes: route_pipes_by_waypoints"].
Proof.
  refine (proj2 (proj2 (proj2
            (stopOnError_stops_at_first_failure
               (@normalizeTask sample_runtime sample_coercions)
               "Provide either { task: {...} } or { tasks: [{...}, ...] }."
               "Route pipes (single/batch) failed: "
               sample_executor (sample_batch None (Some true)) 3 1 1
               [EntryOk 0 (Some (JBool true));
                EntryFailed 1 "Command timed out after 2 minutes: route_pipes_by_waypoints"]
               _ eq_refl _))) _ _).
  - discriminate.
  - vm_compute. reflexivity.
  - intros [|[|k]] task Hk; [reflexivity | reflexivity | simpl in Hk; lia].
Defined.

(** The frame of "ping" and the first byte of a next one, in three
    chunks. *)
Lemma feed_refines_deliver_witness :
  exists c' evs,
    @feed sample_runtime [[x00; x00]; [x00; x04; x70; x69]; [x6e; x67; x00]]
      sample_conn
    = Some (c', evs)
    /\ emitted evs = ["ping"%string]
    /\ framer_state c' = ([x00], [], None).
Proof.
  destruct (@feed_refines_deliver sample_runtime
              [[x00; x00]; [x00; x04; x70; x69]; [x6e; x67; x00]]
              [[x70; x69; x6e; x67]] sample_conn [] [x00])
    as (c' & evs & Hfeed & _ & Hemitted & _ & Hframer).
  - constructor; [|constructor].
    vm_compute. split; [reflexivity | discriminate].
  - exact I.
  - reflexivity.
  - reflexivity.
  - exact I.
  - exists c', evs. split; [exact Hfeed|]. split; [exact Hemitted | exact Hframer].
Defined.

(** A chunk that holds the frame of "ping" and then a prefix of length
    zero. *)
Lemma processData_effects_witness :
  exists c' evs,
    @processData sample_runtime
      [x00; x00; x00; x04; x70; x69; x6e; x67; x00; x00; x00; x00] sample_conn
    = Some (c', evs)
    /\ emitted evs = ["ping"%string]
    /\ responseCallbacks c' ⊆ responseCallbacks sample_conn.
Proof.
  destruct (@processData_effects sample_runtime
              [x00; x00; x00; x04; x70; x69; x6e; x67; x00; x00; x00; x00]
              sample_conn)
    as (c' & evs & trailing & Hp & _ & _ & _ & _ & _ & _ & Hsub & _).
  - vm_compute. split; [lia | reflexivity].
  - exists c', evs. split; [exact Hp|]. split; [|exact Hsub].
    unfold processData in Hp. vm_compute in Hp.
    injection Hp as _ <-. reflexivity.
Defined.

(** The "ping" request and its response, which arrives in two chunks. *)
Lemma request_gets_its_response_witness :
  exists c2,
    @feed sample_runtime
      [take 7 (frame (list_byte_of_string pong_payload));
       drop 7 (frame (list_byte_of_string pong_payload))] sample_pending
    = Some (c2, [Emit pong_payload;
                 Resolve 0%nat (Some (JObj [("pong"%string, JBool true)]))])
    /\ responseCallbacks c2 !! sample_id = None
    /\ fire_timeout (request_timer sample_id "ping" 0%nat) c2 = (c2, []).
Proof.
  assert (H := @request_gets_its_response sample_runtime 1700000000000
                 "0.123456789" "ping" None 0%nat sample_conn _
                 (list_byte_of_string pong_payload)
                 [take 7 (frame (list_byte_of_string pong_payload));
                  drop 7 (frame (list_byte_of_string pong_payload))]
                 eq_refl
                 ltac:(vm_compute; discriminate)
                 ltac:(reflexivity)
                 ltac:(vm_compute; split; [reflexivity | discriminate])
                 ltac:(eexists; split; vm_compute; reflexivity)
                 ltac:(vm_compute; reflexivity)).
  cbv zeta in H. destruct H as (c2 & _ & Hfeed & Hc2 & _ & _ & Htimer).
  exists c2. split; [exact Hfeed|]. split; [|exact Htimer].
  rewrite Hc2. apply lookup_delete_eq.
Defined.

(** A prefix of length zero followed by a byte, then the frame of "ping"
    in a chunk of its own. *)
Lemma framer_restarts_after_invalid_length_witness :
  exists c1 evs1 c2 evs2,
    @processData sample_runtime [x00; x00; x00; x00; x7b] sample_conn
    = Some (c1, evs1)
    /\ emitted evs1 = []
    /\ @feed sample_runtime [[x00; x00; x00; x04; x70; x69; x6e; x67]] c1
       = Some (c2, evs2)
    /\ emitted evs2 = ["ping"%string]
    /\ framer_state c2 = ([], [], None).
Proof.
  refine (@framer_restarts_after_invalid_length sample_runtime []
            [x00; x00; x00; x00; x7b] [] sample_conn x00 x00 x00 x00 [x7b]
            [[x00; x00; x00; x04; x70; x69; x6e; x67]] [[x70; x69; x6e; x67]] []
            _ I eq_refl eq_refl _ _ eq_refl I).
  - constructor.
  - left. vm_compute. discriminate.
  - constructor; [|constructor].
    vm_compute. split; [reflexivity | discriminate].
Defined.

(** The response to the pending "ping" request. *)
Lemma delivery_touches_one_request_witness :
  responseCallbacks (fst (@handleResponse sample_runtime pong_payload
                            sample_pending)) !! "42"%string
  = responseCallbacks sample_pending !! "42"%string
  /\ framer_state (fst (@handleResponse sample_runtime pong_payload sample_pending))
     = framer_state sample_pending.
Proof.
  assert (H := @delivery_touches_one_request sample_runtime sample_pending
                 sample_id pong_payload 0%nat
                 ltac:(apply (@reach_sendCommand sample_runtime), reach_new)
                 ltac:(vm_compute; reflexivity)
                 ltac:(eexists; split; vm_compute; reflexivity)).
  cbv zeta in H. destruct H as (Hothers & _ & Hframer & _).
  split; [apply Hothers; discriminate | exact Hframer].
Defined.

(** Two "ping" requests made in the same millisecond with the same random
    text. *)
Lemma colliding_identifiers_witness :
  let c2 :=
    fst (@sendCommand sample_runtime 1700000000000 "0.123456789" 1%nat "ping"
           None sample_pending) in
  responseCallbacks c2 !! sample_id = Some (ResponseCallback 1%nat)
  /\ settlements 0%nat (snd (@handleResponse sample_runtime pong_payload c2)) = [].
Proof.
  assert (H := @colliding_identifiers sample_runtime 1700000000000 "0.123456789"
                 "ping" "ping" None None 0%nat 1%nat sample_conn pong_payload
                 ltac:(discriminate)).
  cbv zeta in H.
  destruct (H ltac:(eexists; split; vm_compute; reflexivity))
    as (Hreg & (Hfirst & _) & _).
  cbv zeta. split; [exact Hreg | exact Hfirst].
Defined.

(** [disconnect] while the "ping" request is pending. *)
Lemma disconnect_keeps_requests_witness :
  let d := fst (disconnect sample_pending) in
  responseCallbacks d = responseCallbacks sample_pending
  /\ snd (@handleResponse sample_runtime pong_payload d)
     = [Resolve 0%nat (Some (JObj [("pong"%string, JBool true)]))].
Proof.
  assert (H := @disconnect_keeps_requests sample_runtime sample_pending sample_id
                 pong_payload "ping" 0%nat
                 ltac:(apply (@reach_sendCommand sample_runtime), reach_new)
                 ltac:(vm_compute; reflexivity)
                 ltac:(eexists; split; vm_compute; reflexivity)).
  cbv zeta in H. destruct H as (_ & _ & Hreg & _ & Hresp & _).
  cbv zeta. split; [exact Hreg | exact Hresp].
Defined.

(** The frame of "ping" cut after the first byte of the payload by an
    error and a reconnection. *)
Lemma partial_frame_survives_reconnect_witness :
  exists c1 evs1 c2 evs2,
    @on_data sample_runtime [x00; x00; x00; x04; x70] sample_conn = Some (c1, evs1)
    /\ @on_data sample_runtime [x69; x6e; x67]
         (on_connect (on_close (fst (on_error (LogStr "ECONNRESET") c1))))
       = Some (c2, evs2)
    /\ emitted (evs1 ++ evs2) = ["ping"%string]
    /\ framer_idle c2.
Proof.
  refine (@partial_frame_survives_reconnect sample_runtime [x70; x69; x6e; x67]
            [x00; x00; x00; x04; x70] [x69; x6e; x67] (LogStr "ECONNRESET")
            sample_conn _ eq_refl eq_refl).
  vm_compute. split; [reflexivity | discriminate].
Defined.

(** A directory that holds [ping.ts] and [ping.js]. *)
Lemma imported_paths_witness :
  (exists stem,
      "./ping.js"%string = "./" +:+ stem +:+ ".js"
      /\ stem <> "index"%string /\ stem <> "register"%string
      /\ (In (stem +:+ ".ts") sample_files \/ In (stem +:+ ".js") sample_files)
      /\ importPath (stem +:+ ".ts") = "./ping.js"%string
      /\ importPath (stem +:+ ".js") = "./ping.js"%string)
  /\ "./ping.js"%string <> "./index.js"%string
  /\ "./ping.js"%string <> "./register.js"%string.
Proof.
  apply (imported_paths sample_files sample_import "./ping.js").
  vm_compute. left. reflexivity.
Defined.

(** ** Where the code departs from a claim *)

(** Against C5 as stated: no call of [sendCommand], whatever its inputs,
    sets a timer of 50 ms (or of any delay but 120000 ms); the call for
    "slow" sets one of 120000 ms. *)
Lemma sendCommand_timeout_not_configurable :
  (forall (rt : Runtime) (now : Z) (random command : string) (params : jsval)
          (p : promise) (c : conn) (t : timer),
      ~ In (SetTimeout t 50) (snd (sendCommand now random p command params c)))
  /\ (exists bytes,
        snd (@sendCommand sample_runtime 1700000000000 "0.123456789" 0%nat "slow"
               (Some (JObj [])) sample_conn)
        = [SocketConnect 8080 "localhost"; SocketWrite bytes;
           SetTimeout (request_timer sample_id "slow" 0%nat) 120000]).
Proof.
  split.
  - intros rt now random command params p c t H.
    apply sendCommand_delay in H. destruct H as [_ H]. discriminate H.
  - eexists. vm_compute. reflexivity.
Qed.


(** Against C7 as stated: the envelope
    [{"id":...,"error":{"message":""}}] carries an error whose message is
    the empty string, and the promise is rejected with "Unknown error from
    Revit", not with that message. *)
Lemma empty_error_message_replaced :
  sample_parse empty_message_payload
  = Ok (JObj [("id"%string, JStr sample_id);
              ("error"%string, JObj [("message"%string, JStr "")])])
  /\ responseCallbacks sample_pending !! sample_id = Some (ResponseCallback 0%nat)
  /\ snd (@handleResponse sample_runtime empty_message_payload sample_pending)
     = [Reject 0%nat (NewError (JStr "Unknown error from Revit"))]
  /\ snd (@handleResponse sample_runtime empty_message_payload sample_pending)
     <> [Reject 0%nat (NewError (JStr ""))].
Proof.
  split; [vm_compute; reflexivity|]. split; [vm_compute; reflexivity|].
  split; [vm_compute; reflexivity|]. vm_compute. discriminate.
Qed.

(** Against C10 as stated: the payload [null] parses as JSON and has no
    [id], yet no identifier is computed for it (reading [id] throws), no
    lookup under "default" takes place, and the drop is logged. *)
Lemma null_payload_is_logged :
  sample_parse "null" = Ok JNull
  /\ @requestId_of sample_runtime "null"
     = Throw (TypeError "Cannot read properties of null (reading 'id')")
  /\ @handleResponse sample_runtime "null" sample_pending
     = (sample_pending,
        [ConsoleError
           [LogStr "Error parsing response:";
            LogExn (TypeError "Cannot read properties of null (reading 'id')")];
         ConsoleError [LogStr "Response data:"; LogStr "null"]])
  /\ snd (@handleResponse sample_runtime "null" sample_pending) <> [].
Proof.
  split; [reflexivity|]. split; [reflexivity|].
  split; [reflexivity|]. vm_compute. discriminate.
Qed.

(** ** More runs of the framer *)

Example zero_length_rejected :
  option_map snd (@processData sample_runtime [x00; x00; x00; x00; x7b] sample_conn)
  = Some [ConsoleError [LogStr "Invalid message length: 0"]].
Proof. vm_compute. reflexivity. Qed.

Example negative_length_rejected :
  option_map snd (@processData sample_runtime [xff; xff; xff; xff; x7b] sample_conn)
  = Some [ConsoleError [LogStr "Invalid message length: -1"]].
Proof. vm_compute. reflexivity. Qed.

Example generateRequestId_sample :
  generateRequestId 1700000000000 "0.123456789" = sample_id.
Proof. reflexivity. Qed.

Example pong_resolves :
  snd (@handleResponse sample_runtime pong_payload sample_pending)
  = [Resolve 0%nat (Some (JObj [("pong"%string, JBool true)]))].
Proof. vm_compute. reflexivity. Qed.
